(** * vfxdirs: configuration layering, path expansion and context construction

    A shallow embedding of [vfxdirs/keys.py], [vfxdirs/context.py] and
    [vfxdirs/config.py], followed by the properties of the merge algorithm,
    of path expansion, of parsing and of context construction.

    Conventions of the embedding:
    - a Python [str] is a [string]; the model covers the ASCII range, where
      [str.strip], [str.lower] and the regular-expression class [\w] have
      the tables written out below;
    - a [pathlib.Path] is a pure POSIX path in the normal form pathlib
      keeps (root and components);
    - a [dict] or [MappingProxyType] that is only read and compared is a
      [gmap]; a mapping whose iteration order is observable (the raw input
      of the parser, the argument of a constructor) is an association list;
    - a function that can raise returns a [result];
    - the merge is embedded twice: on values, and on a store of objects
      with locations (module [Store]), where a dictionary is updated in
      place; the second embedding is shown to compute the first. *)

From Stdlib Require Import Ascii String List NArith ZArith Bool Lia.
From stdpp Require Import base option list strings gmap fin_maps.

Local Open Scope string_scope.

(** ** Python string primitives *)

Module Str.

Definition code (c : ascii) : N := N_of_ascii c.

(** [str.isspace] on one ASCII character: TAB, LF, VT, FF, CR, the four
    information separators FS, GS, RS, US, and the space. *)
Definition isspace (c : ascii) : bool :=
  ((9 <=? code c) && (code c <=? 13) || (28 <=? code c) && (code c <=? 32))%N.

Definition isupper (c : ascii) : bool :=
  ((65 <=? code c) && (code c <=? 90))%N.

Definition islower (c : ascii) : bool :=
  ((97 <=? code c) && (code c <=? 122))%N.

Definition isdigit (c : ascii) : bool :=
  ((48 <=? code c) && (code c <=? 57))%N.

(** The class [\w] of the [re] module, ASCII part. *)
Definition isword (c : ascii) : bool :=
  isupper c || islower c || isdigit c || (code c =? 95)%N.

Definition lower_char (c : ascii) : ascii :=
  if isupper c then ascii_of_N (code c + 32) else c.

Fixpoint lower (s : string) : string :=
  match s with
  | EmptyString => EmptyString
  | String c r => String (lower_char c) (lower r)
  end.

Fixpoint lstrip (s : string) : string :=
  match s with
  | EmptyString => EmptyString
  | String c r => if isspace c then lstrip r else s
  end.

Definition is_empty (s : string) : bool :=
  match s with EmptyString => true | _ => false end.

Fixpoint rstrip (s : string) : string :=
  match s with
  | EmptyString => EmptyString
  | String c r =>
      let r' := rstrip r in
      if isspace c && is_empty r' then EmptyString else String c r'
  end.

(** [s.strip()] *)
Definition strip (s : string) : string := rstrip (lstrip s).

(** [s.startswith(p)] *)
Fixpoint startswith (p s : string) : bool :=
  match p, s with
  | EmptyString, _ => true
  | String a p', String b s' => Ascii.eqb a b && startswith p' s'
  | String _ _, EmptyString => false
  end.

(** [s[1:]] *)
Definition tail (s : string) : string :=
  match s with EmptyString => EmptyString | String _ r => r end.

(** The longest prefix of [s] whose characters satisfy [p], and the rest. *)
Fixpoint span (p : ascii -> bool) (s : string) : string * string :=
  match s with
  | EmptyString => (EmptyString, EmptyString)
  | String c r =>
      if p c then let '(a, b) := span p r in (String c a, b)
      else (EmptyString, s)
  end.

Definition all_space (s : string) : bool := is_empty (lstrip s).

(** Every character of [s] satisfies [p]. *)
Fixpoint all (p : ascii -> bool) (s : string) : bool :=
  match s with
  | EmptyString => true
  | String c r => p c && all p r
  end.

(** [s] is not empty and its first character satisfies [p]. *)
Definition head_is (p : ascii -> bool) (s : string) : bool :=
  match s with
  | EmptyString => false
  | String c _ => p c
  end.

(** A string that does not begin with white space. *)
Definition no_lead (s : string) : bool :=
  match s with
  | EmptyString => true
  | String c _ => negb (isspace c)
  end.

End Str.

(** ** Exceptions *)

Inductive exn : Type :=
| VFXDirsConfigError (msg : string)
| RuntimeError (msg : string)
| OSError (msg : string)
| TOMLDecodeError (msg : string)
| AttributeError (msg : string).

Inductive result (A : Type) : Type :=
| Ok (a : A)
| Raise (e : exn).
Arguments Ok {A} a.
Arguments Raise {A} e.

Global Instance result_ret : MRet result := fun A a => Ok a.

Global Instance result_bind : MBind result := fun A B k r =>
  match r with
  | Ok a => k a
  | Raise e => Raise e
  end.

Definition is_ok {A} (r : result A) : bool :=
  match r with Ok _ => true | Raise _ => false end.

(** ** pathlib: pure POSIX paths

    [pathlib] keeps a path as a root (the empty string, one slash, or exactly
    two slashes) and the list of its components, with empty components and
    single dots dropped; two paths are equal when these agree. *)

Record Path : Type := mkPath {
  path_root : string;
  path_parts : list string
}.

Global Instance Path_eq_dec : EqDecision Path.
Proof. solve_decision. Defined.

Module Pathlib.

(** [rel.split("/")] *)
Fixpoint split_sep (s : string) : list string :=
  match s with
  | EmptyString => [EmptyString]
  | String c r =>
      if Ascii.eqb c "/" then EmptyString :: split_sep r
      else match split_sep r with
           | x :: xs => String c x :: xs
           | [] => [String c EmptyString]
           end
  end.

(** [posixpath.splitroot], without the drive that is always empty. *)
Definition splitroot (p : string) : string * string :=
  match p with
  | String "/" (String "/" (String "/" r)) => ("/", String "/" (String "/" r))
  | String "/" (String "/" r) => ("//", r)
  | String "/" r => ("/", r)
  | _ => ("", p)
  end.

Definition keep_part (x : string) : bool :=
  negb (Str.is_empty x) && negb (String.eqb x ".").

(** [Path(s)] *)
Definition of_str (s : string) : Path :=
  let '(root, rel) := splitroot s in
  mkPath root (List.filter keep_part (split_sep rel)).

(** ["/".join(parts)] *)
Fixpoint join_sep (l : list string) : string :=
  match l with
  | [] => ""
  | [x] => x
  | x :: r => x ++ "/" ++ join_sep r
  end.

(** [str(p)] *)
Definition to_str (p : Path) : string :=
  let s := path_root p ++ join_sep (path_parts p) in
  if Str.is_empty s then "." else s.

(** [p.is_absolute()] *)
Definition is_absolute (p : Path) : bool := negb (Str.is_empty (path_root p)).

(** [p / q]: an absolute right operand replaces the left one. *)
Definition truediv (p q : Path) : Path :=
  if is_absolute q then q
  else mkPath (path_root p) (path_parts p ++ path_parts q).

(** [p.parent] *)
Definition parent (p : Path) : Path :=
  match path_parts p with
  | [] => p
  | _ => mkPath (path_root p) (removelast (path_parts p))
  end.

End Pathlib.

Notation "p // q" := (Pathlib.truediv p q) (at level 40, left associativity).
Notation "p /: s" := (Pathlib.truediv p (Pathlib.of_str s))
  (at level 40, left associativity).

(** ** keys.py *)

Inductive DirKey : Type :=
| PREFS | CONFIG | DATA | CACHE | LOGS | TEMP | SCRIPTS | PLUGINS | PACKAGES.

(** The value of a member of the [StrEnum]. *)
Definition DirKey_value (k : DirKey) : string :=
  match k with
  | PREFS => "prefs"
  | CONFIG => "config"
  | DATA => "data"
  | CACHE => "cache"
  | LOGS => "logs"
  | TEMP => "temp"
  | SCRIPTS => "scripts"
  | PLUGINS => "plugins"
  | PACKAGES => "packages"
  end.

(** [KeyLike = DirKey | str] *)
Inductive KeyLike : Type :=
| KeyDir (k : DirKey)
| KeyStr (s : string).

(** A member of a [StrEnum] is a [str]: it hashes and compares as its value,
    which is what a dictionary sees of it. *)
Definition KeyLike_str (k : KeyLike) : string :=
  match k with
  | KeyDir d => DirKey_value d
  | KeyStr s => s
  end.

Coercion KeyStr : string >-> KeyLike.

(** Modelled from the spec: [normalize_key], which [config.py] imports from
    [keys.py] and [keys.py] does not define. The spec: every path-override
    key is normalized (trim + case-fold) before storage; a key-like value is
    a [DirKey] or an arbitrary string, arbitrary strings are normalized the
    same way and compared by value. *)
Definition normalize_key (k : KeyLike) : string :=
  Str.lower (Str.strip (KeyLike_str k)).

(** ** config.py: the configuration tree *)

(** [_normalize_app_id] *)
Definition _normalize_app_id (app_id : string) : result string :=
  let raw := Str.lower (Str.strip app_id) in
  if Str.is_empty raw then Raise (VFXDirsConfigError "app_id cannot be empty")
  else Ok raw.

Record InstallOverride : Type := mkInstallOverride {
  root : option Path;
  executable : option Path
}.

(** [higher if higher is not None else lower] *)
Definition or_else {A} (higher lower : option A) : option A :=
  match higher with
  | Some x => Some x
  | None => lower
  end.

(** [InstallOverride.merged] *)
Definition InstallOverride_merged (self higher : InstallOverride) : InstallOverride :=
  mkInstallOverride
    (or_else (root higher) (root self))
    (or_else (executable higher) (executable self)).

(** The fields of an [AppConfig] after [__post_init__]. *)
Record AppConfig : Type := mkAppConfig {
  base : option Path;
  install : InstallOverride;
  paths : gmap string Path
}.

(** [AppConfig.__post_init__]: a fresh dictionary that receives every item
    of the argument under its normalized key. When two keys of the argument
    have the same normalized key, Python keeps the item that comes later in
    the argument; a [gmap] does not record that order, and the fold keeps
    one of the two. No value of the class has two such keys. *)
Definition AppConfig_normalized (paths : gmap string Path) : gmap string Path :=
  map_fold (fun k v normalized => <[normalize_key (KeyStr k) := v]> normalized) ∅ paths.

(** [AppConfig(base=..., install=..., paths=...)] *)
Definition AppConfig_new (base : option Path) (install : InstallOverride)
    (paths : gmap string Path) : AppConfig :=
  mkAppConfig base install (AppConfig_normalized paths).

(** [AppConfig.path_override] *)
Definition AppConfig_path_override (self : AppConfig) (key : KeyLike) : option Path :=
  paths self !! normalize_key key.

(** [AppConfig.merged]: [dict(self.paths)] then [update(higher.paths)] is the
    union in which [higher]'s entries win. *)
Definition AppConfig_merged (self higher : AppConfig) : AppConfig :=
  let merged_paths := paths higher ∪ paths self in
  AppConfig_new
    (or_else (base higher) (base self))
    (InstallOverride_merged (install self) (install higher))
    merged_paths.

(** The field of a [VFXDirsConfig] after [__post_init__]. *)
Record VFXDirsConfig : Type := mkVFXDirsConfig {
  apps : gmap string AppConfig
}.

(** [VFXDirsConfig.__post_init__]: raises when an identifier is blank. *)
Definition VFXDirsConfig_normalized (apps : gmap string AppConfig)
    : result (gmap string AppConfig) :=
  map_fold (fun app_id cfg acc =>
              normalized ← acc;
              norm_id ← _normalize_app_id app_id;
              Ok (<[norm_id := cfg]> normalized))
           (Ok ∅) apps.

(** [VFXDirsConfig(apps=...)] *)
Definition VFXDirsConfig_new (apps : gmap string AppConfig) : result VFXDirsConfig :=
  normalized ← VFXDirsConfig_normalized apps;
  Ok (mkVFXDirsConfig normalized).

(** [VFXDirsConfig()] *)
Definition VFXDirsConfig_empty : VFXDirsConfig := mkVFXDirsConfig ∅.

(** [VFXDirsConfig.app] *)
Definition VFXDirsConfig_app (self : VFXDirsConfig) (app_id : string)
    : result (option AppConfig) :=
  norm_id ← _normalize_app_id app_id;
  Ok (apps self !! norm_id).

(** [VFXDirsConfig.path_override] *)
Definition VFXDirsConfig_path_override (self : VFXDirsConfig) (app_id : string)
    (key : KeyLike) : result (option Path) :=
  app_cfg ← VFXDirsConfig_app self app_id;
  match app_cfg with
  | None => Ok None
  | Some app_cfg => Ok (AppConfig_path_override app_cfg key)
  end.

(** The body of the loop of [VFXDirsConfig.merged]. *)
Definition merge_app (app_id : string) (higher_app : AppConfig)
    (merged_apps : gmap string AppConfig) : gmap string AppConfig :=
  let lower_app := merged_apps !! app_id in
  <[app_id := match lower_app with
              | None => higher_app
              | Some lower_app => AppConfig_merged lower_app higher_app
              end]> merged_apps.

(** [VFXDirsConfig.merged] *)
Definition VFXDirsConfig_merged (self : VFXDirsConfig) (higher : option VFXDirsConfig)
    : result VFXDirsConfig :=
  match higher with
  | None => Ok self
  | Some higher =>
      let merged_apps := map_fold merge_app (apps self) (apps higher) in
      VFXDirsConfig_new merged_apps
  end.

(** What the loop of [VFXDirsConfig.merged] leaves under each identifier. *)
Definition merge_entry (lower higher : option AppConfig) : option AppConfig :=
  match higher with
  | None => lower
  | Some h => Some (match lower with
                    | None => h
                    | Some l => AppConfig_merged l h
                    end)
  end.

(** ** config.py: path expansion *)

(** An environment mapping, [Mapping[str, str]]. *)
Abbreviation Env := (gmap string string).

(** [_expand_user] *)
Definition _expand_user (value : string) (home : Path) : string :=
  if String.eqb value "~" then Pathlib.to_str home
  else if Str.startswith "~/" value || Str.startswith "~\" value
  then Pathlib.to_str home ++ Str.tail value
  else value.

(** One match of [_ENV_VAR_PATTERN] = [\$(\w+)|\$\{([^}]+)\}] anchored at the
    start of [s]: the variable name (group 1 or group 2), the whole match
    (group 0) and what follows the match. The first alternative is tried
    first; both repetitions are greedy, and neither can give back a
    character and still match. *)
Definition match_env_var (s : string) : option (string * string * string) :=
  match s with
  | String "$" r =>
      let '(w, after_w) := Str.span Str.isword r in
      if negb (Str.is_empty w) then Some (w, String "$" w, after_w)
      else match r with
           | String "{" r2 =>
               let '(n, after_n) := Str.span (fun c => negb (Ascii.eqb c "}")) r2 in
               match after_n with
               | String "}" r3 =>
                   if negb (Str.is_empty n)
                   then Some (n, "${" ++ n ++ "}", r3)
                   else None
               | _ => None
               end
           | _ => None
           end
  | _ => None
  end.

(** The function [repl] local to [_expand_env_vars]. *)
Definition repl (env : Env) (var group0 : string) : string :=
  if Str.is_empty var then group0
  else default group0 (env !! var).

(** [_ENV_VAR_PATTERN.sub(repl, value)]: the matches are taken from left to
    right and do not overlap; [fuel] bounds the number of characters that
    remain to be scanned. *)
Fixpoint sub_env_vars (fuel : nat) (env : Env) (value : string) : string :=
  match fuel with
  | O => value
  | S fuel =>
      match value with
      | EmptyString => EmptyString
      | String c r =>
          match match_env_var value with
          | Some (var, group0, rest) => repl env var group0 ++ sub_env_vars fuel env rest
          | None => String c (sub_env_vars fuel env r)
          end
      end
  end.

(** [_expand_env_vars] *)
Definition _expand_env_vars (value : string) (env : Env) : string :=
  sub_env_vars (String.length value) env value.

(** ** Raw configuration input

    What [tomllib] produces and what a caller may pass to [from_mapping]. A
    table keeps its items in iteration order. Of an object of any other type
    the parser observes the name of the type and the truth value only. *)
#[warnings="-register-all"]
Inductive Value : Type :=
| VNone
| VBool (b : bool)
| VInt (n : Z)
| VStr (s : string)
| VList (l : list Value)
| VTable (items : list (string * Value))
| VObject (type_name : string) (truth : bool).

(** [type(v).__name__] *)
Definition type_name_of (v : Value) : string :=
  match v with
  | VNone => "NoneType"
  | VBool _ => "bool"
  | VInt _ => "int"
  | VStr _ => "str"
  | VList _ => "list"
  | VTable _ => "dict"
  | VObject n _ => n
  end.

(** [bool(v)] *)
Definition truthy (v : Value) : bool :=
  match v with
  | VNone => false
  | VBool b => b
  | VInt n => negb (n =? 0)%Z
  | VStr s => negb (Str.is_empty s)
  | VList l => match l with [] => false | _ => true end
  | VTable t => match t with [] => false | _ => true end
  | VObject _ b => b
  end.

(** [tbl.get(key)] on the items of a table. *)
Fixpoint table_get (tbl : list (string * Value)) (key : string) : option Value :=
  match tbl with
  | [] => None
  | (k, v) :: r => if String.eqb k key then Some v else table_get r key
  end.

(** [tbl.get(key, {}) or {}] *)
Definition get_or_empty (tbl : list (string * Value)) (key : string) : Value :=
  let v := default (VTable []) (table_get tbl key) in
  if truthy v then v else VTable [].

(** [_parse_path] *)
Definition _parse_path (raw : Value) (env : Env) (home base_dir : Path)
    (where_ : string) : result Path :=
  match raw with
  | VStr raw =>
      let raw_str := Str.strip raw in
      if Str.is_empty raw_str
      then Raise (VFXDirsConfigError (where_ ++ " cannot be an empty path"))
      else
        let expanded := _expand_user raw_str home in
        let expanded := _expand_env_vars expanded env in
        let p := Pathlib.of_str expanded in
        if negb (Pathlib.is_absolute p) then Ok (base_dir // p) else Ok p
  | _ =>
      Raise (VFXDirsConfigError
               (where_ ++ " must be a string path but got " ++ type_name_of raw))
  end.

(** [_parse_path(tbl[key], ...)] guarded by
    [key in tbl and tbl[key] is not None]. *)
Definition parse_optional_path (tbl : list (string * Value)) (key : string)
    (env : Env) (home base_dir : Path) (where_ : string) : result (option Path) :=
  match table_get tbl key with
  | None | Some VNone => Ok None
  | Some v => p ← _parse_path v env home base_dir where_; Ok (Some p)
  end.

(** ** context.py *)

Inductive OSName : Type := windows | macos | linux.

(** What the interpreter and the operating system answer when asked:
    [sys.platform], [os.environ], [Path.home()], [Path.cwd()] and
    [tempfile.gettempdir()]. *)
Record Host : Type := mkHost {
  sys_platform : string;
  os_environ : Env;
  path_home : Path;
  path_cwd : Path;
  gettempdir : string
}.

(** [_detect_os_name] *)
Definition _detect_os_name (host : Host) : result OSName :=
  if Str.startswith "win" (sys_platform host) then Ok windows
  else if String.eqb (sys_platform host) "darwin" then Ok macos
  else if Str.startswith "linux" (sys_platform host) then Ok linux
  else Raise (RuntimeError ("Unsupported platform: '" ++ sys_platform host ++ "'")).

(** [x if value else y] for [value = env.get(name)]: an empty string is
    false, as is [None]. *)
Definition get_truthy (env : Env) (name : string) : option string :=
  match env !! name with
  | Some v => if Str.is_empty v then None else Some v
  | None => None
  end.

(** [_home_from_env] *)
Definition _home_from_env (host : Host) (os_name : OSName) (env : Env) : Path :=
  let value :=
    match os_name with
    | windows => get_truthy env "USERPROFILE"
    | _ => get_truthy env "HOME"
    end in
  match value with
  | Some value => Pathlib.of_str value
  | None => path_home host
  end.

Record Context : Type := mkContext {
  os : OSName;
  env : Env;
  home : Path;
  cwd : Path;
  temp_dir : Path;
  config_home : Path;
  data_home : Path;
  cache_home : Path;
  install_roots : list Path
}.

(** [Path(env_map.get(name, fallback))] *)
Definition path_of_env (env_map : Env) (name : string) (fallback : Path) : Path :=
  match env_map !! name with
  | Some v => Pathlib.of_str v
  | None => fallback
  end.

(** The loop over the Program-Files variables. *)
Definition program_files_roots (env_map : Env) : list Path :=
  flat_map (fun key =>
              match get_truthy env_map key with
              | Some value => [Pathlib.of_str value]
              | None => []
              end)
           ["ProgramFiles"; "ProgramW6432"; "ProgramFiles(x86)"].

(** [Context.from_env] *)
Definition from_env (host : Host) (env : option Env) (os_name : option OSName)
    (home cwd : option Path) : result Context :=
  let env_map := match env with None => os_environ host | Some e => e end in
  detected_os ← match os_name with
                | Some o => Ok o
                | None => _detect_os_name host
                end;
  let resolved_home := default (_home_from_env host detected_os env_map) home in
  let resolved_cwd := default (path_cwd host) cwd in
  let temp_dir := Pathlib.of_str (gettempdir host) in
  match detected_os with
  | linux =>
      Ok (mkContext detected_os env_map resolved_home resolved_cwd temp_dir
            (path_of_env env_map "XDG_CONFIG_HOME" (resolved_home /: ".config"))
            (path_of_env env_map "XDG_DATA_HOME" (resolved_home /: ".local" /: "share"))
            (path_of_env env_map "XDG_CACHE_HOME" (resolved_home /: ".cache"))
            [Pathlib.of_str "/opt"; Pathlib.of_str "/usr/local"; Pathlib.of_str "/usr"])
  | macos =>
      let library := resolved_home /: "Library" in
      Ok (mkContext detected_os env_map resolved_home resolved_cwd temp_dir
            (library /: "Application Support")
            (library /: "Application Support")
            (library /: "Caches")
            [Pathlib.of_str "/Applications"; Pathlib.of_str "/Applications/Utilities"])
  | windows =>
      let appdata := get_truthy env_map "APPDATA" in
      let localappdata := get_truthy env_map "LOCALAPPDATA" in
      let config_home :=
        match appdata with
        | Some appdata => Pathlib.of_str appdata
        | None => resolved_home /: "AppData" /: "Roaming"
        end in
      let data_home := config_home in
      let cache_home :=
        match localappdata with
        | Some localappdata => Pathlib.of_str localappdata
        | None => resolved_home /: "AppData" /: "Local"
        end in
      let roots := program_files_roots env_map in
      let install_roots :=
        match roots with
        | [] => [Pathlib.of_str "C:/Program Files"]
        | _ => roots
        end in
      Ok (mkContext detected_os env_map resolved_home resolved_cwd temp_dir
            config_home data_home cache_home install_roots)
  end.

(** [default_config_path] *)
Definition default_config_path (ctx : Context) : Path :=
  config_home ctx /: "vfxdirs" /: "config.toml".

(** ** config.py: parsing *)

(** The loop over [paths_tbl.items()]. *)
Fixpoint parse_paths (paths_tbl : list (string * Value)) (env_map : Env)
    (home base_dir : Path) (app_id : string) (paths : gmap string Path)
    : result (gmap string Path) :=
  match paths_tbl with
  | [] => Ok paths
  | (raw_key, raw_value) :: rest =>
      let key := normalize_key (KeyStr raw_key) in
      p ← _parse_path raw_value env_map home base_dir
            ("apps." ++ app_id ++ ".paths." ++ raw_key);
      parse_paths rest env_map home base_dir app_id (<[key := p]> paths)
  end.

(** The body of the loop over [raw_apps.items()], up to the [AppConfig]. *)
Definition parse_app (app_id : string) (raw_app_tbl : Value) (env_map : Env)
    (home base_dir : Path) : result AppConfig :=
  match raw_app_tbl with
  | VTable raw_app_tbl =>
      base ← parse_optional_path raw_app_tbl "base" env_map home base_dir
               ("apps." ++ app_id ++ ".base");
      match get_or_empty raw_app_tbl "install" with
      | VTable install_tbl =>
          install_root ← parse_optional_path install_tbl "root" env_map home base_dir
                           ("apps." ++ app_id ++ ".install.root");
          install_exe ← parse_optional_path install_tbl "executable" env_map home base_dir
                          ("apps." ++ app_id ++ ".install.executable");
          let install := mkInstallOverride install_root install_exe in
          match get_or_empty raw_app_tbl "paths" with
          | VTable paths_tbl =>
              paths ← parse_paths paths_tbl env_map home base_dir app_id ∅;
              Ok (AppConfig_new base install paths)
          | _ =>
              Raise (VFXDirsConfigError
                       ("`apps." ++ app_id ++ ".paths` must be a TOML table or object"))
          end
      | _ =>
          Raise (VFXDirsConfigError
                   ("`apps." ++ app_id ++ ".install` must be a TOML table or object"))
      end
  | _ =>
      Raise (VFXDirsConfigError
               ("`apps." ++ app_id ++ "` must be a TOML table or object"))
  end.

(** The loop over [raw_apps.items()]. *)
Fixpoint parse_apps (raw_apps : list (string * Value)) (env_map : Env)
    (home base_dir : Path) (apps : gmap string AppConfig)
    : result (gmap string AppConfig) :=
  match raw_apps with
  | [] => Ok apps
  | (raw_app_id, raw_app_tbl) :: rest =>
      app_id ← _normalize_app_id raw_app_id;
      cfg ← parse_app app_id raw_app_tbl env_map home base_dir;
      parse_apps rest env_map home base_dir (<[app_id := cfg]> apps)
  end.

(** [ctx.env], under a name that a parameter called [env] does not hide. *)
Definition Context_env (ctx : Context) : Env := env ctx.

(** [VFXDirsConfig.from_mapping] *)
Definition from_mapping (host : Host) (data : Value) (base_dir : Path)
    (env : option Env) (context : option Context) : result VFXDirsConfig :=
  match data with
  | VTable data =>
      ctx ← match context with
            | Some ctx => Ok ctx
            | None => from_env host env None None None
            end;
      let env_map := match env with None => Context_env ctx | Some e => e end in
      let raw_apps := default (VTable []) (table_get data "apps") in
      let raw_apps := match raw_apps with VNone => VTable [] | _ => raw_apps end in
      match raw_apps with
      | VTable raw_apps =>
          apps ← parse_apps raw_apps env_map (home ctx) base_dir ∅;
          VFXDirsConfig_new apps
      | _ => Raise (VFXDirsConfigError "`apps` must be a TOML table or object")
      end
  | _ => Raise (VFXDirsConfigError "Config root must be a TOML table or object")
  end.

(** ** config.py: loading from a file *)

(** What [Path.exists] and [Path.read_text] see of the file system: at a
    path there is nothing, or something whose reading gives a text or
    raises (a directory, a file that may not be read or is not UTF-8). *)
Definition FileSystem : Type := Path -> option (result string).

Section Loading.

(** [tomllib.loads] *)
Variable tomllib_loads : string -> result Value.
Variable fs : FileSystem.
Variable host : Host.

(** [config_path.exists()] *)
Definition path_exists (config_path : Path) : bool :=
  match fs config_path with Some _ => true | None => false end.

(** [config_path.read_text(encoding="utf-8")] *)
Definition read_text (config_path : Path) : result string :=
  match fs config_path with
  | Some r => r
  | None => Raise (OSError "No such file or directory")
  end.

(** [VFXDirsConfig.from_file] *)
Definition from_file (path : Path) (env : option Env) (context : option Context)
    : result VFXDirsConfig :=
  let config_path := path in
  text ← read_text config_path;
  data ← tomllib_loads text;
  from_mapping host data (Pathlib.parent config_path) env context.

(** [VFXDirsConfig.load] *)
Definition load (path : Path) (env : option Env) (context : option Context)
    : result (option VFXDirsConfig) :=
  let config_path := path in
  if negb (path_exists config_path) then Ok None
  else cfg ← from_file config_path env context; Ok (Some cfg).

(** [VFXDirsConfig.load_default] *)
Definition load_default (ctx : Context) (env : option Env)
    : result (option VFXDirsConfig) :=
  load (default_config_path ctx) env (Some ctx).

End Loading.

(** ** Well-formed trees

    The classes are frozen and their [__post_init__] stores normalized keys,
    so every value of the classes satisfies the following. *)

Definition key_normalized (k : string) : Prop := normalize_key (KeyStr k) = k.

Definition app_id_normalized (app_id : string) : Prop :=
  _normalize_app_id app_id = Ok app_id.

Definition AppConfig_wf (a : AppConfig) : Prop :=
  map_Forall (fun k _ => key_normalized k) (paths a).

Definition VFXDirsConfig_wf (c : VFXDirsConfig) : Prop :=
  map_Forall (fun app_id a => app_id_normalized app_id ∧ AppConfig_wf a) (apps c).

(** Every match found in [s], at any position, names a variable that [env]
    does not hold. *)
Fixpoint refs_unset (env : Env) (s : string) : Prop :=
  (∀ var group0 rest, match_env_var s = Some (var, group0, rest) → env !! var = None)
  ∧ match s with
    | EmptyString => True
    | String _ r => refs_unset env r
    end.


(** The environment and the home directory of the examples of expansion. *)
Definition example_env : Env := {[ "FOO" := "/opt/foo" ]}.
Definition example_home : Path := Pathlib.of_str "/home/u".

(** [dataclasses.replace(ctx, cwd=cwd')] *)
Definition with_cwd (ctx : Context) (cwd' : Path) : Context :=
  mkContext (os ctx) (env ctx) (home ctx) cwd' (temp_dir ctx) (config_home ctx)
            (data_home ctx) (cache_home ctx) (install_roots ctx).

(** The names of the Program-Files variables. *)
Definition program_files_keys : list string :=
  ["ProgramFiles"; "ProgramW6432"; "ProgramFiles(x86)"].

(** A stand-in for [tomllib.loads] that reads two documents. *)
Definition example_loads (text : string) : result Value :=
  if String.eqb text "[apps.maya]"
  then Ok (VTable [("apps", VTable [("maya", VTable [])])])
  else if String.eqb text "apps = 1"
  then Ok (VTable [("apps", VInt 1)])
  else Raise (TOMLDecodeError "Invalid statement").

Definition example_host : Host :=
  mkHost "linux" ∅ (Pathlib.of_str "/home/u") (Pathlib.of_str "/work") "/tmp".

(** A file system with a valid file, a file that does not parse and a file
    that parses and does not validate. *)
Definition example_fs : FileSystem := fun p =>
  if decide (p = Pathlib.of_str "/etc/vfx/good.toml") then Some (Ok "[apps.maya]")
  else if decide (p = Pathlib.of_str "/etc/vfx/bad.toml") then Some (Ok "apps =")
  else if decide (p = Pathlib.of_str "/etc/vfx/shape.toml") then Some (Ok "apps = 1")
  else None.

(** Folding a list of sources onto [acc], lowest precedence first: what a
    caller does who layers several configuration files. *)
Fixpoint merge_all (acc : VFXDirsConfig) (sources : list VFXDirsConfig)
    : result VFXDirsConfig :=
  match sources with
  | [] => Ok acc
  | s :: rest => acc' ← VFXDirsConfig_merged acc (Some s); merge_all acc' rest
  end.

(** Two applications and three trees for the examples of merging. *)
Definition example_lower_app : AppConfig :=
  AppConfig_new (Some (Pathlib.of_str "/lo"))
    (mkInstallOverride (Some (Pathlib.of_str "/opt/maya")) None)
    {[ "cache" := Pathlib.of_str "/a" ]}.

Definition example_higher_app : AppConfig :=
  AppConfig_new None
    (mkInstallOverride None (Some (Pathlib.of_str "/opt/maya/bin/maya")))
    {[ "logs" := Pathlib.of_str "/b" ]}.

Definition example_A : VFXDirsConfig :=
  mkVFXDirsConfig {[ "maya" := example_lower_app ]}.

Definition example_B : VFXDirsConfig :=
  mkVFXDirsConfig {[ "maya" := example_higher_app ]}.

Definition example_C : VFXDirsConfig :=
  mkVFXDirsConfig {[ "nuke" := example_higher_app ]}.

(** ** Merging over the object store

    The functions above compute with values. To say that a merge leaves its
    arguments as they were, the same methods are embedded once more with the
    objects they create and update: every object has a location, a
    dictionary is updated in place, and a [MappingProxyType] is a view of
    the dictionary it was made from. Locations are handed out in order of
    creation. *)

Module Store.

Abbreviation loc := nat.

Inductive obj : Type :=
| PathDict (d : gmap string Path)
| AppDict (d : gmap string loc)
| MappingProxy (mapping : loc)
| InstallObj (root executable : option Path)
| AppObj (base : option Path) (install : loc) (paths : loc)
| ConfigObj (apps : loc).

Abbreviation heap := (list obj).

(** A computation reads and updates the store and returns or raises. *)
Definition M (A : Type) : Type := heap → result (A * heap).

Definition ret {A} (a : A) : M A := fun h => Ok (a, h).

Definition bind {A B} (m : M A) (k : A → M B) : M B := fun h =>
  match m h with
  | Ok (a, h') => k a h'
  | Raise e => Raise e
  end.

Definition raise {A} (e : exn) : M A := fun _ => Raise e.

Definition lift {A} (r : result A) : M A := fun h =>
  match r with
  | Ok a => Ok (a, h)
  | Raise e => Raise e
  end.

(** The creation of an object. *)
Definition alloc (o : obj) : M loc := fun h => Ok (length h, (h ++ [o])%list).

Definition read (l : loc) : M obj := fun h =>
  match h !! l with
  | Some o => Ok (o, h)
  | None => Raise (AttributeError "no such object")
  end.

(** An update in place of the object at [l]. *)
Definition write (l : loc) (o : obj) : M unit := fun h =>
  match h !! l with
  | Some _ => Ok (tt, <[l := o]> h)
  | None => Raise (AttributeError "no such object")
  end.

Notation "x <~ m ;; k" := (bind m (fun x => k))
  (at level 100, m at next level, right associativity, only parsing).

(** [for x in items: body(x)] *)
Fixpoint for_each {A} (items : list A) (body : A → M unit) : M unit :=
  match items with
  | [] => ret tt
  | x :: rest => _ <~ body x;; for_each rest body
  end.

(** The items of a mapping of paths, read directly or through a proxy. *)
Definition path_items (l : loc) : M (gmap string Path) :=
  o <~ read l;;
  match o with
  | PathDict d => ret d
  | MappingProxy t =>
      o' <~ read t;;
      match o' with
      | PathDict d => ret d
      | _ => raise (AttributeError "not a mapping of paths")
      end
  | _ => raise (AttributeError "not a mapping of paths")
  end.

(** The items of a mapping of applications. *)
Definition app_items (l : loc) : M (gmap string loc) :=
  o <~ read l;;
  match o with
  | AppDict d => ret d
  | MappingProxy t =>
      o' <~ read t;;
      match o' with
      | AppDict d => ret d
      | _ => raise (AttributeError "not a mapping of applications")
      end
  | _ => raise (AttributeError "not a mapping of applications")
  end.

(** [d[k] = v] on a dictionary of paths; a proxy does not support it. *)
Definition path_setitem (l : loc) (k : string) (v : Path) : M unit :=
  o <~ read l;;
  match o with
  | PathDict d => write l (PathDict (<[k := v]> d))
  | _ => raise (AttributeError "object does not support item assignment")
  end.

(** [d[k] = v] on a dictionary of applications. *)
Definition app_setitem (l : loc) (k : string) (v : loc) : M unit :=
  o <~ read l;;
  match o with
  | AppDict d => write l (AppDict (<[k := v]> d))
  | _ => raise (AttributeError "object does not support item assignment")
  end.

Definition read_install (l : loc) : M InstallOverride :=
  o <~ read l;;
  match o with
  | InstallObj r e => ret (mkInstallOverride r e)
  | _ => raise (AttributeError "not an InstallOverride")
  end.

(** [InstallOverride.merged] *)
Definition InstallOverride_merged (self higher : loc) : M loc :=
  s <~ read_install self;;
  h <~ read_install higher;;
  alloc (InstallObj (or_else (root h) (root s))
                    (or_else (executable h) (executable s))).

(** [AppConfig(base=..., install=..., paths=...)]: the generated
    [__init__] stores the arguments, then [__post_init__] fills a new
    dictionary from a copy of [self.paths] and stores a proxy of it in
    [self.paths]. *)
Definition AppConfig_new (base : option Path) (install paths : loc) : M loc :=
  self <~ alloc (AppObj base install paths);;
  normalized <~ alloc (PathDict ∅);;
  d <~ path_items paths;;
  _ <~ alloc (PathDict d);;
  _ <~ for_each (map_to_list d)
         (fun '(k, v) => path_setitem normalized (normalize_key (KeyStr k)) v);;
  proxy <~ alloc (MappingProxy normalized);;
  _ <~ write self (AppObj base install proxy);;
  ret self.

(** [AppConfig.merged] *)
Definition AppConfig_merged (self higher : loc) : M loc :=
  s <~ read self;;
  h <~ read higher;;
  match s, h with
  | AppObj s_base s_install s_paths, AppObj h_base h_install h_paths =>
      d <~ path_items s_paths;;
      merged_paths <~ alloc (PathDict d);;
      hd <~ path_items h_paths;;
      _ <~ for_each (map_to_list hd)
             (fun '(k, v) => path_setitem merged_paths k v);;
      install <~ InstallOverride_merged s_install h_install;;
      AppConfig_new (or_else h_base s_base) install merged_paths
  | _, _ => raise (AttributeError "not an AppConfig")
  end.

(** [VFXDirsConfig(apps=...)] *)
Definition VFXDirsConfig_new (apps : loc) : M loc :=
  self <~ alloc (ConfigObj apps);;
  normalized <~ alloc (AppDict ∅);;
  d <~ app_items apps;;
  _ <~ alloc (AppDict d);;
  _ <~ for_each (map_to_list d)
         (fun '(app_id, cfg) =>
            norm_id <~ lift (_normalize_app_id app_id);;
            app_setitem normalized norm_id cfg);;
  proxy <~ alloc (MappingProxy normalized);;
  _ <~ write self (ConfigObj proxy);;
  ret self.

(** The body of the loop of [VFXDirsConfig.merged]. *)
Definition merge_item (merged_apps : loc) (item : string * loc) : M unit :=
  let '(app_id, higher_app) := item in
  d <~ app_items merged_apps;;
  v <~ match d !! app_id with
       | None => ret higher_app
       | Some lower_app => AppConfig_merged lower_app higher_app
       end;;
  app_setitem merged_apps app_id v.

(** [VFXDirsConfig.merged] *)
Definition VFXDirsConfig_merged (self : loc) (higher : option loc) : M loc :=
  match higher with
  | None => ret self
  | Some higher =>
      s <~ read self;;
      h <~ read higher;;
      match s, h with
      | ConfigObj s_apps, ConfigObj h_apps =>
          d <~ app_items s_apps;;
          merged_apps <~ alloc (AppDict d);;
          hd <~ app_items h_apps;;
          _ <~ for_each (map_to_list hd) (merge_item merged_apps);;
          VFXDirsConfig_new merged_apps
      | _, _ => raise (AttributeError "not a VFXDirsConfig")
      end
  end.

(** The objects at the locations below [n] are the same in [h'] as in [h]. *)
Definition unchanged_below (n : nat) (h h' : heap) : Prop :=
  (n ≤ length h')%nat ∧ take n h' = take n h.

(** When [m] runs on a store that holds at least [n] objects and returns,
    it leaves the first [n] objects as they were and returns a value that
    satisfies [Q]. *)
Definition keeps {A} (n : nat) (m : M A) (Q : A → Prop) : Prop :=
  ∀ h a h', (n ≤ length h)%nat → m h = Ok (a, h') → unchanged_below n h h' ∧ Q a.

(** *** The tree that an object stands for *)

Definition abs_paths (h : heap) (l : loc) : option (gmap string Path) :=
  match h !! l with
  | Some (PathDict d) => Some d
  | Some (MappingProxy t) =>
      match h !! t with
      | Some (PathDict d) => Some d
      | _ => None
      end
  | _ => None
  end.

Definition abs_appdict (h : heap) (l : loc) : option (gmap string loc) :=
  match h !! l with
  | Some (AppDict d) => Some d
  | Some (MappingProxy t) =>
      match h !! t with
      | Some (AppDict d) => Some d
      | _ => None
      end
  | _ => None
  end.

Definition abs_install (h : heap) (l : loc) : option InstallOverride :=
  match h !! l with
  | Some (InstallObj r e) => Some (mkInstallOverride r e)
  | _ => None
  end.

Definition abs_app (h : heap) (l : loc) : option AppConfig :=
  match h !! l with
  | Some (AppObj b i p) =>
      match abs_install h i, abs_paths h p with
      | Some i', Some p' => Some (mkAppConfig b i' p')
      | _, _ => None
      end
  | _ => None
  end.

(** Every location of [d] stands for the application that [m] holds under
    the same identifier, and [m] holds nothing else. *)
Definition repr_apps (h : heap) (d : gmap string loc) (m : gmap string AppConfig)
    : Prop :=
  abs_app h <$> d = Some <$> m.

(** The object at [l] is a [VFXDirsConfig] that stands for the tree [c]. *)
Definition repr_config (h : heap) (l : loc) (c : VFXDirsConfig) : Prop :=
  ∃ a d, h !! l = Some (ConfigObj a)
         ∧ abs_appdict h a = Some d
         ∧ repr_apps h d (apps c).

Definition is_appdict (o : obj) : bool :=
  match o with AppDict _ => true | _ => false end.

(** [h'] holds every object of [h], the dictionaries of applications
    possibly with other items. *)
Definition extends (h h' : heap) : Prop :=
  ∀ l o, h !! l = Some o → is_appdict o = false → h' !! l = Some o.

(** The pure counterparts of the two loops that fill a dictionary. *)
Definition insert_items {V} (items : list (string * V)) (acc : gmap string V)
    : gmap string V :=
  fold_left (fun acc '(k, v) => <[k := v]> acc) items acc.

Definition insert_normalized (items : list (string * Path)) (acc : gmap string Path)
    : gmap string Path :=
  fold_left (fun acc '(k, v) => <[normalize_key (KeyStr k) := v]> acc) items acc.

Definition merge_items (items : list (string * AppConfig))
    (acc : gmap string AppConfig) : gmap string AppConfig :=
  fold_left (fun acc '(k, a) => merge_app k a acc) items acc.

End Store.

(** A store with two trees: at 6 a tree whose application [maya] has a base
    and a cache directory, at 12 a tree whose [maya] has a log directory. *)
Definition example_heap : Store.heap :=
  [ Store.InstallObj None None;
    Store.PathDict {[ "cache" := Pathlib.of_str "/a" ]};
    Store.MappingProxy 1;
    Store.AppObj (Some (Pathlib.of_str "/lo")) 0 2;
    Store.AppDict {[ "maya" := 3 ]};
    Store.MappingProxy 4;
    Store.ConfigObj 5;
    Store.PathDict {[ "logs" := Pathlib.of_str "/b" ]};
    Store.MappingProxy 7;
    Store.AppObj None 0 8;
    Store.AppDict {[ "maya" := 9 ]};
    Store.MappingProxy 10;
    Store.ConfigObj 11 ].

Definition example_heap_lower : VFXDirsConfig :=
  mkVFXDirsConfig
    {[ "maya" := mkAppConfig (Some (Pathlib.of_str "/lo"))
                   (mkInstallOverride None None)
                   {[ "cache" := Pathlib.of_str "/a" ]} ]}.

Definition example_heap_higher : VFXDirsConfig :=
  mkVFXDirsConfig
    {[ "maya" := mkAppConfig None (mkInstallOverride None None)
                   {[ "logs" := Pathlib.of_str "/b" ]} ]}.

(** ** Further notions used in the statements *)

(** [AppConfig()] and [InstallOverride()] *)
Definition InstallOverride_default : InstallOverride := mkInstallOverride None None.

Definition AppConfig_default : AppConfig :=
  AppConfig_new None InstallOverride_default ∅.

(** An optional path that, when present, is absolute. *)
Definition absolute_if_present (p : option Path) : Prop :=
  ∀ q, p = Some q → Pathlib.is_absolute q = true.

(** Every path that the application holds is absolute. *)
Definition AppConfig_absolute (a : AppConfig) : Prop :=
  absolute_if_present (base a)
  ∧ absolute_if_present (root (install a))
  ∧ absolute_if_present (executable (install a))
  ∧ map_Forall (fun _ p => Pathlib.is_absolute p = true) (paths a).

Definition VFXDirsConfig_absolute (c : VFXDirsConfig) : Prop :=
  map_Forall (fun _ a => AppConfig_absolute a) (apps c).

(** The message of the error that [_normalize_app_id] raises. *)
Definition empty_app_id : exn := VFXDirsConfigError "app_id cannot be empty".

(** [r] raises nothing but a [VFXDirsConfigError]. *)
Definition raises_config_error_only {A} (r : result A) : Prop :=
  ∀ e, r = Raise e → ∃ msg, e = VFXDirsConfigError msg.

(** The environment that [from_mapping] expands with. *)
Definition env_of (env : option Env) (ctx : Context) : Env :=
  match env with None => Context_env ctx | Some e => e end.

(** A context and a document for the examples of parsing. *)
Definition example_ctx : Context :=
  mkContext linux example_env example_home (Pathlib.of_str "/work")
    (Pathlib.of_str "/tmp") (example_home /: ".config")
    (example_home /: ".local" /: "share") (example_home /: ".cache")
    [Pathlib.of_str "/opt"; Pathlib.of_str "/usr/local"; Pathlib.of_str "/usr"].

Definition example_data : Value :=
  VTable [("apps",
           VTable [(" Maya",
                    VTable [("base", VStr "~/maya");
                            ("paths", VTable [("Cache", VStr "cache");
                                              ("logs", VStr "$FOO/logs")])])])].

(** A character other than the dollar sign. *)
Definition not_dollar (c : ascii) : bool := negb (Ascii.eqb c "$").

(** [sys.platform] is one that [_detect_os_name] knows. *)
Definition known_platform (p : string) : bool :=
  Str.startswith "win" p || String.eqb p "darwin" || Str.startswith "linux" p.

(** The environment that [Context.from_env] reads. *)
Definition env_map_of (host : Host) (env : option Env) : Env :=
  match env with None => os_environ host | Some e => e end.
(** * Properties *)

(** ** Strings *)

Section StrFacts.
Import Str.

Lemma isspace_lower_char c : isspace (lower_char c) = isspace c.
Proof. destruct c as [[] [] [] [] [] [] [] []]; reflexivity. Qed.

Lemma lower_char_idem c : lower_char (lower_char c) = lower_char c.
Proof. destruct c as [[] [] [] [] [] [] [] []]; reflexivity. Qed.

Lemma lower_idem s : lower (lower s) = lower s.
Proof. induction s as [|c s IH]; simpl; [done|]. by rewrite lower_char_idem, IH. Qed.

Lemma is_empty_lower s : is_empty (lower s) = is_empty s.
Proof. by destruct s. Qed.

Lemma is_empty_true s : is_empty s = true ↔ s = "".
Proof. destruct s; simpl; split; congruence. Qed.

Lemma lstrip_lower s : lstrip (lower s) = lower (lstrip s).
Proof.
  induction s as [|c s IH]; simpl; [done|].
  rewrite isspace_lower_char. by destruct (isspace c).
Qed.

Lemma rstrip_lower s : rstrip (lower s) = lower (rstrip s).
Proof.
  induction s as [|c s IH]; simpl; [done|].
  rewrite isspace_lower_char, IH, is_empty_lower.
  by destruct (isspace c && is_empty (rstrip s)).
Qed.

Lemma strip_lower s : strip (lower s) = lower (strip s).
Proof. unfold strip. by rewrite lstrip_lower, rstrip_lower. Qed.

Lemma no_lead_lstrip s : no_lead (lstrip s) = true.
Proof.
  induction s as [|c s IH]; simpl; [done|].
  destruct (isspace c) eqn:E; [done|]. simpl. by rewrite E.
Qed.

Lemma lstrip_no_lead s : no_lead s = true → lstrip s = s.
Proof. destruct s as [|c s]; simpl; [done|]. by destruct (isspace c). Qed.

Lemma no_lead_rstrip s : no_lead s = true → no_lead (rstrip s) = true.
Proof.
  destruct s as [|c s]; simpl; [done|].
  destruct (isspace c) eqn:E; simpl; intros H; [discriminate|].
  by rewrite E.
Qed.

Lemma rstrip_idem s : rstrip (rstrip s) = rstrip s.
Proof.
  induction s as [|c s IH]; simpl; [done|].
  destruct (isspace c && is_empty (rstrip s)) eqn:E; [done|].
  simpl. by rewrite IH, E.
Qed.

Lemma strip_idem s : strip (strip s) = strip s.
Proof.
  unfold strip.
  rewrite (lstrip_no_lead (rstrip (lstrip s))).
  - apply rstrip_idem.
  - apply no_lead_rstrip, no_lead_lstrip.
Qed.

Lemma lstrip_app_space w s : all_space w = true → lstrip (w ++ s) = lstrip s.
Proof.
  unfold all_space. induction w as [|c w IH]; simpl; [done|].
  destruct (isspace c); [done|]. simpl. discriminate.
Qed.

Lemma rstrip_all_space w : all_space w = true → rstrip w = "".
Proof.
  unfold all_space. induction w as [|c w IH]; simpl; [done|].
  destruct (isspace c) eqn:E; simpl; [|discriminate].
  intros H. by rewrite (IH H).
Qed.

Lemma rstrip_app_space s w : all_space w = true → rstrip (s ++ w) = rstrip s.
Proof.
  intros Hw. induction s as [|c s IH]; simpl.
  - by apply rstrip_all_space.
  - by rewrite IH.
Qed.

Lemma lstrip_app_no_space s w :
  is_empty (lstrip s) = false → lstrip (s ++ w) = lstrip s ++ w.
Proof.
  induction s as [|c s IH]; simpl; [done|].
  destruct (isspace c); [done|]. done.
Qed.

Lemma all_space_app s w :
  all_space s = true → all_space w = true → all_space (s ++ w) = true.
Proof.
  unfold all_space. intros Hs Hw.
  induction s as [|c s IH]; simpl in *; [done|].
  destruct (isspace c); [by apply IH|discriminate].
Qed.

Lemma strip_pad w1 s w2 :
  all_space w1 = true → all_space w2 = true → strip (w1 ++ s ++ w2) = strip s.
Proof.
  intros H1 H2. unfold strip. rewrite lstrip_app_space by done.
  destruct (is_empty (lstrip s)) eqn:E.
  - pose proof (all_space_app s w2 E H2) as Ha.
    unfold all_space in Ha. apply is_empty_true in Ha, E. by rewrite Ha, E.
  - rewrite lstrip_app_no_space by done. by apply rstrip_app_space.
Qed.

End StrFacts.

Lemma normalize_key_idem (k : KeyLike) :
  normalize_key (KeyStr (normalize_key k)) = normalize_key k.
Proof.
  unfold normalize_key. simpl.
  by rewrite strip_lower, strip_idem, lower_idem.
Qed.

Lemma bind_Ok {A B} (a : A) (k : A → result B) : (x ← Ok a; k x) = k a.
Proof. reflexivity. Qed.

Lemma bind_Raise {A B} (e : exn) (k : A → result B) :
  (x ← Raise e; k x) = Raise e.
Proof. reflexivity. Qed.

(** ** Re-normalizing a normalized mapping *)

Lemma AppConfig_normalized_id (m : gmap string Path) :
  map_Forall (fun k _ => key_normalized k) m → AppConfig_normalized m = m.
Proof.
  unfold AppConfig_normalized.
  apply (map_fold_weak_ind
           (fun r m => map_Forall (fun k _ => key_normalized k) m → r = m)).
  - done.
  - intros k v m0 r Hk IH Hall.
    apply map_Forall_insert in Hall as [Hn Hall]; [|done].
    unfold key_normalized in Hn. rewrite Hn. f_equal. by apply IH.
Qed.

Lemma AppConfig_normalized_wf (m : gmap string Path) :
  map_Forall (fun k _ => key_normalized k) (AppConfig_normalized m).
Proof.
  unfold AppConfig_normalized.
  apply (map_fold_weak_ind
           (fun r _ => map_Forall (fun k (_ : Path) => key_normalized k) r)).
  - apply map_Forall_empty.
  - intros k v m0 r _ IH. apply map_Forall_insert_2; [|done].
    apply normalize_key_idem.
Qed.

(** Every [AppConfig] that the constructor returns is well formed. *)
Lemma AppConfig_new_wf b i p : AppConfig_wf (AppConfig_new b i p).
Proof. apply AppConfig_normalized_wf. Qed.

Lemma VFXDirsConfig_normalized_id (m : gmap string AppConfig) :
  map_Forall (fun k _ => app_id_normalized k) m →
  VFXDirsConfig_normalized m = Ok m.
Proof.
  unfold VFXDirsConfig_normalized.
  apply (map_fold_weak_ind
           (fun r m => map_Forall (fun k _ => app_id_normalized k) m → r = Ok m)).
  - done.
  - intros k v m0 r Hk IH Hall.
    apply map_Forall_insert in Hall as [Hn Hall]; [|done].
    rewrite (IH Hall). unfold app_id_normalized in Hn. simpl.
    unfold mbind, result_bind. by rewrite Hn.
Qed.

Lemma VFXDirsConfig_wf_ids c :
  VFXDirsConfig_wf c → map_Forall (fun k _ => app_id_normalized k) (apps c).
Proof. intros H k a Hk. by destruct (H k a Hk). Qed.

Lemma VFXDirsConfig_new_wf (m : gmap string AppConfig) :
  VFXDirsConfig_wf (mkVFXDirsConfig m) → VFXDirsConfig_new m = Ok (mkVFXDirsConfig m).
Proof.
  intros H. unfold VFXDirsConfig_new.
  by rewrite (VFXDirsConfig_normalized_id m (VFXDirsConfig_wf_ids _ H)).
Qed.

(** ** The merge of two applications *)

Lemma or_else_assoc {A} (a b c : option A) :
  or_else c (or_else b a) = or_else (or_else c b) a.
Proof. by destruct c, b. Qed.

Lemma InstallOverride_merged_assoc a b c :
  InstallOverride_merged (InstallOverride_merged a b) c
  = InstallOverride_merged a (InstallOverride_merged b c).
Proof. unfold InstallOverride_merged. simpl. by rewrite !or_else_assoc. Qed.

Lemma union_normalized (m1 m2 : gmap string Path) :
  map_Forall (fun k _ => key_normalized k) m1 →
  map_Forall (fun k _ => key_normalized k) m2 →
  map_Forall (fun k _ => key_normalized k) (m1 ∪ m2).
Proof.
  intros H1 H2 k v Hk. apply lookup_union_Some_raw in Hk as [Hk|[_ Hk]].
  - by apply (H1 k v).
  - by apply (H2 k v).
Qed.

Lemma AppConfig_merged_eq (lower higher : AppConfig) :
  AppConfig_wf lower → AppConfig_wf higher →
  AppConfig_merged lower higher
  = mkAppConfig (or_else (base higher) (base lower))
                (InstallOverride_merged (install lower) (install higher))
                (paths higher ∪ paths lower).
Proof.
  intros Hl Hh. unfold AppConfig_merged, AppConfig_new. f_equal.
  apply AppConfig_normalized_id. by apply union_normalized.
Qed.

Lemma AppConfig_merged_wf lower higher : AppConfig_wf (AppConfig_merged lower higher).
Proof. apply AppConfig_new_wf. Qed.

Lemma AppConfig_merged_assoc a b c :
  AppConfig_wf a → AppConfig_wf b → AppConfig_wf c →
  AppConfig_merged (AppConfig_merged a b) c
  = AppConfig_merged a (AppConfig_merged b c).
Proof.
  intros Ha Hb Hc.
  rewrite (AppConfig_merged_eq (AppConfig_merged a b) c)
    by auto using AppConfig_merged_wf.
  rewrite (AppConfig_merged_eq a (AppConfig_merged b c))
    by auto using AppConfig_merged_wf.
  rewrite !AppConfig_merged_eq by done. simpl.
  by rewrite or_else_assoc, InstallOverride_merged_assoc, (assoc_L (∪)).
Qed.

(** C1. In the merge of two applications the base is the higher one's when
    it has one and the lower one's otherwise; so are, each on its own, the
    root and the executable of the install override; the keys of the paths
    are those of either side, a key of the higher side carries the higher
    side's path, and a key of the lower side alone keeps its path. *)
Theorem AppConfig_merged_fields (lower higher : AppConfig) :
  AppConfig_wf lower → AppConfig_wf higher →
  let m := AppConfig_merged lower higher in
  base m = match base higher with Some b => Some b | None => base lower end
  ∧ root (install m)
    = match root (install higher) with
      | Some r => Some r
      | None => root (install lower)
      end
  ∧ executable (install m)
    = match executable (install higher) with
      | Some e => Some e
      | None => executable (install lower)
      end
  ∧ dom (paths m) = dom (paths lower) ∪ dom (paths higher)
  ∧ (∀ k v, paths higher !! k = Some v → paths m !! k = Some v)
  ∧ (∀ k, paths higher !! k = None → paths m !! k = paths lower !! k).
Proof.
  intros Hl Hh m. subst m. rewrite AppConfig_merged_eq by done. simpl.
  repeat split; try done.
  - rewrite dom_union_L. apply (comm_L (∪)).
  - intros k v Hk. by apply lookup_union_Some_l.
  - intros k Hk. by apply lookup_union_r.
Qed.

(** ** The merge of two trees *)

Lemma merge_apps_lookup (lo hi : gmap string AppConfig) k :
  map_fold merge_app lo hi !! k = merge_entry (lo !! k) (hi !! k).
Proof.
  revert k.
  apply (map_fold_weak_ind
           (fun r m => ∀ k, r !! k = merge_entry (lo !! k) (m !! k))).
  - intros k. by rewrite lookup_empty.
  - intros i x m r Hi IH k. unfold merge_app.
    destruct (decide (i = k)) as [->|Hne].
    + rewrite !lookup_insert_eq, IH, Hi. done.
    + rewrite !lookup_insert_ne by done. apply IH.
Qed.

Lemma merge_entry_assoc (a b c : option AppConfig) :
  (∀ x, a = Some x → AppConfig_wf x) →
  (∀ x, b = Some x → AppConfig_wf x) →
  (∀ x, c = Some x → AppConfig_wf x) →
  merge_entry (merge_entry a b) c = merge_entry a (merge_entry b c).
Proof.
  intros Ha Hb Hc. destruct a as [a|], b as [b|], c as [c|]; simpl; try done.
  f_equal. apply AppConfig_merged_assoc; auto.
Qed.

Lemma merge_apps_wf (lo hi : VFXDirsConfig) :
  VFXDirsConfig_wf lo → VFXDirsConfig_wf hi →
  VFXDirsConfig_wf (mkVFXDirsConfig (map_fold merge_app (apps lo) (apps hi))).
Proof.
  intros Hlo Hhi k a. simpl. rewrite merge_apps_lookup.
  destruct (apps hi !! k) as [h|] eqn:Eh; simpl.
  - destruct (Hhi k h Eh) as [Hk Hh].
    destruct (apps lo !! k) as [l|] eqn:El; intros [= <-]; split; try done.
    apply AppConfig_merged_wf.
  - intros Hl. by apply (Hlo k a).
Qed.

Lemma VFXDirsConfig_merged_eq (lo hi : VFXDirsConfig) :
  VFXDirsConfig_wf lo → VFXDirsConfig_wf hi →
  VFXDirsConfig_merged lo (Some hi)
  = Ok (mkVFXDirsConfig (map_fold merge_app (apps lo) (apps hi))).
Proof.
  intros Hlo Hhi. unfold VFXDirsConfig_merged.
  apply VFXDirsConfig_new_wf. by apply merge_apps_wf.
Qed.

Lemma VFXDirsConfig_new_empty : VFXDirsConfig_new ∅ = Ok VFXDirsConfig_empty.
Proof.
  unfold VFXDirsConfig_new, VFXDirsConfig_normalized.
  by rewrite map_fold_empty.
Qed.

Lemma merged_assoc_wf (A B C : VFXDirsConfig) :
  VFXDirsConfig_wf A → VFXDirsConfig_wf B → VFXDirsConfig_wf C →
  (AB ← VFXDirsConfig_merged A (Some B); VFXDirsConfig_merged AB (Some C))
  = (BC ← VFXDirsConfig_merged B (Some C); VFXDirsConfig_merged A (Some BC)).
Proof.
  intros HA HB HC.
  rewrite (VFXDirsConfig_merged_eq A B), (VFXDirsConfig_merged_eq B C) by done.
  rewrite !bind_Ok.
  rewrite !VFXDirsConfig_merged_eq by auto using merge_apps_wf.
  do 2 f_equal. simpl. apply map_eq. intros k.
  rewrite !merge_apps_lookup. apply merge_entry_assoc.
  - intros x Hx. by destruct (HA k x Hx).
  - intros x Hx. by destruct (HB k x Hx).
  - intros x Hx. by destruct (HC k x Hx).
Qed.

Lemma merged_empty_r (T : VFXDirsConfig) :
  VFXDirsConfig_wf T → VFXDirsConfig_merged T (Some VFXDirsConfig_empty) = Ok T.
Proof.
  intros HT. destruct T as [m]. unfold VFXDirsConfig_merged. simpl.
  rewrite map_fold_empty. by apply VFXDirsConfig_new_wf.
Qed.

Lemma merged_empty_l (T : VFXDirsConfig) :
  VFXDirsConfig_wf T → VFXDirsConfig_merged VFXDirsConfig_empty (Some T) = Ok T.
Proof.
  intros HT. destruct T as [m].
  rewrite VFXDirsConfig_merged_eq; [|apply map_Forall_empty|done].
  do 2 f_equal. apply map_eq. intros k. rewrite merge_apps_lookup. simpl.
  rewrite lookup_empty. by destruct (m !! k).
Qed.

(** C2. Merging a tree with the empty tree, on either side, returns a tree
    equal to it, and so does merging it with no tree at all. *)
Theorem VFXDirsConfig_merged_identity (T : VFXDirsConfig) :
  VFXDirsConfig_wf T →
  VFXDirsConfig_merged T (Some VFXDirsConfig_empty) = Ok T
  ∧ VFXDirsConfig_merged VFXDirsConfig_empty (Some T) = Ok T
  ∧ VFXDirsConfig_merged T None = Ok T
  ∧ VFXDirsConfig_new ∅ = Ok VFXDirsConfig_empty.
Proof.
  intros HT. split; [by apply merged_empty_r|].
  split; [by apply merged_empty_l|]. split; [done|].
  apply VFXDirsConfig_new_empty.
Qed.

(** A fold over well-formed sources returns a well-formed tree. *)
Lemma merge_all_wf (sources : list VFXDirsConfig) : ∀ acc,
  VFXDirsConfig_wf acc → Forall VFXDirsConfig_wf sources →
  ∃ T, merge_all acc sources = Ok T ∧ VFXDirsConfig_wf T.
Proof.
  induction sources as [|s rest IH]; intros acc Hacc Hall.
  - by exists acc.
  - apply Forall_cons in Hall as [Hs Hrest]. cbn [merge_all].
    rewrite VFXDirsConfig_merged_eq, bind_Ok by done.
    apply IH; [by apply merge_apps_wf|done].
Qed.

Lemma merge_all_app (l1 l2 : list VFXDirsConfig) : ∀ acc,
  merge_all acc (l1 ++ l2)%list = (a ← merge_all acc l1; merge_all a l2).
Proof.
  induction l1 as [|s rest IH]; intros acc; [done|].
  cbn [merge_all app]. destruct (VFXDirsConfig_merged acc (Some s)); [|done].
  rewrite !bind_Ok. apply IH.
Qed.

(** Folding onto [acc] is merging [acc] with the fold of the sources alone. *)
Lemma merge_all_grouped (sources : list VFXDirsConfig) : ∀ acc,
  VFXDirsConfig_wf acc → Forall VFXDirsConfig_wf sources →
  merge_all acc sources
  = (m ← merge_all VFXDirsConfig_empty sources; VFXDirsConfig_merged acc (Some m)).
Proof.
  induction sources as [|s rest IH]; intros acc Hacc Hall.
  - cbn [merge_all]. rewrite bind_Ok. symmetry. by apply merged_empty_r.
  - apply Forall_cons in Hall as [Hs Hrest]. cbn [merge_all].
    rewrite (merged_empty_l s Hs), bind_Ok.
    pose proof (VFXDirsConfig_merged_eq acc s Hacc Hs) as HAS.
    pose proof (merge_apps_wf acc s Hacc Hs) as HASwf.
    pose proof (merged_assoc_wf acc s) as Hassoc.
    rewrite HAS in Hassoc |- *. rewrite bind_Ok.
    rewrite (IH _ HASwf Hrest), (IH s Hs Hrest).
    destruct (merge_all_wf rest VFXDirsConfig_empty) as (m & Hm & Hmwf);
      [apply map_Forall_empty|done|].
    rewrite Hm, !bind_Ok.
    specialize (Hassoc m Hacc Hs Hmwf). by rewrite bind_Ok in Hassoc.
Qed.

(** C3. Merging is associative on trees: merging [A] with [B] and the result
    with [C] returns what merging [A] with the merge of [B] and [C] returns,
    and it returns a tree. Hence a fold of sources in ascending precedence
    can be cut anywhere: folding [l1] then [l2] onto [A] is merging the fold
    of [l1] onto [A] with the fold of [l2] alone. *)
Theorem VFXDirsConfig_merged_assoc (A B C : VFXDirsConfig)
    (l1 l2 : list VFXDirsConfig) :
  VFXDirsConfig_wf A → VFXDirsConfig_wf B → VFXDirsConfig_wf C →
  Forall VFXDirsConfig_wf l1 → Forall VFXDirsConfig_wf l2 →
  (AB ← VFXDirsConfig_merged A (Some B); VFXDirsConfig_merged AB (Some C))
  = (BC ← VFXDirsConfig_merged B (Some C); VFXDirsConfig_merged A (Some BC))
  ∧ is_ok (AB ← VFXDirsConfig_merged A (Some B);
           VFXDirsConfig_merged AB (Some C)) = true
  ∧ merge_all A (l1 ++ l2)%list
    = (a ← merge_all A l1;
       m ← merge_all VFXDirsConfig_empty l2;
       VFXDirsConfig_merged a (Some m))
  ∧ is_ok (merge_all A (l1 ++ l2)%list) = true.
Proof.
  intros HA HB HC H1 H2. split; [by apply merged_assoc_wf|]. split.
  { rewrite (VFXDirsConfig_merged_eq A B), bind_Ok by done.
    by rewrite VFXDirsConfig_merged_eq by auto using merge_apps_wf. }
  split.
  - rewrite merge_all_app.
    destruct (merge_all_wf l1 A HA H1) as (a & Ha & Hawf).
    rewrite Ha, !bind_Ok. by apply merge_all_grouped.
  - destruct (merge_all_wf (l1 ++ l2) A HA) as (T & HT & _).
    + by apply Forall_app.
    + by rewrite HT.
Qed.

(** ** Normalization of keys and identifiers *)

Lemma normalize_key_case (a b : string) :
  Str.lower a = Str.lower b → normalize_key (KeyStr a) = normalize_key (KeyStr b).
Proof.
  intros H. unfold normalize_key. simpl.
  by rewrite <- !strip_lower, H.
Qed.

Lemma _normalize_app_id_idem s r :
  _normalize_app_id s = Ok r → _normalize_app_id r = Ok r.
Proof.
  unfold _normalize_app_id.
  destruct (Str.is_empty (Str.lower (Str.strip s))) eqn:E; [done|].
  intros [= <-].
  by rewrite strip_lower, strip_idem, lower_idem, E.
Qed.

(** ** Environment-variable expansion *)

Lemma append_nil (b : string) : "" ++ b = b.
Proof. reflexivity. Qed.

Lemma append_cons c (a b : string) : String c a ++ b = String c (a ++ b).
Proof. reflexivity. Qed.

Lemma length_cons c (a : string) : String.length (String c a) = S (String.length a).
Proof. reflexivity. Qed.

Ltac sapp :=
  repeat (rewrite append_nil || rewrite append_cons || rewrite length_cons).

Lemma span_app p s a b : Str.span p s = (a, b) → s = a ++ b.
Proof.
  revert a b. induction s as [|c s IH]; simpl; intros a b.
  - by intros [= <- <-].
  - destruct (p c).
    + destruct (Str.span p s) as [a' b'] eqn:E. intros [= <- <-].
      sapp. f_equal. by apply IH.
    + by intros [= <- <-].
Qed.

Lemma String_app_assoc (a b c : string) : (a ++ b) ++ c = a ++ (b ++ c).
Proof. induction a as [|x a IH]; sapp; [done|]. by rewrite IH. Qed.

Lemma String_length_app (a b : string) :
  String.length (a ++ b) = String.length a + String.length b.
Proof. induction a as [|x a IH]; sapp; [done|]. by rewrite IH. Qed.

(** A match is a non-empty prefix of the string it is found in. *)
Lemma match_env_var_split s var group0 rest :
  match_env_var s = Some (var, group0, rest) →
  s = group0 ++ rest ∧ String.length rest < String.length s ∧ var ≠ "".
Proof.
  unfold match_env_var.
  destruct s as [|c r]; [done|].
  destruct (decide (c = "$"%char)) as [->|Hc].
  2:{ destruct c as [[] [] [] [] [] [] [] []]; try done. }
  destruct (Str.span Str.isword r) as [w after_w] eqn:Ew.
  destruct (Str.is_empty w) eqn:Hw; simpl.
  - destruct r as [|c2 r2]; [done|].
    destruct (decide (c2 = "{"%char)) as [->|Hc2].
    2:{ destruct c2 as [[] [] [] [] [] [] [] []]; try done. }
    destruct (Str.span (fun c => negb (Ascii.eqb c "}")) r2) as [n after_n] eqn:En.
    destruct after_n as [|c3 r3]; [done|].
    destruct (decide (c3 = "}"%char)) as [->|Hc3].
    2:{ destruct c3 as [[] [] [] [] [] [] [] []]; try done. }
    destruct (Str.is_empty n) eqn:Hn; simpl; [done|].
    intros [= <- <- <-]. apply span_app in En. subst r2.
    split; [|split].
    + sapp. rewrite (String_app_assoc n). by sapp.
    + sapp. rewrite String_length_app. sapp. lia.
    + intros ->. done.
  - intros [= <- <- <-]. apply span_app in Ew. subst r.
    split; [|split].
    + by sapp.
    + sapp. rewrite String_length_app. destruct w; [done|]. sapp. lia.
    + intros ->. done.
Qed.

Lemma sub_env_vars_fuel env fuel1 : ∀ fuel2 s,
  (String.length s ≤ fuel1)%nat → (String.length s ≤ fuel2)%nat →
  sub_env_vars fuel1 env s = sub_env_vars fuel2 env s.
Proof.
  induction fuel1 as [|f1 IH]; intros fuel2 s H1 H2.
  - destruct s; [|simpl in H1; lia]. by destruct fuel2.
  - destruct s as [|c r]; [by destruct fuel2|].
    destruct fuel2 as [|f2]; [simpl in H2; lia|].
    simpl in H1, H2. cbn [sub_env_vars].
    destruct (match_env_var (String c r)) as [[[var g] rest]|] eqn:E.
    + apply match_env_var_split in E as (_ & Hlen & _). simpl in Hlen.
      f_equal. apply IH; lia.
    + f_equal. apply IH; lia.
Qed.

(** The equations of [re.sub] with [repl]. *)
Lemma _expand_env_vars_nil env : _expand_env_vars "" env = "".
Proof. reflexivity. Qed.

Lemma _expand_env_vars_match env s var group0 rest :
  match_env_var s = Some (var, group0, rest) →
  _expand_env_vars s env = repl env var group0 ++ _expand_env_vars rest env.
Proof.
  intros E. unfold _expand_env_vars.
  pose proof (match_env_var_split _ _ _ _ E) as (_ & Hlen & _).
  destruct s as [|c r]; [done|]. cbn [String.length sub_env_vars].
  rewrite E. f_equal. simpl in Hlen. apply sub_env_vars_fuel; lia.
Qed.

Lemma _expand_env_vars_skip env c r :
  match_env_var (String c r) = None →
  _expand_env_vars (String c r) env = String c (_expand_env_vars r env).
Proof.
  intros E. unfold _expand_env_vars. cbn [String.length sub_env_vars].
  by rewrite E.
Qed.

(** A reference to a variable that the mapping does not hold stays as it is
    written. *)
Lemma repl_unset env var group0 : env !! var = None → repl env var group0 = group0.
Proof. intros H. unfold repl. rewrite H. by destruct (Str.is_empty var). Qed.

Lemma repl_set env var group0 v :
  var ≠ "" → env !! var = Some v → repl env var group0 = v.
Proof. intros Hv H. unfold repl. rewrite H. by destruct var. Qed.

Lemma refs_unset_suffix env a b : refs_unset env (a ++ b) → refs_unset env b.
Proof.
  induction a as [|c a IH]; sapp; [done|]. intros [_ H]. by apply IH.
Qed.

Lemma sub_env_vars_unset env fuel : ∀ s,
  refs_unset env s → sub_env_vars fuel env s = s.
Proof.
  induction fuel as [|f IH]; intros s Hs; [done|].
  destruct s as [|c r]; [done|]. cbn [sub_env_vars].
  destruct (match_env_var (String c r)) as [[[var g] rest]|] eqn:E.
  - pose proof (match_env_var_split _ _ _ _ E) as (Hsplit & _ & _).
    destruct Hs as [Hhere Hr]. rewrite (repl_unset env var g (Hhere _ _ _ E)).
    rewrite IH; [by rewrite Hsplit|].
    apply (refs_unset_suffix env g). rewrite <- Hsplit. by split.
  - f_equal. apply IH. by destruct Hs.
Qed.

Lemma span_all p a b :
  Str.all p a = true → Str.head_is p b = false → Str.span p (a ++ b) = (a, b).
Proof.
  intros Ha Hb. induction a as [|c a IH]; sapp.
  - destruct b as [|c b]; [done|]. simpl in *. by rewrite Hb.
  - simpl in *. apply andb_prop in Ha as [Hc Ha]. by rewrite Hc, IH.
Qed.

(** The first alternative of the pattern: a dollar and a run of word
    characters. *)
Lemma match_env_var_dollar name rest :
  name ≠ "" → Str.all Str.isword name = true →
  Str.head_is Str.isword rest = false →
  match_env_var ("$" ++ name ++ rest) = Some (name, "$" ++ name, rest).
Proof.
  intros Hn Ha Hr. sapp. unfold match_env_var.
  rewrite (span_all _ _ _ Ha Hr). by destruct name.
Qed.

(** The second alternative: a dollar and a name between braces. *)
Lemma match_env_var_brace name rest :
  name ≠ "" → Str.all (fun c => negb (Ascii.eqb c "}")) name = true →
  match_env_var ("${" ++ name ++ "}" ++ rest)
  = Some (name, "${" ++ name ++ "}", rest).
Proof.
  intros Hn Ha. sapp. unfold match_env_var.
  change (Str.span Str.isword (String "{" (name ++ String "}" rest)))
    with ("", String "{" (name ++ String "}" rest)).
  cbn [Str.is_empty negb].
  rewrite (span_all _ name (String "}" rest) Ha) by done.
  by destruct name.
Qed.

Lemma _expand_env_vars_unset env s : refs_unset env s → _expand_env_vars s env = s.
Proof. apply sub_env_vars_unset. Qed.

Lemma from_mapping_cwd host data base_dir env ctx cwd' :
  from_mapping host data base_dir env (Some ctx)
  = from_mapping (mkHost (sys_platform host) (os_environ host) (path_home host)
                         cwd' (gettempdir host))
                 data base_dir env (Some (with_cwd ctx cwd')).
Proof. by destruct ctx, data. Qed.

(** A string that does not begin with a dollar sign begins no reference. *)
Lemma match_env_var_other s :
  Str.head_is (Ascii.eqb "$") s = false → match_env_var s = None.
Proof.
  destruct s as [|c r]; [done|]. simpl. intros H.
  destruct c as [[] [] [] [] [] [] [] []]; try done.
Qed.

(** The scan goes over the characters before the first dollar sign and
    continues after them. *)
Lemma _expand_env_vars_prefix (env : Env) (pre s : string) :
  Str.all not_dollar pre = true →
  _expand_env_vars (pre ++ s) env = pre ++ _expand_env_vars s env.
Proof.
  induction pre as [|c pre IH]; intros H; sapp; [done|].
  cbn [Str.all] in H. apply andb_prop in H as [Hc Hpre].
  rewrite _expand_env_vars_skip.
  - by rewrite IH.
  - apply match_env_var_other. change (Ascii.eqb "$" c = false).
    unfold not_dollar in Hc. rewrite Ascii.eqb_sym. by destruct (Ascii.eqb c "$").
Qed.

Lemma repl_default (env : Env) var group0 :
  var ≠ "" → repl env var group0 = default group0 (env !! var).
Proof. intros H. unfold repl. by destruct var. Qed.

(** C4. Every raw path string that is not blank is parsed by trimming it,
    expanding a leading tilde, then expanding the references to environment
    variables, and finally joining a result that is not absolute under
    [base_dir]. A lone tilde and a tilde before a slash or a backslash become
    the home directory; [$NAME] and [${NAME}] become the value the mapping
    holds and stay as written when it holds none; a relative result lies
    under [base_dir], whatever the working directory is. With [FOO] set to
    [/opt/foo] and the home [/home/u], [~/bar] gives [/home/u/bar], [$FOO/x]
    and [${FOO}/x] give [/opt/foo/x], and [$MISSING] stays [$MISSING].
    The references are expanded wherever they stand in the string: the scan
    copies a character that begins no reference and goes on after it,
    replaces a reference by its value, or leaves it as written when the
    variable is unset, and goes on after the reference. *)
Theorem _parse_path_expansion (env : Env) (home base_dir : Path) (where_ raw : string) :
  Str.strip raw ≠ "" →
  let expanded := _expand_env_vars (_expand_user (Str.strip raw) home) env in
  let p := Pathlib.of_str expanded in
  _parse_path (VStr raw) env home base_dir where_
  = Ok (if Pathlib.is_absolute p then p else base_dir // p)
  ∧ (_expand_user "~" home = Pathlib.to_str home
     ∧ (∀ r, _expand_user ("~/" ++ r) home = Pathlib.to_str home ++ "/" ++ r)
     ∧ (∀ r, _expand_user ("~\" ++ r) home = Pathlib.to_str home ++ "\" ++ r)
     ∧ (∀ s, Str.head_is (Ascii.eqb "~") s = false → _expand_user s home = s))
  ∧ (∀ name rest v,
       name ≠ "" → Str.all Str.isword name = true →
       Str.head_is Str.isword rest = false → env !! name = Some v →
       _expand_env_vars ("$" ++ name ++ rest) env = v ++ _expand_env_vars rest env)
  ∧ (∀ name rest v,
       name ≠ "" → Str.all (fun c => negb (Ascii.eqb c "}")) name = true →
       env !! name = Some v →
       _expand_env_vars ("${" ++ name ++ "}" ++ rest) env
       = v ++ _expand_env_vars rest env)
  ∧ (∀ s, refs_unset env s → _expand_env_vars s env = s)
  ∧ (∀ q, Pathlib.is_absolute q = false →
       path_root (base_dir // q) = path_root base_dir
       ∧ path_parts (base_dir // q) = (path_parts base_dir ++ path_parts q)%list)
  ∧ (∀ host data e ctx cwd',
       from_mapping host data base_dir e (Some ctx)
       = from_mapping (mkHost (sys_platform host) (os_environ host)
                              (path_home host) cwd' (gettempdir host))
                      data base_dir e (Some (with_cwd ctx cwd')))
  ∧ (_parse_path (VStr "~/bar") example_env example_home base_dir where_
     = Ok (Pathlib.of_str "/home/u/bar")
     ∧ _parse_path (VStr "$FOO/x") example_env example_home base_dir where_
       = Ok (Pathlib.of_str "/opt/foo/x")
     ∧ _parse_path (VStr "${FOO}/x") example_env example_home base_dir where_
       = Ok (Pathlib.of_str "/opt/foo/x")
     ∧ _expand_env_vars (_expand_user "$MISSING" example_home) example_env
       = "$MISSING"
     ∧ _parse_path (VStr "$MISSING") example_env example_home base_dir where_
       = Ok (base_dir /: "$MISSING"))
  ∧ (_expand_env_vars "" env = ""
     ∧ (∀ c r, match_env_var (String c r) = None →
          _expand_env_vars (String c r) env = String c (_expand_env_vars r env))
     ∧ (∀ s var group0 rest, match_env_var s = Some (var, group0, rest) →
          s = group0 ++ rest ∧ var ≠ ""
          ∧ _expand_env_vars s env
            = default group0 (env !! var) ++ _expand_env_vars rest env))
  ∧ ((∀ s, Str.head_is (Ascii.eqb "$") s = false → match_env_var s = None)
     ∧ (∀ name rest,
          name ≠ "" → Str.all Str.isword name = true →
          Str.head_is Str.isword rest = false →
          match_env_var ("$" ++ name ++ rest) = Some (name, "$" ++ name, rest))
     ∧ (∀ name rest,
          name ≠ "" → Str.all (fun c => negb (Ascii.eqb c "}")) name = true →
          match_env_var ("${" ++ name ++ "}" ++ rest)
          = Some (name, "${" ++ name ++ "}", rest)))
  ∧ (∀ pre s, Str.all not_dollar pre = true →
       _expand_env_vars (pre ++ s) env = pre ++ _expand_env_vars s env)
  ∧ (∀ pre name rest v,
       Str.all not_dollar pre = true →
       name ≠ "" → Str.all Str.isword name = true →
       Str.head_is Str.isword rest = false → env !! name = Some v →
       _expand_env_vars (pre ++ "$" ++ name ++ rest) env
       = pre ++ v ++ _expand_env_vars rest env)
  ∧ (∀ pre name rest v,
       Str.all not_dollar pre = true →
       name ≠ "" → Str.all (fun c => negb (Ascii.eqb c "}")) name = true →
       env !! name = Some v →
       _expand_env_vars (pre ++ "${" ++ name ++ "}" ++ rest) env
       = pre ++ v ++ _expand_env_vars rest env)
  ∧ (∀ pre name rest,
       Str.all not_dollar pre = true →
       name ≠ "" → Str.all Str.isword name = true →
       Str.head_is Str.isword rest = false → env !! name = None →
       _expand_env_vars (pre ++ "$" ++ name ++ rest) env
       = pre ++ "$" ++ name ++ _expand_env_vars rest env)
  ∧ (∀ pre name rest,
       Str.all not_dollar pre = true →
       name ≠ "" → Str.all (fun c => negb (Ascii.eqb c "}")) name = true →
       env !! name = None →
       _expand_env_vars (pre ++ "${" ++ name ++ "}" ++ rest) env
       = pre ++ "${" ++ name ++ "}" ++ _expand_env_vars rest env)
  ∧ (_expand_env_vars "$FOO/$FOO" example_env = "/opt/foo//opt/foo"
     ∧ _expand_env_vars "/x/${FOO}/$BAR/$FOO" example_env = "/x//opt/foo/$BAR//opt/foo"
     ∧ _parse_path (VStr "~/$FOO") example_env example_home base_dir where_
       = Ok (Pathlib.of_str "/home/u/opt/foo")
     ∧ _parse_path (VStr "$FOO/$BAR") example_env example_home base_dir where_
       = Ok (Pathlib.of_str "/opt/foo/$BAR")
     ∧ _parse_path (VStr "/x/$FOO") example_env example_home base_dir where_
       = Ok (Pathlib.of_str "/x/opt/foo")
     ∧ _parse_path (VStr "$MISSING/$FOO") example_env example_home base_dir where_
       = Ok (base_dir /: "$MISSING/opt/foo")).
Proof.
  intros Hraw expanded p.
  split; [|split; [|split; [|split; [|split; [|split; [|split; [|split;
    [|split; [|split; [|split; [|split; [|split; [|split; [|split]]]]]]]]]]]]]].
  - unfold _parse_path. fold expanded. fold p.
    destruct (Str.is_empty (Str.strip raw)) eqn:E.
    + by apply is_empty_true in E.
    + by destruct (Pathlib.is_absolute p).
  - split; [done|]. split; [done|]. split; [done|].
    intros s Hs. destruct s as [|c s]; [done|].
    change (Ascii.eqb "~" c = false) in Hs.
    unfold _expand_user.
    assert (String.eqb (String c s) "~" = false) as ->.
    { apply String.eqb_neq. intros [= -> _]. by rewrite Ascii.eqb_refl in Hs. }
    cbn [Str.startswith]. by rewrite Hs.
  - intros name rest v Hn Ha Hr Hv.
    rewrite (_expand_env_vars_match env _ _ _ _ (match_env_var_dollar name rest Hn Ha Hr)).
    by rewrite (repl_set env name _ v Hn Hv).
  - intros name rest v Hn Ha Hv.
    rewrite (_expand_env_vars_match env _ _ _ _ (match_env_var_brace name rest Hn Ha)).
    by rewrite (repl_set env name _ v Hn Hv).
  - apply _expand_env_vars_unset.
  - intros q Hq. unfold Pathlib.truediv. by rewrite Hq.
  - intros. apply from_mapping_cwd.
  - repeat split; reflexivity.
  - split; [done|]. split; [apply _expand_env_vars_skip|].
    intros s var group0 rest Hm.
    destruct (match_env_var_split _ _ _ _ Hm) as (Hs & _ & Hv).
    split; [done|]. split; [done|].
    by rewrite (_expand_env_vars_match env _ _ _ _ Hm), repl_default.
  - split; [apply match_env_var_other|].
    split; [apply match_env_var_dollar|apply match_env_var_brace].
  - apply _expand_env_vars_prefix.
  - intros pre name rest v Hpre Hn Ha Hr Hv. rewrite _expand_env_vars_prefix by done.
    rewrite (_expand_env_vars_match env _ _ _ _ (match_env_var_dollar name rest Hn Ha Hr)).
    by rewrite (repl_set env name _ v Hn Hv).
  - intros pre name rest v Hpre Hn Ha Hv. rewrite _expand_env_vars_prefix by done.
    rewrite (_expand_env_vars_match env _ _ _ _ (match_env_var_brace name rest Hn Ha)).
    by rewrite (repl_set env name _ v Hn Hv).
  - intros pre name rest Hpre Hn Ha Hr Hv. rewrite _expand_env_vars_prefix by done.
    rewrite (_expand_env_vars_match env _ _ _ _ (match_env_var_dollar name rest Hn Ha Hr)).
    by rewrite (repl_unset env name _ Hv).
  - intros pre name rest Hpre Hn Ha Hv. rewrite _expand_env_vars_prefix by done.
    rewrite (_expand_env_vars_match env _ _ _ _ (match_env_var_brace name rest Hn Ha)).
    rewrite (repl_unset env name _ Hv). by rewrite !String_app_assoc.
  - repeat split; reflexivity.
Qed.

(** The parser of a relative path at a concrete directory. *)
Lemma _parse_path_expansion_witness :
  Str.strip "~/bar" ≠ ""
  ∧ _parse_path (VStr "~/bar") example_env example_home (Pathlib.of_str "/etc/vfx") "apps.maya.base"
    = Ok (Pathlib.of_str "/home/u/bar").
Proof.
  split; [discriminate|].
  exact (proj1 (_parse_path_expansion example_env example_home
                  (Pathlib.of_str "/etc/vfx") "apps.maya.base" "~/bar"
                  ltac:(discriminate))).
Defined.

(** C6. Normalizing a normalized key or application identifier changes
    nothing; strings that differ in case or in surrounding white space
    normalize to the same key; [" Scripts "], ["scripts"] and
    [DirKey.SCRIPTS] normalize to the same key and the same identifier, and
    so select the same entry of [AppConfig.paths] and of
    [VFXDirsConfig.apps]. *)
Theorem normalization_idempotent_insensitive :
  (∀ k : KeyLike, normalize_key (KeyStr (normalize_key k)) = normalize_key k)
  ∧ (∀ s r, _normalize_app_id s = Ok r → _normalize_app_id r = Ok r)
  ∧ (∀ a b : string, Str.lower a = Str.lower b →
       normalize_key (KeyStr a) = normalize_key (KeyStr b)
       ∧ _normalize_app_id a = _normalize_app_id b)
  ∧ (∀ w1 s w2 : string, Str.all_space w1 = true → Str.all_space w2 = true →
       normalize_key (KeyStr (w1 ++ s ++ w2)) = normalize_key (KeyStr s)
       ∧ _normalize_app_id (w1 ++ s ++ w2) = _normalize_app_id s)
  ∧ (normalize_key (KeyStr " Scripts ") = "scripts"
     ∧ normalize_key (KeyStr "scripts") = "scripts"
     ∧ normalize_key (KeyDir SCRIPTS) = "scripts")
  ∧ (_normalize_app_id " Scripts " = Ok "scripts"
     ∧ _normalize_app_id "scripts" = Ok "scripts"
     ∧ _normalize_app_id (DirKey_value SCRIPTS) = Ok "scripts")
  ∧ (∀ cfg : AppConfig,
       AppConfig_path_override cfg (KeyStr " Scripts ")
       = AppConfig_path_override cfg (KeyDir SCRIPTS)
       ∧ AppConfig_path_override cfg (KeyStr "scripts")
         = AppConfig_path_override cfg (KeyDir SCRIPTS))
  ∧ (∀ c : VFXDirsConfig,
       VFXDirsConfig_app c " Scripts " = VFXDirsConfig_app c "scripts"
       ∧ VFXDirsConfig_app c (DirKey_value SCRIPTS) = VFXDirsConfig_app c "scripts").
Proof.
  split; [apply normalize_key_idem|].
  split; [apply _normalize_app_id_idem|].
  split.
  { intros a b H. split; [by apply normalize_key_case|].
    unfold _normalize_app_id. by rewrite <- !strip_lower, H. }
  split.
  { intros w1 s w2 H1 H2. unfold normalize_key, _normalize_app_id. simpl.
    by rewrite strip_pad. }
  repeat split; reflexivity.
Qed.

Lemma normalization_idempotent_insensitive_witness :
  _normalize_app_id (" " ++ "MAYA" ++ " ") = _normalize_app_id "maya"
  ∧ _normalize_app_id "maya" = Ok "maya".
Proof.
  destruct normalization_idempotent_insensitive as (_ & Hidem & Hcase & Hpad & _).
  split.
  - rewrite (proj2 (Hpad " " "MAYA" " " eq_refl eq_refl)).
    exact (proj2 (Hcase "MAYA" "maya" eq_refl)).
  - exact (Hidem " Maya" "maya" eq_refl).
Defined.

(** ** Context construction *)

Lemma truediv_rel (p : Path) (s : string) :
  Pathlib.is_absolute (Pathlib.of_str s) = false →
  p /: s = mkPath (path_root p) (path_parts p ++ path_parts (Pathlib.of_str s))%list.
Proof. intros H. unfold Pathlib.truediv. by rewrite H. Qed.

Lemma child_not_empty (p : Path) : p /: ".config" ≠ Pathlib.of_str "".
Proof.
  rewrite truediv_rel by done. intros [= _ H].
  by destruct (path_parts p).
Qed.

Lemma get_truthy_delete_empty (e : Env) key k :
  e !! key = Some "" → get_truthy (delete key e) k = get_truthy e k.
Proof.
  intros H. unfold get_truthy. destruct (decide (key = k)) as [<-|Hne].
  - by rewrite lookup_delete_eq, H.
  - by rewrite lookup_delete_ne.
Qed.

Lemma program_files_roots_delete_empty (e : Env) key :
  e !! key = Some "" → program_files_roots (delete key e) = program_files_roots e.
Proof.
  intros H. unfold program_files_roots. simpl.
  by rewrite !(get_truthy_delete_empty e key _ H).
Qed.

(** C7. With the linux tag and [XDG_CONFIG_HOME] unset, the configuration
    home is [.config] under the home directory; with the windows tag and
    [APPDATA] set to a non-empty value it is the path of that value, which
    for [C:\Users\u\AppData\Roaming] is written exactly so; with the macos
    tag the configuration home and the data home are both
    [Library/Application Support] under the home directory. *)
Theorem from_env_platform_branching (host : Host) (e : option Env) (h c : option Path) :
  let env_map := default (os_environ host) e in
  (env_map !! "XDG_CONFIG_HOME" = None →
   ∃ ctx, from_env host e (Some linux) h c = Ok ctx
          ∧ home ctx = default (_home_from_env host linux env_map) h
          ∧ config_home ctx = home ctx /: ".config")
  ∧ (∀ v, env_map !! "APPDATA" = Some v → v ≠ "" →
     ∃ ctx, from_env host e (Some windows) h c = Ok ctx
            ∧ config_home ctx = Pathlib.of_str v)
  ∧ (env_map !! "APPDATA" = Some "C:\Users\u\AppData\Roaming" →
     ∃ ctx, from_env host e (Some windows) h c = Ok ctx
            ∧ Pathlib.to_str (config_home ctx) = "C:\Users\u\AppData\Roaming")
  ∧ (∃ ctx, from_env host e (Some macos) h c = Ok ctx
            ∧ home ctx = default (_home_from_env host macos env_map) h
            ∧ config_home ctx = home ctx /: "Library" /: "Application Support"
            ∧ data_home ctx = home ctx /: "Library" /: "Application Support").
Proof.
  intros env_map. subst env_map.
  split; [|split; [|split]].
  - intros Hx. eexists. split; [reflexivity|]. split; [by destruct e|].
    cbn [config_home home]. unfold path_of_env.
    destruct e as [e|]; simpl in Hx; by rewrite Hx.
  - intros v Hv Hne. eexists. split; [reflexivity|].
    cbn [config_home]. unfold get_truthy.
    destruct e as [e|]; simpl in Hv; rewrite Hv; by destruct v.
  - intros Hv. eexists. split; [reflexivity|].
    cbn [config_home]. unfold get_truthy.
    destruct e as [e|]; simpl in Hv; by rewrite Hv.
  - eexists. split; [reflexivity|]. split; [by destruct e|]. done.
Qed.

Lemma from_env_platform_branching_witness :
  ∃ ctx, from_env example_host
           (Some {[ "APPDATA" := "C:\Users\u\AppData\Roaming" ]})
           (Some windows) (Some (Pathlib.of_str "C:/Users/u")) None = Ok ctx
         ∧ Pathlib.to_str (config_home ctx) = "C:\Users\u\AppData\Roaming".
Proof.
  exact (proj1 (proj2 (proj2
           (from_env_platform_branching example_host
              (Some {[ "APPDATA" := "C:\Users\u\AppData\Roaming" ]})
              (Some (Pathlib.of_str "C:/Users/u")) None)))
           (lookup_singleton_eq _ _)).
Defined.

(** C10. With the windows tag, [APPDATA], [LOCALAPPDATA] and each
    Program-Files variable that is set to the empty string counts as unset:
    the configuration home is [AppData/Roaming] and the cache home
    [AppData/Local] under the home directory, and the install roots are
    those found without the variable. With the linux tag, [XDG_CONFIG_HOME]
    set to the empty string is used as it is: the configuration home is the
    path of the empty string and not [.config] under the home directory. *)
Theorem from_env_empty_variable (host : Host) (e : Env) (h c : option Path) :
  (e !! "APPDATA" = Some "" →
   ∃ ctx, from_env host (Some e) (Some windows) h c = Ok ctx
          ∧ config_home ctx = home ctx /: "AppData" /: "Roaming"
          ∧ data_home ctx = home ctx /: "AppData" /: "Roaming")
  ∧ (e !! "LOCALAPPDATA" = Some "" →
     ∃ ctx, from_env host (Some e) (Some windows) h c = Ok ctx
            ∧ cache_home ctx = home ctx /: "AppData" /: "Local")
  ∧ (∀ key, key ∈ program_files_keys → e !! key = Some "" →
     ∃ ctx ctx', from_env host (Some e) (Some windows) h c = Ok ctx
                 ∧ from_env host (Some (delete key e)) (Some windows) h c = Ok ctx'
                 ∧ install_roots ctx = install_roots ctx')
  ∧ (e !! "XDG_CONFIG_HOME" = Some "" →
     ∃ ctx, from_env host (Some e) (Some linux) h c = Ok ctx
            ∧ config_home ctx = Pathlib.of_str ""
            ∧ Pathlib.to_str (config_home ctx) = "."
            ∧ config_home ctx ≠ home ctx /: ".config").
Proof.
  split; [|split; [|split]].
  - intros He. eexists. split; [reflexivity|].
    cbn [config_home data_home home]. unfold get_truthy. by rewrite He.
  - intros He. eexists. split; [reflexivity|].
    cbn [cache_home home]. unfold get_truthy. by rewrite He.
  - intros key _ He. eexists. eexists. split; [reflexivity|]. split; [reflexivity|].
    cbn [install_roots]. by rewrite (program_files_roots_delete_empty e key He).
  - intros He. eexists. split; [reflexivity|].
    cbn [config_home home]. unfold path_of_env. rewrite He.
    split; [done|]. split; [done|]. intros H. symmetry in H.
    by apply child_not_empty in H.
Qed.

Lemma from_env_empty_variable_witness :
  ∃ ctx, from_env example_host (Some {[ "XDG_CONFIG_HOME" := "" ]})
           (Some linux) None None = Ok ctx
         ∧ Pathlib.to_str (config_home ctx) = "."
         ∧ Pathlib.to_str (home ctx /: ".config") = "/home/u/.config".
Proof.
  destruct (proj2 (proj2 (proj2
             (from_env_empty_variable example_host {[ "XDG_CONFIG_HOME" := "" ]}
                None None))) (lookup_singleton_eq _ _)) as (ctx & Hctx & _ & Hstr & _).
  exists ctx. split; [exact Hctx|]. split; [exact Hstr|].
  injection Hctx as <-. reflexivity.
Defined.

(** ** Parsing *)

Lemma _parse_path_not_str raw (e : Env) (h base_dir : Path) where_ :
  (∀ s, raw ≠ VStr s) →
  _parse_path raw e h base_dir where_
  = Raise (VFXDirsConfigError
             (where_ ++ " must be a string path but got " ++ type_name_of raw)).
Proof. intros H. destruct raw; try done. by destruct (H s). Qed.

Lemma _parse_path_blank s (e : Env) (h base_dir : Path) where_ :
  Str.strip s = "" →
  _parse_path (VStr s) e h base_dir where_
  = Raise (VFXDirsConfigError (where_ ++ " cannot be an empty path")).
Proof. intros H. unfold _parse_path. by rewrite H. Qed.

(** [tbl.get(key, {}) or {}] gives the empty table for every value that is
    false in a Boolean context, a table or not. *)
Lemma get_or_empty_falsy tbl key v :
  table_get tbl key = Some v → truthy v = false → get_or_empty tbl key = VTable [].
Proof. intros Hv Ht. unfold get_or_empty. rewrite Hv. simpl. by rewrite Ht. Qed.

Lemma get_or_empty_truthy tbl key v :
  table_get tbl key = Some v → truthy v = true → get_or_empty tbl key = v.
Proof. intros Hv Ht. unfold get_or_empty. rewrite Hv. simpl. by rewrite Ht. Qed.

(** C5. A value of [install] or of [paths] that is not a table and is false
    in a Boolean context ([false], [0], the empty string, the empty list) is
    taken for an absent table and the configuration is produced, while the
    same value in place of [apps] and a true value in place of [install] or
    [paths] raise the error that names the field. *)
Theorem from_mapping_falsy_install_accepted (host : Host) (base_dir : Path)
    (e : option Env) (ctx : Context) :
  let app v := VTable [("apps", VTable [("maya", VTable [v])])] in
  let parsed := Ok (mkVFXDirsConfig
                      {[ "maya" := mkAppConfig None (mkInstallOverride None None) ∅ ]}) in
  from_mapping host (app ("install", VBool false)) base_dir e (Some ctx) = parsed
  ∧ from_mapping host (app ("install", VInt 0)) base_dir e (Some ctx) = parsed
  ∧ from_mapping host (app ("install", VStr "")) base_dir e (Some ctx) = parsed
  ∧ from_mapping host (app ("paths", VBool false)) base_dir e (Some ctx) = parsed
  ∧ from_mapping host (app ("paths", VList [])) base_dir e (Some ctx) = parsed
  ∧ from_mapping host (app ("install", VBool true)) base_dir e (Some ctx)
    = Raise (VFXDirsConfigError "`apps.maya.install` must be a TOML table or object")
  ∧ from_mapping host (app ("paths", VInt 1)) base_dir e (Some ctx)
    = Raise (VFXDirsConfigError "`apps.maya.paths` must be a TOML table or object")
  ∧ from_mapping host (VTable [("apps", VBool false)]) base_dir e (Some ctx)
    = Raise (VFXDirsConfigError "`apps` must be a TOML table or object").
Proof. intros app parsed. repeat split; vm_compute; reflexivity. Qed.

(** ** Loading *)

(** C8. [load] returns [None] without error for a path at which there is
    nothing, and [None] as the higher tree of a merge leaves the lower tree
    as it is. For a path at which there is something, [load] reads, parses
    and validates it: an error of any of these steps is the result of
    [load], and [load] never answers [None]. *)
Theorem load_missing_or_invalid (tomllib_loads : string → result Value)
    (fs : FileSystem) (host : Host) (path : Path) (e : option Env)
    (context : option Context) :
  (fs path = None → load tomllib_loads fs host path e context = Ok None)
  ∧ (∀ T, VFXDirsConfig_merged T None = Ok T)
  ∧ (∀ r, fs path = Some r →
       load tomllib_loads fs host path e context
       = (text ← r;
          data ← tomllib_loads text;
          cfg ← from_mapping host data (Pathlib.parent path) e context;
          Ok (Some cfg)))
  ∧ (∀ err, fs path = Some (Raise err) →
       load tomllib_loads fs host path e context = Raise err)
  ∧ (∀ text err, fs path = Some (Ok text) → tomllib_loads text = Raise err →
       load tomllib_loads fs host path e context = Raise err)
  ∧ (∀ text data err, fs path = Some (Ok text) → tomllib_loads text = Ok data →
       from_mapping host data (Pathlib.parent path) e context = Raise err →
       load tomllib_loads fs host path e context = Raise err)
  ∧ (∀ r, fs path = Some r →
       load tomllib_loads fs host path e context ≠ Ok None).
Proof.
  assert (∀ r, fs path = Some r →
       load tomllib_loads fs host path e context
       = (text ← r;
          data ← tomllib_loads text;
          cfg ← from_mapping host data (Pathlib.parent path) e context;
          Ok (Some cfg))) as Hload.
  { intros r Hr. unfold load, from_file, path_exists, read_text. rewrite Hr.
    cbn [negb]. destruct r as [text|err]; [|done].
    rewrite !bind_Ok. destruct (tomllib_loads text) as [data|err]; [|done].
    rewrite !bind_Ok. by destruct (from_mapping _ _ _ _ _). }
  split. { intros H. unfold load, path_exists. by rewrite H. }
  split; [done|]. split; [exact Hload|].
  split. { intros err H. by rewrite (Hload _ H). }
  split. { intros text err H Hp. rewrite (Hload _ H), bind_Ok. by rewrite Hp. }
  split. { intros text data err H Hp Hv. rewrite (Hload _ H), bind_Ok, Hp, bind_Ok.
           by rewrite Hv. }
  intros r H. rewrite (Hload _ H). destruct r as [text|err]; [|done].
  rewrite bind_Ok. destruct (tomllib_loads text) as [data|err]; [|done].
  rewrite bind_Ok. by destruct (from_mapping _ _ _ _ _).
Qed.

Lemma load_missing_or_invalid_witness :
  load example_loads example_fs example_host (Pathlib.of_str "/etc/vfx/none.toml")
       None None = Ok None
  ∧ load example_loads example_fs example_host (Pathlib.of_str "/etc/vfx/bad.toml")
         None None = Raise (TOMLDecodeError "Invalid statement")
  ∧ load example_loads example_fs example_host (Pathlib.of_str "/etc/vfx/shape.toml")
         None None
    = Raise (VFXDirsConfigError "`apps` must be a TOML table or object").
Proof.
  split; [|split].
  - exact (proj1 (load_missing_or_invalid example_loads example_fs example_host
                    (Pathlib.of_str "/etc/vfx/none.toml") None None) eq_refl).
  - destruct (load_missing_or_invalid example_loads example_fs example_host
                (Pathlib.of_str "/etc/vfx/bad.toml") None None)
      as (_ & _ & _ & _ & H & _).
    exact (H "apps =" _ eq_refl eq_refl).
  - destruct (load_missing_or_invalid example_loads example_fs example_host
                (Pathlib.of_str "/etc/vfx/shape.toml") None None)
      as (_ & _ & _ & _ & _ & H & _).
    exact (H "apps = 1" _ _ eq_refl eq_refl eq_refl).
Defined.

(** ** The examples of merging *)

Lemma example_A_wf : VFXDirsConfig_wf example_A.
Proof. apply map_Forall_singleton. split; [done|apply AppConfig_new_wf]. Qed.

Lemma example_B_wf : VFXDirsConfig_wf example_B.
Proof. apply map_Forall_singleton. split; [done|apply AppConfig_new_wf]. Qed.

Lemma example_C_wf : VFXDirsConfig_wf example_C.
Proof. apply map_Forall_singleton. split; [done|apply AppConfig_new_wf]. Qed.

Lemma AppConfig_merged_fields_witness :
  let m := AppConfig_merged example_lower_app example_higher_app in
  base m = Some (Pathlib.of_str "/lo")
  ∧ paths m !! "logs" = Some (Pathlib.of_str "/b")
  ∧ paths m !! "cache" = Some (Pathlib.of_str "/a").
Proof.
  destruct (AppConfig_merged_fields example_lower_app example_higher_app
              (AppConfig_new_wf _ _ _) (AppConfig_new_wf _ _ _))
    as (Hb & _ & _ & _ & Hhi & Hlo).
  split; [exact Hb|]. split.
  - apply Hhi. vm_compute. reflexivity.
  - rewrite Hlo; vm_compute; reflexivity.
Defined.

Lemma VFXDirsConfig_merged_identity_witness :
  VFXDirsConfig_merged example_A (Some VFXDirsConfig_empty) = Ok example_A
  ∧ VFXDirsConfig_merged VFXDirsConfig_empty (Some example_A) = Ok example_A.
Proof.
  destruct (VFXDirsConfig_merged_identity example_A example_A_wf) as (H1 & H2 & _).
  exact (conj H1 H2).
Defined.

Lemma VFXDirsConfig_merged_assoc_witness :
  (AB ← VFXDirsConfig_merged example_A (Some example_B);
   VFXDirsConfig_merged AB (Some example_C))
  = (BC ← VFXDirsConfig_merged example_B (Some example_C);
     VFXDirsConfig_merged example_A (Some BC))
  ∧ merge_all example_A [example_B; example_C]
    = (a ← merge_all example_A [example_B];
       m ← merge_all VFXDirsConfig_empty [example_C];
       VFXDirsConfig_merged a (Some m)).
Proof.
  destruct (VFXDirsConfig_merged_assoc example_A example_B example_C
              [example_B] [example_C] example_A_wf example_B_wf example_C_wf)
    as (H1 & _ & H2 & _).
  - apply Forall_cons. split; [apply example_B_wf|apply Forall_nil_2].
  - apply Forall_cons. split; [apply example_C_wf|apply Forall_nil_2].
  - exact (conj H1 H2).
Defined.

(** ** Merging over the object store: what it leaves unchanged *)

Section StoreFrame.
Import Store.

Lemma keeps_ret {A} n (a : A) (Q : A → Prop) : Q a → keeps n (ret a) Q.
Proof. intros HQ h a' h' Hn [= <- <-]. by repeat split. Qed.

Lemma keeps_raise {A} n e (Q : A → Prop) : keeps n (raise e) Q.
Proof. intros h a h' _ H. discriminate H. Qed.

Lemma keeps_lift {A} n (r : result A) : keeps n (lift r) (fun _ => True).
Proof.
  intros h a h' Hn H. unfold lift in H. destruct r; [|done].
  injection H as <- <-. by repeat split.
Qed.

Lemma keeps_bind {A B} n (m : M A) (k : A → M B) (Q : A → Prop) (R : B → Prop) :
  keeps n m Q → (∀ a, Q a → keeps n (k a) R) → keeps n (bind m k) R.
Proof.
  intros Hm Hk h b h' Hn H. unfold bind in H.
  destruct (m h) as [[a h1]|] eqn:E; [|done].
  destruct (Hm h a h1 Hn E) as [[Hn1 Ht1] HQ].
  destruct (Hk a HQ h1 b h' Hn1 H) as [[Hn2 Ht2] HR].
  repeat split; [done| |done]. by rewrite Ht2.
Qed.

Lemma keeps_weaken {A} n (m : M A) (Q R : A → Prop) :
  keeps n m Q → (∀ a, Q a → R a) → keeps n m R.
Proof.
  intros Hm HQR h a h' Hn H. destruct (Hm h a h' Hn H) as [Hu HQ]. auto.
Qed.

(** A new object lies above every object there was. *)
Lemma keeps_alloc n o : keeps n (alloc o) (fun l => (n ≤ l)%nat).
Proof.
  intros h l h' Hn [= <- <-]. repeat split; [|by rewrite take_app_le|done].
  rewrite length_app. lia.
Qed.

Lemma keeps_read n l : keeps n (read l) (fun _ => True).
Proof.
  intros h o h' Hn H. unfold read in H. destruct (h !! l); [|done].
  injection H as <- <-. by repeat split.
Qed.

(** An update of an object at or above [n] leaves the objects below [n]. *)
Lemma keeps_write n (l : loc) o :
  (n ≤ l)%nat → keeps n (write l o) (fun _ => True).
Proof.
  intros Hl h u h' Hn H. unfold write in H. destruct (h !! l); [|done].
  injection H as _ <-. repeat split.
  - by rewrite length_insert.
  - by rewrite take_insert_ge.
Qed.

Lemma keeps_for_each {A} n (items : list A) (body : A → M unit) :
  (∀ x, keeps n (body x) (fun _ => True)) →
  keeps n (for_each items body) (fun _ => True).
Proof.
  intros Hbody. induction items as [|x rest IH]; cbn [for_each].
  - by apply keeps_ret.
  - eapply keeps_bind; [apply Hbody|]. intros _ _. apply IH.
Qed.

Lemma keeps_path_items n l : keeps n (path_items l) (fun _ => True).
Proof.
  unfold path_items. eapply keeps_bind; [apply keeps_read|].
  intros o _. destruct o; try apply keeps_raise; [by apply keeps_ret|].
  eapply keeps_bind; [apply keeps_read|].
  intros o' _. destruct o'; try apply keeps_raise. by apply keeps_ret.
Qed.

Lemma keeps_app_items n l : keeps n (app_items l) (fun _ => True).
Proof.
  unfold app_items. eapply keeps_bind; [apply keeps_read|].
  intros o _. destruct o; try apply keeps_raise; [by apply keeps_ret|].
  eapply keeps_bind; [apply keeps_read|].
  intros o' _. destruct o'; try apply keeps_raise. by apply keeps_ret.
Qed.

Lemma keeps_path_setitem n l k v :
  (n ≤ l)%nat → keeps n (path_setitem l k v) (fun _ => True).
Proof.
  intros Hl. unfold path_setitem. eapply keeps_bind; [apply keeps_read|].
  intros o _. destruct o; try apply keeps_raise. by apply keeps_write.
Qed.

Lemma keeps_app_setitem n l k v :
  (n ≤ l)%nat → keeps n (app_setitem l k v) (fun _ => True).
Proof.
  intros Hl. unfold app_setitem. eapply keeps_bind; [apply keeps_read|].
  intros o _. destruct o; try apply keeps_raise. by apply keeps_write.
Qed.

Lemma keeps_read_install n l : keeps n (read_install l) (fun _ => True).
Proof.
  unfold read_install. eapply keeps_bind; [apply keeps_read|].
  intros o _. destruct o; try apply keeps_raise. by apply keeps_ret.
Qed.

Lemma keeps_InstallOverride_merged n self higher :
  keeps n (InstallOverride_merged self higher) (fun l => (n ≤ l)%nat).
Proof.
  unfold InstallOverride_merged.
  eapply keeps_bind; [apply keeps_read_install|]. intros s _.
  eapply keeps_bind; [apply keeps_read_install|]. intros h _.
  apply keeps_alloc.
Qed.

Lemma keeps_AppConfig_new n b install paths :
  keeps n (AppConfig_new b install paths) (fun l => (n ≤ l)%nat).
Proof.
  unfold AppConfig_new.
  eapply keeps_bind; [apply keeps_alloc|]. intros self Hself.
  eapply keeps_bind; [apply keeps_alloc|]. intros normalized Hnorm.
  eapply keeps_bind; [apply keeps_path_items|]. intros d _.
  eapply keeps_bind; [apply keeps_alloc|]. intros copy _.
  eapply keeps_bind.
  { apply keeps_for_each. intros [k v]. by apply keeps_path_setitem. }
  intros _ _.
  eapply keeps_bind; [apply keeps_alloc|]. intros proxy _.
  eapply keeps_bind; [by apply keeps_write|]. intros _ _.
  by apply keeps_ret.
Qed.

Lemma keeps_AppConfig_merged n self higher :
  keeps n (AppConfig_merged self higher) (fun l => (n ≤ l)%nat).
Proof.
  unfold AppConfig_merged.
  eapply keeps_bind; [apply keeps_read|]. intros s _.
  eapply keeps_bind; [apply keeps_read|]. intros h _.
  destruct s; try apply keeps_raise. destruct h; try apply keeps_raise.
  eapply keeps_bind; [apply keeps_path_items|]. intros d _.
  eapply keeps_bind; [apply keeps_alloc|]. intros merged_paths Hm.
  eapply keeps_bind; [apply keeps_path_items|]. intros hd _.
  eapply keeps_bind.
  { apply keeps_for_each. intros [k v]. by apply keeps_path_setitem. }
  intros _ _.
  eapply keeps_bind; [apply keeps_InstallOverride_merged|]. intros i _.
  apply keeps_AppConfig_new.
Qed.

Lemma keeps_VFXDirsConfig_new n apps :
  keeps n (VFXDirsConfig_new apps) (fun l => (n ≤ l)%nat).
Proof.
  unfold VFXDirsConfig_new.
  eapply keeps_bind; [apply keeps_alloc|]. intros self Hself.
  eapply keeps_bind; [apply keeps_alloc|]. intros normalized Hnorm.
  eapply keeps_bind; [apply keeps_app_items|]. intros d _.
  eapply keeps_bind; [apply keeps_alloc|]. intros copy _.
  eapply keeps_bind.
  { apply keeps_for_each. intros [k v].
    eapply keeps_bind; [apply keeps_lift|]. intros norm_id _.
    by apply keeps_app_setitem. }
  intros _ _.
  eapply keeps_bind; [apply keeps_alloc|]. intros proxy _.
  eapply keeps_bind; [by apply keeps_write|]. intros _ _.
  by apply keeps_ret.
Qed.

Lemma keeps_merge_item n merged_apps item :
  (n ≤ merged_apps)%nat → keeps n (merge_item merged_apps item) (fun _ => True).
Proof.
  intros Hm. destruct item as [app_id higher_app]. unfold merge_item.
  eapply keeps_bind; [apply keeps_app_items|]. intros d _.
  eapply keeps_bind with (Q := fun _ => True).
  { destruct (d !! app_id).
    - eapply keeps_weaken; [apply keeps_AppConfig_merged|done].
    - by apply keeps_ret. }
  intros v _. by apply keeps_app_setitem.
Qed.

Lemma keeps_VFXDirsConfig_merged n self higher :
  keeps n (VFXDirsConfig_merged self (Some higher)) (fun l => (n ≤ l)%nat).
Proof.
  unfold VFXDirsConfig_merged.
  eapply keeps_bind; [apply keeps_read|]. intros s _.
  eapply keeps_bind; [apply keeps_read|]. intros h _.
  destruct s; try apply keeps_raise. destruct h; try apply keeps_raise.
  eapply keeps_bind; [apply keeps_app_items|]. intros d _.
  eapply keeps_bind; [apply keeps_alloc|]. intros merged_apps Hm.
  eapply keeps_bind; [apply keeps_app_items|]. intros hd _.
  eapply keeps_bind.
  { apply keeps_for_each. intros item. by apply keeps_merge_item. }
  intros _ _. apply keeps_VFXDirsConfig_new.
Qed.

Lemma unchanged_below_lookup (h h' : heap) l o :
  unchanged_below (length h) h h' → h !! l = Some o → h' !! l = Some o.
Proof.
  intros [Hlen Ht] Hl. pose proof (lookup_lt_Some _ _ _ Hl) as Hlt.
  rewrite <- (lookup_take_lt h' (length h) l) by done.
  rewrite Ht, firstn_all. done.
Qed.

End StoreFrame.

(** ** Merging over the object store: what it returns *)

Section StoreRun.
Local Abbreviation value_AppConfig_merged := AppConfig_merged.
Local Abbreviation value_InstallOverride_merged := InstallOverride_merged.
Local Abbreviation value_merge_app := merge_app.
Local Abbreviation value_VFXDirsConfig_merged := VFXDirsConfig_merged.
Import Store.

Lemma prefix_app_self {A} (h k : list A) : h `prefix_of` (h ++ k)%list.
Proof. by exists k. Qed.

Lemma bind_run {A B} (m : M A) (k : A → M B) h a h1 :
  m h = Ok (a, h1) → bind m k h = k a h1.
Proof. intros H. unfold bind. by rewrite H. Qed.

Lemma read_run (h : heap) (l : loc) o : h !! l = Some o → read l h = Ok (o, h).
Proof. intros H. unfold read. by rewrite H. Qed.

Lemma write_run (h : heap) (l : loc) o o' :
  h !! l = Some o' → write l o h = Ok (tt, <[l := o]> h).
Proof. intros H. unfold write. by rewrite H. Qed.

Lemma path_items_run (h : heap) (l : loc) d :
  abs_paths h l = Some d → path_items l h = Ok (d, h).
Proof.
  unfold abs_paths, path_items. intros H.
  destruct (h !! l) as [o|] eqn:E; [|done].
  rewrite (bind_run _ _ _ _ _ (read_run h l o E)).
  destruct o as [| |t| | |]; try done.
  - by injection H as ->.
  - destruct (h !! t) as [o'|] eqn:E'; [|done].
    rewrite (bind_run _ _ _ _ _ (read_run h t o' E')).
    destruct o'; try done. by injection H as ->.
Qed.

Lemma app_items_run (h : heap) (l : loc) d :
  abs_appdict h l = Some d → app_items l h = Ok (d, h).
Proof.
  unfold abs_appdict, app_items. intros H.
  destruct (h !! l) as [o|] eqn:E; [|done].
  rewrite (bind_run _ _ _ _ _ (read_run h l o E)).
  destruct o as [| |t| | |]; try done.
  - by injection H as ->.
  - destruct (h !! t) as [o'|] eqn:E'; [|done].
    rewrite (bind_run _ _ _ _ _ (read_run h t o' E')).
    destruct o'; try done. by injection H as ->.
Qed.

Lemma read_install_run (h : heap) (l : loc) i :
  abs_install h l = Some i → read_install l h = Ok (i, h).
Proof.
  unfold abs_install, read_install. intros H.
  destruct (h !! l) as [o|] eqn:E; [|done].
  rewrite (bind_run _ _ _ _ _ (read_run h l o E)).
  destruct o; try done. by injection H as <-.
Qed.

Lemma path_setitem_run (h : heap) (l : loc) d k v :
  h !! l = Some (PathDict d) →
  path_setitem l k v h = Ok (tt, <[l := PathDict (<[k := v]> d)]> h).
Proof.
  intros H. unfold path_setitem.
  rewrite (bind_run _ _ _ _ _ (read_run h l _ H)). by apply write_run with (o' := PathDict d).
Qed.

Lemma app_setitem_run (h : heap) (l : loc) d k v :
  h !! l = Some (AppDict d) →
  app_setitem l k v h = Ok (tt, <[l := AppDict (<[k := v]> d)]> h).
Proof.
  intros H. unfold app_setitem.
  rewrite (bind_run _ _ _ _ _ (read_run h l _ H)). by apply write_run with (o' := AppDict d).
Qed.

(** The loop that fills a dictionary of paths. *)
Lemma for_each_path_setitem (n : loc) (f : string → string)
    (items : list (string * Path)) : ∀ (h : heap) d,
  h !! n = Some (PathDict d) →
  for_each items (fun '(k, v) => path_setitem n (f k) v) h
  = Ok (tt, <[n := PathDict (fold_left (fun acc '(k, v) => <[f k := v]> acc) items d)]> h).
Proof.
  induction items as [|[k v] rest IH]; intros h d Hn; cbn [for_each fold_left].
  - unfold ret. by rewrite list_insert_id.
  - rewrite (bind_run _ _ _ _ _ (path_setitem_run h n d (f k) v Hn)).
    rewrite (IH _ (<[f k := v]> d)).
    + by rewrite list_insert_insert_eq.
    + apply list_lookup_insert_eq. by eapply lookup_lt_Some.
Qed.

(** The loop that fills a dictionary of applications under normalized
    identifiers. *)
Lemma for_each_app_setitem (n : loc) (items : list (string * loc)) : ∀ (h : heap) d,
  h !! n = Some (AppDict d) →
  Forall (fun x => app_id_normalized x.1) items →
  for_each items (fun '(app_id, cfg) =>
                    bind (lift (_normalize_app_id app_id))
                         (fun norm_id => app_setitem n norm_id cfg)) h
  = Ok (tt, <[n := AppDict (insert_items items d)]> h).
Proof.
  induction items as [|[k v] rest IH]; intros h d Hn Hall;
    cbn [for_each insert_items fold_left].
  - unfold ret. by rewrite list_insert_id.
  - apply Forall_cons in Hall as [Hk Hrest]. unfold app_id_normalized in Hk.
    simpl in Hk.
    assert (bind (lift (_normalize_app_id k))
                 (fun norm_id => app_setitem n norm_id v) h
            = Ok (tt, <[n := AppDict (<[k := v]> d)]> h)) as Hstep.
    { unfold bind, lift. rewrite Hk. by apply app_setitem_run. }
    rewrite (bind_run _ _ _ _ _ Hstep).
    unfold insert_items in IH. rewrite (IH _ (<[k := v]> d)); [|  |done].
    + by rewrite list_insert_insert_eq.
    + apply list_lookup_insert_eq. by eapply lookup_lt_Some.
Qed.

(** Filling a dictionary from items with distinct keys. *)
Lemma insert_items_union {V} (items : list (string * V)) : ∀ acc,
  NoDup items.*1 → insert_items items acc = list_to_map items ∪ acc.
Proof.
  unfold insert_items.
  induction items as [|[k v] rest IH]; intros acc Hnd; cbn [fold_left].
  - by rewrite list_to_map_nil, (left_id_L ∅ (∪)).
  - rewrite fmap_cons in Hnd. apply NoDup_cons in Hnd as [Hk Hnd].
    rewrite (IH _ Hnd).
    rewrite list_to_map_cons, <- insert_union_l. symmetry.
    apply insert_union_r. by apply not_elem_of_list_to_map_1.
Qed.

Lemma insert_items_map_to_list {V} (m acc : gmap string V) :
  insert_items (map_to_list m) acc = m ∪ acc.
Proof.
  rewrite insert_items_union by apply NoDup_fst_map_to_list.
  by rewrite list_to_map_to_list.
Qed.

Lemma insert_normalized_id (items : list (string * Path)) acc :
  Forall (fun x => key_normalized x.1) items →
  insert_normalized items acc = insert_items items acc.
Proof.
  unfold insert_normalized, insert_items. revert acc.
  induction items as [|[k v] rest IH]; intros acc Hall; cbn [fold_left]; [done|].
  apply Forall_cons in Hall as [Hk Hrest]. unfold key_normalized in Hk.
  simpl in Hk. rewrite Hk. by apply IH.
Qed.

Lemma insert_normalized_map_to_list (m : gmap string Path) :
  map_Forall (fun k _ => key_normalized k) m →
  insert_normalized (map_to_list m) ∅ = m.
Proof.
  intros Hm. rewrite insert_normalized_id.
  - by rewrite insert_items_map_to_list, (right_id_L ∅ (∪)).
  - apply Forall_forall. intros [k v] Hin.
    apply elem_of_map_to_list in Hin. by apply (Hm k v).
Qed.

Lemma lookup_app_plus {A} (h k : list A) j : (h ++ k)%list !! (length h + j)%nat = k !! j.
Proof. induction h as [|x h IH]; [done|]. apply IH. Qed.

Lemma lookup_app_length {A} (h k : list A) : (h ++ k)%list !! length h = k !! 0%nat.
Proof. rewrite <- (lookup_app_plus h k 0). by rewrite Nat.add_0_r. Qed.

Lemma insert_app_length {A} (h k : list A) x :
  <[length h := x]> (h ++ k)%list = (h ++ <[0%nat := x]> k)%list.
Proof. rewrite <- (insert_app_r h k 0). by rewrite Nat.add_0_r. Qed.

Lemma alloc_app (h k : heap) o :
  alloc o (h ++ k)%list = Ok ((length h + length k)%nat, (h ++ (k ++ [o]))%list).
Proof. unfold alloc. by rewrite length_app, <- (assoc_L (++)). Qed.

Lemma prefix_extends (h h' : heap) : h `prefix_of` h' → extends h h'.
Proof. intros Hp l o Hl _. by eapply prefix_lookup_Some. Qed.

Lemma extends_trans (h1 h2 h3 : heap) : extends h1 h2 → extends h2 h3 → extends h1 h3.
Proof. intros H12 H23 l o Hl Ho. apply H23; [|done]. by apply H12. Qed.

(** An update of a dictionary of applications keeps every other object. *)
Lemma extends_write_appdict (h : heap) (n : loc) d d' :
  h !! n = Some (AppDict d) → extends h (<[n := AppDict d']> h).
Proof.
  intros Hn l o Hl Ho. destruct (decide (n = l)) as [Heq|Hne].
  - subst l. rewrite Hn in Hl. injection Hl as <-. done.
  - by rewrite list_lookup_insert_ne.
Qed.

Lemma abs_paths_extends (h h' : heap) l d :
  extends h h' → abs_paths h l = Some d → abs_paths h' l = Some d.
Proof.
  intros He. unfold abs_paths.
  destruct (h !! l) as [o|] eqn:E; [|done].
  destruct o as [| |t| | |]; try done.
  - intros [= <-]. by rewrite (He _ _ E).
  - destruct (h !! t) as [o'|] eqn:E'; [|done].
    destruct o'; try done. intros [= <-].
    by rewrite (He _ _ E), (He _ _ E').
Qed.

Lemma abs_install_extends (h h' : heap) l i :
  extends h h' → abs_install h l = Some i → abs_install h' l = Some i.
Proof.
  intros He. unfold abs_install.
  destruct (h !! l) as [o|] eqn:E; [|done].
  destruct o; try done. intros [= <-]. by rewrite (He _ _ E).
Qed.

Lemma abs_app_extends (h h' : heap) l a :
  extends h h' → abs_app h l = Some a → abs_app h' l = Some a.
Proof.
  intros He. unfold abs_app.
  destruct (h !! l) as [o|] eqn:E; [|done].
  destruct o as [| | | |b i p|]; try done. rewrite (He _ _ E) by done.
  destruct (abs_install h i) as [i'|] eqn:Ei; [|done].
  destruct (abs_paths h p) as [p'|] eqn:Ep; [|done].
  intros [= <-].
  by rewrite (abs_install_extends _ _ _ _ He Ei), (abs_paths_extends _ _ _ _ He Ep).
Qed.

Lemma repr_apps_extends (h h' : heap) d m :
  extends h h' → repr_apps h d m → repr_apps h' d m.
Proof.
  unfold repr_apps. intros He H. apply map_eq. intros k.
  apply (f_equal (fun x => x !! k)) in H. rewrite !lookup_fmap in H |- *.
  destruct (d !! k) as [l|]; [|done]. simpl in *.
  destruct (m !! k) as [a|]; [|done]. simpl in *. injection H as H.
  by rewrite (abs_app_extends _ _ _ _ He H).
Qed.

Lemma abs_appdict_prefix (h h' : heap) l d :
  h `prefix_of` h' → abs_appdict h l = Some d → abs_appdict h' l = Some d.
Proof.
  intros Hp. unfold abs_appdict.
  destruct (h !! l) as [o|] eqn:E; [|done].
  rewrite (prefix_lookup_Some _ _ _ _ E Hp).
  destruct o as [| |t| | |]; try done.
  destruct (h !! t) as [o'|] eqn:E'; [|done].
  by rewrite (prefix_lookup_Some _ _ _ _ E' Hp).
Qed.

Lemma repr_config_prefix (h h' : heap) l c :
  h `prefix_of` h' → repr_config h l c → repr_config h' l c.
Proof.
  intros Hp (a & d & Hl & Ha & Hd). exists a, d. split; [|split].
  - by eapply prefix_lookup_Some.
  - by eapply abs_appdict_prefix.
  - eapply repr_apps_extends; [by apply prefix_extends|done].
Qed.

(** What the constructor of [AppConfig] leaves in the store. *)
Lemma AppConfig_new_run (h : heap) b (i p : loc) d :
  abs_paths h p = Some d →
  AppConfig_new b i p h
  = Ok (length h,
        (h ++ [AppObj b i (length h + 3)%nat;
               PathDict (insert_normalized (map_to_list d) ∅);
               PathDict d;
               MappingProxy (length h + 1)%nat])%list).
Proof.
  intros Hp. unfold AppConfig_new.
  rewrite (bind_run _ _ h (length h) (h ++ [AppObj b i p])%list eq_refl).
  rewrite (bind_run _ _ _ _ _ (alloc_app h [AppObj b i p] (PathDict ∅))).
  cbn [length app].
  assert (abs_paths (h ++ [AppObj b i p; PathDict ∅])%list p = Some d) as Hp'.
  { eapply abs_paths_extends; [|done]. apply prefix_extends. apply prefix_app_self. }
  rewrite (bind_run _ _ _ _ _ (path_items_run _ _ _ Hp')).
  rewrite (bind_run _ _ _ _ _ (alloc_app h [AppObj b i p; PathDict ∅] (PathDict d))).
  cbn [length app].
  rewrite (bind_run _ _ _ _ _
             (for_each_path_setitem (length h + 1)%nat
                (fun k => normalize_key (KeyStr k)) (map_to_list d)
                (h ++ [AppObj b i p; PathDict ∅; PathDict d])%list ∅
                (lookup_app_plus h _ 1))).
  rewrite insert_app_r. cbn [insert list_insert].
  rewrite (bind_run _ _ _ _ _ (alloc_app h _ (MappingProxy (length h + 1)%nat))).
  cbn [length app].
  erewrite bind_run.
  2:{ apply write_run with (o' := AppObj b i p). by rewrite lookup_app_length. }
  unfold ret. do 2 f_equal. by rewrite insert_app_length.
Qed.

Lemma abs_app_inv (h : heap) (l : loc) a :
  abs_app h l = Some a →
  ∃ i p, h !! l = Some (AppObj (base a) i p)
         ∧ abs_install h i = Some (install a)
         ∧ abs_paths h p = Some (paths a).
Proof.
  unfold abs_app. destruct (h !! l) as [o|]; [|done].
  destruct o as [| | | |b i p|]; try done.
  destruct (abs_install h i) as [i'|] eqn:Ei; [|done].
  destruct (abs_paths h p) as [p'|] eqn:Ep; [|done].
  intros [= <-]. exists i, p. by repeat split.
Qed.

Lemma AppConfig_new_spec (h : heap) b (i p : loc) i' d :
  abs_install h i = Some i' → abs_paths h p = Some d →
  ∃ h', AppConfig_new b i p h = Ok (length h, h')
        ∧ h `prefix_of` h'
        ∧ abs_app h' (length h)
          = Some (mkAppConfig b i' (insert_normalized (map_to_list d) ∅)).
Proof.
  intros Hi Hp. eexists. split; [by apply AppConfig_new_run|].
  split; [apply prefix_app_self|].
  unfold abs_app. rewrite lookup_app_length. cbn [lookup list_lookup].
  erewrite abs_install_extends; [|apply prefix_extends, prefix_app_self|exact Hi].
  unfold abs_paths. rewrite lookup_app_plus. simpl.
  by rewrite lookup_app_plus.
Qed.

(** What [AppConfig.merged] returns, for any two applications in the
    store. *)
Lemma AppConfig_merged_spec (h : heap) (self higher : loc) S H :
  abs_app h self = Some S → abs_app h higher = Some H →
  ∃ r h', AppConfig_merged self higher h = Ok (r, h')
          ∧ h `prefix_of` h'
          ∧ abs_app h' r
            = Some (mkAppConfig (or_else (base H) (base S))
                      (value_InstallOverride_merged (install S) (install H))
                      (insert_normalized (map_to_list (paths H ∪ paths S)) ∅)).
Proof.
  intros HS HH.
  apply abs_app_inv in HS as (si & sp & Hs & Hsi & Hsp).
  apply abs_app_inv in HH as (hi & hp & Hh & Hhi & Hhp).
  unfold AppConfig_merged.
  rewrite (bind_run _ _ _ _ _ (read_run h self _ Hs)).
  rewrite (bind_run _ _ _ _ _ (read_run h higher _ Hh)).
  rewrite (bind_run _ _ _ _ _ (path_items_run _ _ _ Hsp)).
  rewrite (bind_run _ _ h (length h) (h ++ [PathDict (paths S)])%list eq_refl).
  assert (extends h (h ++ [PathDict (paths S)])%list) as He1.
  { apply prefix_extends. apply prefix_app_self. }
  rewrite (bind_run _ _ _ _ _ (path_items_run _ _ _ (abs_paths_extends _ _ _ _ He1 Hhp))).
  erewrite bind_run.
  2:{ apply (for_each_path_setitem (length h) (fun k => k) (map_to_list (paths H))
               (h ++ [PathDict (paths S)])%list (paths S)).
      by rewrite lookup_app_length. }
  change (fold_left _ (map_to_list (paths H)) (paths S))
    with (insert_items (map_to_list (paths H)) (paths S)).
  rewrite insert_items_map_to_list.
  rewrite insert_app_length. cbn [insert list_insert].
  set (h2 := (h ++ [PathDict (paths H ∪ paths S)])%list).
  assert (extends h h2) as He2.
  { apply prefix_extends. apply prefix_app_self. }
  assert (InstallOverride_merged si hi h2
          = Ok ((length h + 1)%nat,
                (h ++ [PathDict (paths H ∪ paths S);
                       InstallObj (or_else (root (install H)) (root (install S)))
                                  (or_else (executable (install H))
                                           (executable (install S)))])%list))
    as Hinst.
  { unfold InstallOverride_merged.
    rewrite (bind_run _ _ _ _ _ (read_install_run _ _ _ (abs_install_extends _ _ _ _ He2 Hsi))).
    rewrite (bind_run _ _ _ _ _ (read_install_run _ _ _ (abs_install_extends _ _ _ _ He2 Hhi))).
    unfold h2. by rewrite alloc_app. }
  rewrite (bind_run _ _ _ _ _ Hinst).
  set (h3 := (h ++ [_; _])%list).
  destruct (AppConfig_new_spec h3 (or_else (base H) (base S))
              (length h + 1)%nat (length h)
              (value_InstallOverride_merged (install S) (install H))
              (paths H ∪ paths S)) as (h' & Hrun & Hpre & Habs).
  { unfold abs_install, h3. rewrite lookup_app_plus. done. }
  { unfold abs_paths, h3. by rewrite lookup_app_length. }
  exists (length h3), h'. split; [done|]. split; [|done].
  etrans; [|exact Hpre]. apply prefix_app_self.
Qed.

(** For two well-formed applications this is the merge of the values. *)
Lemma AppConfig_merged_spec_wf (h : heap) (self higher : loc) S H :
  abs_app h self = Some S → abs_app h higher = Some H →
  AppConfig_wf S → AppConfig_wf H →
  ∃ r h', AppConfig_merged self higher h = Ok (r, h')
          ∧ h `prefix_of` h'
          ∧ abs_app h' r = Some (value_AppConfig_merged S H).
Proof.
  intros HS HH HSwf HHwf.
  destruct (AppConfig_merged_spec h self higher S H HS HH) as (r & h' & Hrun & Hpre & Habs).
  exists r, h'. split; [done|]. split; [done|].
  rewrite Habs. f_equal.
  rewrite AppConfig_merged_eq by done. f_equal.
  apply insert_normalized_map_to_list. by apply union_normalized.
Qed.

Lemma repr_apps_lookup (h : heap) d m k :
  repr_apps h d m → abs_app h <$> (d !! k) = Some <$> (m !! k).
Proof.
  intros H. apply (f_equal (fun x => x !! k)) in H.
  by rewrite !lookup_fmap in H.
Qed.

Lemma repr_apps_insert (h : heap) d m k (l : loc) a :
  repr_apps h d m → abs_app h l = Some a → repr_apps h (<[k := l]> d) (<[k := a]> m).
Proof.
  unfold repr_apps. intros H Hl. by rewrite !fmap_insert, H, Hl.
Qed.

Lemma repr_apps_keys (h : heap) d m (P : string → Prop) :
  repr_apps h d m →
  map_Forall (fun k _ => P k) m → map_Forall (fun k _ => P k) d.
Proof.
  intros H Hm k l Hk. pose proof (repr_apps_lookup h d m k H) as Hl.
  rewrite Hk in Hl. destruct (m !! k) as [a|] eqn:E; [|done].
  by apply (Hm k a).
Qed.

Lemma repr_apps_items (h : heap) d m :
  repr_apps h d m →
  Forall2 (fun x y => x.1 = y.1 ∧ abs_app h x.2 = Some y.2)
          (map_to_list d) (map_to_list m).
Proof.
  intros H. apply (f_equal map_to_list) in H.
  rewrite !map_to_list_fmap in H. apply list_eq_Forall2 in H.
  rewrite Forall2_fmap in H. eapply Forall2_impl; [exact H|].
  intros [k l] [k' a] Heq. simpl in *. by injection Heq as -> ->.
Qed.

(** One round of the loop of [VFXDirsConfig.merged]. *)
Lemma merge_item_spec (n : loc) k (l : loc) a (h : heap) D M :
  h !! n = Some (AppDict D) → repr_apps h D M → abs_app h l = Some a →
  map_Forall (fun _ x => AppConfig_wf x) M → AppConfig_wf a →
  ∃ h' D', merge_item n (k, l) h = Ok (tt, h')
           ∧ h' !! n = Some (AppDict D')
           ∧ extends h h'
           ∧ repr_apps h' D' (value_merge_app k a M).
Proof.
  intros Hn HD Hl HM Ha. unfold merge_item.
  assert (abs_appdict h n = Some D) as HnD by (unfold abs_appdict; by rewrite Hn).
  rewrite (bind_run _ _ _ _ _ (app_items_run _ _ _ HnD)).
  pose proof (repr_apps_lookup h D M k HD) as Hk. unfold value_merge_app.
  destruct (D !! k) as [lo_l|] eqn:EDk.
  - destruct (M !! k) as [lo|] eqn:EMk; [|done]. simpl in Hk. injection Hk as Hlo.
    destruct (AppConfig_merged_spec_wf h lo_l l lo a Hlo Hl (HM k lo EMk) Ha)
      as (r & h1 & Hrun & Hpre & Habs).
    rewrite (bind_run _ _ _ _ _ Hrun).
    pose proof (prefix_lookup_Some _ _ _ _ Hn Hpre) as Hn1.
    rewrite (app_setitem_run h1 n D k r Hn1).
    assert (extends h (<[n := AppDict (<[k := r]> D)]> h1)) as He.
    { eapply extends_trans; [by apply prefix_extends|].
      by eapply extends_write_appdict. }
    eexists _, _. split; [done|]. split.
    { apply list_lookup_insert_eq. by eapply lookup_lt_Some. }
    split; [done|].
    apply repr_apps_insert; [by eapply repr_apps_extends|].
    eapply abs_app_extends; [|exact Habs]. by eapply extends_write_appdict.
  - destruct (M !! k) as [lo|] eqn:EMk; [done|].
    rewrite (bind_run _ _ h l h eq_refl).
    rewrite (app_setitem_run h n D k l Hn).
    assert (extends h (<[n := AppDict (<[k := l]> D)]> h)) as He
      by (by eapply extends_write_appdict).
    eexists _, _. split; [done|]. split.
    { apply list_lookup_insert_eq. by eapply lookup_lt_Some. }
    split; [done|].
    apply repr_apps_insert; [by eapply repr_apps_extends|].
    by eapply abs_app_extends.
Qed.

Lemma merge_app_wf k a (M : gmap string AppConfig) :
  map_Forall (fun _ x => AppConfig_wf x) M → AppConfig_wf a →
  map_Forall (fun _ x => AppConfig_wf x) (value_merge_app k a M).
Proof.
  intros HM Ha. unfold value_merge_app. apply map_Forall_insert_2; [|done].
  destruct (M !! k); [apply AppConfig_merged_wf|done].
Qed.

(** The whole loop. *)
Lemma for_each_merge_item (n : loc) (items_l : list (string * loc)) :
  ∀ (items_a : list (string * AppConfig)) (h : heap) D M,
  h !! n = Some (AppDict D) → repr_apps h D M →
  Forall2 (fun x y => x.1 = y.1 ∧ abs_app h x.2 = Some y.2) items_l items_a →
  map_Forall (fun _ x => AppConfig_wf x) M →
  Forall (fun y => AppConfig_wf y.2) items_a →
  ∃ h' D', for_each items_l (merge_item n) h = Ok (tt, h')
           ∧ h' !! n = Some (AppDict D')
           ∧ extends h h'
           ∧ repr_apps h' D' (merge_items items_a M).
Proof.
  induction items_l as [|[k l] rest IH]; intros items_a h D M Hn HD Hitems HM Hwf.
  - apply Forall2_nil_inv_l in Hitems as ->. exists h, D.
    split; [done|]. split; [done|]. split; [|done]. by intros l o Hl _.
  - apply Forall2_cons_inv_l in Hitems as ([k' a] & rest_a & [Hk Hl] & Hrest & ->).
    simpl in Hk, Hl. subst k'. apply Forall_cons in Hwf as [Ha Hwf]. simpl in Ha.
    destruct (merge_item_spec n k l a h D M Hn HD Hl HM Ha)
      as (h1 & D1 & Hrun1 & Hn1 & He1 & HD1).
    destruct (IH rest_a h1 D1 (value_merge_app k a M) Hn1 HD1)
      as (h' & D' & Hrun & Hn' & He & HD'); [|by apply merge_app_wf|done|].
    { eapply Forall2_impl; [exact Hrest|]. intros x y [Hxy Hx]. split; [done|].
      by eapply abs_app_extends. }
    exists h', D'. cbn [for_each]. rewrite (bind_run _ _ _ _ _ Hrun1).
    split; [done|]. split; [done|]. split; [by eapply extends_trans|done].
Qed.

Lemma merge_items_lookup (items : list (string * AppConfig)) : ∀ M k,
  NoDup items.*1 →
  merge_items items M !! k
  = merge_entry (M !! k) ((list_to_map items : gmap string AppConfig) !! k).
Proof.
  unfold merge_items.
  induction items as [|[k0 a0] rest IH]; intros M k Hnd; cbn [fold_left].
  - rewrite list_to_map_nil, lookup_empty. done.
  - rewrite fmap_cons in Hnd. apply NoDup_cons in Hnd as [Hk0 Hnd].
    rewrite (IH _ _ Hnd), list_to_map_cons. unfold value_merge_app.
    destruct (decide (k0 = k)) as [<-|Hne].
    + rewrite !lookup_insert_eq.
      rewrite (not_elem_of_list_to_map_1 _ _ Hk0). done.
    + by rewrite !lookup_insert_ne.
Qed.

Lemma merge_items_map_to_list (Hi M : gmap string AppConfig) :
  merge_items (map_to_list Hi) M = map_fold value_merge_app M Hi.
Proof.
  apply map_eq. intros k.
  rewrite merge_items_lookup by apply NoDup_fst_map_to_list.
  by rewrite list_to_map_to_list, merge_apps_lookup.
Qed.

(** What the constructor of [VFXDirsConfig] leaves in the store. *)
Lemma VFXDirsConfig_new_run (h : heap) (a : loc) d :
  abs_appdict h a = Some d →
  map_Forall (fun k _ => app_id_normalized k) d →
  VFXDirsConfig_new a h
  = Ok (length h,
        (h ++ [ConfigObj (length h + 3)%nat; AppDict d; AppDict d;
               MappingProxy (length h + 1)%nat])%list).
Proof.
  intros Ha Hd. unfold VFXDirsConfig_new.
  rewrite (bind_run _ _ h (length h) (h ++ [ConfigObj a])%list eq_refl).
  rewrite (bind_run _ _ _ _ _ (alloc_app h [ConfigObj a] (AppDict ∅))).
  cbn [length app].
  assert (abs_appdict (h ++ [ConfigObj a; AppDict ∅])%list a = Some d) as Ha'.
  { eapply abs_appdict_prefix; [|done]. apply prefix_app_self. }
  rewrite (bind_run _ _ _ _ _ (app_items_run _ _ _ Ha')).
  rewrite (bind_run _ _ _ _ _ (alloc_app h [ConfigObj a; AppDict ∅] (AppDict d))).
  cbn [length app].
  erewrite bind_run.
  2:{ apply (for_each_app_setitem (length h + 1)%nat (map_to_list d)
               (h ++ [ConfigObj a; AppDict ∅; AppDict d])%list ∅).
      - by rewrite lookup_app_plus.
      - apply Forall_forall. intros [k v] Hin.
        apply elem_of_map_to_list in Hin. by apply (Hd k v). }
  rewrite insert_items_map_to_list, (right_id_L ∅ (∪)).
  rewrite insert_app_r. cbn [insert list_insert].
  rewrite (bind_run _ _ _ _ _ (alloc_app h _ (MappingProxy (length h + 1)%nat))).
  cbn [length app].
  erewrite bind_run.
  2:{ apply write_run with (o' := ConfigObj a). by rewrite lookup_app_length. }
  unfold ret. do 2 f_equal. by rewrite insert_app_length.
Qed.

(** [VFXDirsConfig.merged] on two well-formed trees of the store returns a
    new object that stands for the merge of the two trees. *)
Lemma VFXDirsConfig_merged_spec (h : heap) (lower higher : loc) L H :
  repr_config h lower L → repr_config h higher H →
  VFXDirsConfig_wf L → VFXDirsConfig_wf H →
  ∃ r h', VFXDirsConfig_merged lower (Some higher) h = Ok (r, h')
          ∧ repr_config h' r
              (mkVFXDirsConfig (map_fold value_merge_app (apps L) (apps H))).
Proof.
  intros (la & ld & Hl & Hla & Hld) (ha & hd & Hh & Hha & Hhd) HLwf HHwf.
  unfold VFXDirsConfig_merged.
  rewrite (bind_run _ _ _ _ _ (read_run h lower _ Hl)).
  rewrite (bind_run _ _ _ _ _ (read_run h higher _ Hh)).
  rewrite (bind_run _ _ _ _ _ (app_items_run _ _ _ Hla)).
  rewrite (bind_run _ _ h (length h) (h ++ [AppDict ld])%list eq_refl).
  set (h1 := (h ++ [AppDict ld])%list).
  assert (h `prefix_of` h1) as Hp1 by apply prefix_app_self.
  rewrite (bind_run _ _ _ _ _ (app_items_run _ _ _ (abs_appdict_prefix _ _ _ _ Hp1 Hha))).
  destruct (for_each_merge_item (length h) (map_to_list hd) (map_to_list (apps H))
              h1 ld (apps L)) as (h2 & D' & Hrun & Hn2 & He2 & HD').
  { unfold h1. by rewrite lookup_app_length. }
  { eapply repr_apps_extends; [by apply prefix_extends|done]. }
  { apply repr_apps_items. eapply repr_apps_extends; [by apply prefix_extends|done]. }
  { intros k a Hk. by destruct (HLwf k a Hk). }
  { apply Forall_forall. intros [k a] Hin. apply elem_of_map_to_list in Hin.
    by destruct (HHwf k a Hin). }
  rewrite (bind_run _ _ _ _ _ Hrun).
  rewrite merge_items_map_to_list in HD'.
  assert (abs_appdict h2 (length h) = Some D') as Ha2
    by (unfold abs_appdict; by rewrite Hn2).
  rewrite (VFXDirsConfig_new_run h2 (length h) D' Ha2).
  2:{ eapply repr_apps_keys; [exact HD'|].
      apply (VFXDirsConfig_wf_ids _ (merge_apps_wf L H HLwf HHwf)). }
  eexists _, _. split; [done|].
  exists (length h2 + 3)%nat, D'. split; [by rewrite lookup_app_length|]. split.
  - unfold abs_appdict. rewrite lookup_app_plus. simpl.
    by rewrite lookup_app_plus.
  - eapply repr_apps_extends; [|exact HD']. apply prefix_extends, prefix_app_self.
Qed.

End StoreRun.

(** C9. [VFXDirsConfig.merged] with a second tree, whenever it returns,
    leaves every object that existed before the call as it was, and returns
    an object that did not exist before the call. On two trees of the store
    it does return: the new object stands for the merge of the two trees,
    and the two arguments stand for the same trees after the call as before
    it. *)
Theorem merged_leaves_inputs_unchanged (h : Store.heap) (lower higher : nat) :
  (∀ r h', Store.VFXDirsConfig_merged lower (Some higher) h = Ok (r, h') →
     (∀ l o, h !! l = Some o → h' !! l = Some o) ∧ h !! r = None)
  ∧ (∀ L H, Store.repr_config h lower L → Store.repr_config h higher H →
       VFXDirsConfig_wf L → VFXDirsConfig_wf H →
       ∃ r h' T, Store.VFXDirsConfig_merged lower (Some higher) h = Ok (r, h')
                 ∧ VFXDirsConfig_merged L (Some H) = Ok T
                 ∧ Store.repr_config h' r T
                 ∧ Store.repr_config h' lower L
                 ∧ Store.repr_config h' higher H
                 ∧ h !! r = None).
Proof.
  assert (∀ r h', Store.VFXDirsConfig_merged lower (Some higher) h = Ok (r, h') →
     Store.unchanged_below (length h) h h' ∧ (length h ≤ r)%nat) as Hframe.
  { intros r h' Hrun.
    by apply (keeps_VFXDirsConfig_merged (length h) lower higher h r h'). }
  split.
  - intros r h' Hrun. destruct (Hframe r h' Hrun) as [Hu Hr]. split.
    + intros l o. by apply unchanged_below_lookup.
    + by apply lookup_ge_None.
  - intros L H HL HH HLwf HHwf.
    destruct (VFXDirsConfig_merged_spec h lower higher L H HL HH HLwf HHwf)
      as (r & h' & Hrun & Hrepr).
    destruct (Hframe r h' Hrun) as [Hu Hr].
    assert (h `prefix_of` h') as Hpre.
    { destruct Hu as [Hlen Htake]. exists (drop (length h) h').
      rewrite <- (take_drop (length h) h') at 1. f_equal.
      by rewrite Htake, firstn_all. }
    exists r, h', (mkVFXDirsConfig (map_fold merge_app (apps L) (apps H))).
    split; [done|]. split; [by apply VFXDirsConfig_merged_eq|].
    split; [done|]. split; [by eapply repr_config_prefix|].
    split; [by eapply repr_config_prefix|]. by apply lookup_ge_None.
Qed.

(** Without a second tree the method returns the object it was called on. *)
Lemma merged_None_returns_self (h : Store.heap) (self : nat) :
  Store.VFXDirsConfig_merged self None h = Ok (self, h).
Proof. reflexivity. Qed.

Lemma example_heap_lower_repr : Store.repr_config example_heap 6 example_heap_lower.
Proof. exists 5, {[ "maya" := 3 ]}. repeat split; vm_compute; reflexivity. Qed.

Lemma example_heap_higher_repr : Store.repr_config example_heap 12 example_heap_higher.
Proof. exists 11, {[ "maya" := 9 ]}. repeat split; vm_compute; reflexivity. Qed.

Lemma example_heap_lower_wf : VFXDirsConfig_wf example_heap_lower.
Proof.
  apply map_Forall_singleton. split; [done|]. by apply map_Forall_singleton.
Qed.

Lemma example_heap_higher_wf : VFXDirsConfig_wf example_heap_higher.
Proof.
  apply map_Forall_singleton. split; [done|]. by apply map_Forall_singleton.
Qed.

Lemma merged_leaves_inputs_unchanged_witness :
  ∃ r h', Store.VFXDirsConfig_merged 6 (Some 12) example_heap = Ok (r, h')
          ∧ example_heap !! r = None
          ∧ h' !! 6 = Some (Store.ConfigObj 5)
          ∧ h' !! 12 = Some (Store.ConfigObj 11).
Proof.
  destruct (merged_leaves_inputs_unchanged example_heap 6 12) as [Hframe Hrun].
  destruct (Hrun example_heap_lower example_heap_higher
              example_heap_lower_repr example_heap_higher_repr
              example_heap_lower_wf example_heap_higher_wf)
    as (r & h' & T & Hr & _ & _ & _ & _ & Hfresh).
  exists r, h'. split; [exact Hr|]. split; [exact Hfresh|].
  destruct (Hframe r h' Hr) as [Hkeep _].
  split; apply Hkeep; reflexivity.
Defined.

(** The run on the example store: the new tree is the object 20, and its
    application [maya] has the base and the cache directory of the lower
    tree and the log directory of the higher one. *)
Example example_heap_merged :
  match Store.VFXDirsConfig_merged 6 (Some 12) example_heap with
  | Ok (r, h') =>
      r = 20
      ∧ h' !! r = Some (Store.ConfigObj 23)
      ∧ match Store.abs_appdict h' 23 with
        | Some d =>
            match d !! "maya" with
            | Some l => Store.abs_app h' l
            | None => None
            end
        | None => None
        end
        = Some (mkAppConfig (Some (Pathlib.of_str "/lo"))
                  (mkInstallOverride None None)
                  {[ "cache" := Pathlib.of_str "/a"; "logs" := Pathlib.of_str "/b" ]})
  | Raise _ => False
  end.
Proof. vm_compute. repeat split; reflexivity. Qed.

(** * Further properties of the code *)

(** ** Identifiers and the constructors *)

Lemma strip_empty_iff s : Str.strip s = "" ↔ Str.all_space s = true.
Proof.
  unfold Str.strip, Str.all_space. split.
  - intros H. pose proof (no_lead_lstrip s) as Hn.
    destruct (Str.lstrip s) as [|c r]; [done|]. simpl in Hn, H.
    destruct (Str.isspace c); [done|]. simpl in H. discriminate.
  - intros H. apply is_empty_true in H. by rewrite H.
Qed.

Lemma _normalize_app_id_cases_aux (s : string) :
  (Str.all_space s = true → _normalize_app_id s = Raise empty_app_id)
  ∧ (Str.all_space s = false →
     ∃ r, _normalize_app_id s = Ok r
          ∧ r = Str.lower (Str.strip s) ∧ r ≠ ""
          ∧ Str.strip r = r ∧ Str.lower r = r
          ∧ _normalize_app_id r = Ok r)
  ∧ (∀ e, _normalize_app_id s = Raise e → e = empty_app_id ∧ Str.all_space s = true).
Proof.
  assert (Str.is_empty (Str.lower (Str.strip s)) = Str.all_space s) as Hempty.
  { rewrite is_empty_lower. destruct (Str.all_space s) eqn:E.
    - apply is_empty_true. by apply strip_empty_iff.
    - destruct (Str.is_empty (Str.strip s)) eqn:E'; [|done].
      apply is_empty_true, strip_empty_iff in E'. congruence. }
  unfold _normalize_app_id. split; [|split].
  - intros Hs. by rewrite Hempty, Hs.
  - intros Hs. rewrite Hs in Hempty. rewrite Hempty.
    eexists. split; [done|]. split; [done|]. split.
    { intros H. rewrite H in Hempty. discriminate. }
    split; [by rewrite strip_lower, strip_idem|]. split; [apply lower_idem|].
    by rewrite strip_lower, strip_idem, lower_idem, Hempty.
  - intros e. rewrite Hempty. destruct (Str.all_space s); [|done]. by intros [= <-].
Qed.

(** [_normalize_app_id] raises exactly on the strings that are empty or
    white space only, always with the same error; on every other string it
    returns a non-empty string that trimming, lower-casing and
    [_normalize_app_id] itself leave as it is. *)
Theorem _normalize_app_id_cases (s : string) :
  (Str.all_space s = true → _normalize_app_id s = Raise empty_app_id)
  ∧ (Str.all_space s = false →
     ∃ r, _normalize_app_id s = Ok r
          ∧ r = Str.lower (Str.strip s) ∧ r ≠ ""
          ∧ Str.strip r = r ∧ Str.lower r = r
          ∧ _normalize_app_id r = Ok r)
  ∧ (∀ e, _normalize_app_id s = Raise e → e = empty_app_id ∧ Str.all_space s = true).
Proof. apply _normalize_app_id_cases_aux. Qed.

Lemma _normalize_app_id_cases_witness :
  _normalize_app_id "   " = Raise empty_app_id
  ∧ ∃ r, _normalize_app_id " Maya " = Ok r ∧ r = "maya".
Proof.
  split.
  - exact (proj1 (_normalize_app_id_cases "   ") eq_refl).
  - destruct (proj1 (proj2 (_normalize_app_id_cases " Maya ")) eq_refl)
      as (r & Hr & Hv & _).
    exists r. split; [exact Hr|]. rewrite Hv. reflexivity.
Defined.

(** What [VFXDirsConfig.__post_init__] has done after any number of items:
    either every identifier so far was not blank and the dictionary holds
    the items under their normalized identifiers, or some identifier was
    blank and the error is the one of [_normalize_app_id]. *)
Lemma VFXDirsConfig_normalized_inv (m : gmap string AppConfig) :
  match VFXDirsConfig_normalized m with
  | Ok n =>
      map_Forall (fun k _ => Str.all_space k = false) m
      ∧ map_Forall (fun k _ => app_id_normalized k) n
      ∧ (∀ k a, n !! k = Some a → ∃ k0, m !! k0 = Some a ∧ _normalize_app_id k0 = Ok k)
      ∧ (∀ k0 a, m !! k0 = Some a → ∃ k, _normalize_app_id k0 = Ok k ∧ is_Some (n !! k))
  | Raise e =>
      e = empty_app_id ∧ ∃ k a, m !! k = Some a ∧ Str.all_space k = true
  end.
Proof.
  unfold VFXDirsConfig_normalized.
  apply (map_fold_weak_ind (fun r m =>
    match r with
    | Ok n =>
        map_Forall (fun k (_ : AppConfig) => Str.all_space k = false) m
        ∧ map_Forall (fun k _ => app_id_normalized k) n
        ∧ (∀ k a, n !! k = Some a → ∃ k0, m !! k0 = Some a ∧ _normalize_app_id k0 = Ok k)
        ∧ (∀ k0 a, m !! k0 = Some a → ∃ k, _normalize_app_id k0 = Ok k ∧ is_Some (n !! k))
    | Raise e => e = empty_app_id ∧ ∃ k a, m !! k = Some a ∧ Str.all_space k = true
    end)).
  - split; [apply map_Forall_empty|]. split; [apply map_Forall_empty|].
    split; intros k a H; by rewrite lookup_empty in H.
  - intros i x m0 r Hi IH. destruct r as [n|e]; rewrite ?bind_Ok, ?bind_Raise.
    + destruct IH as (Hnb & Hnorm & Hfrom & Hto).
      destruct (Str.all_space i) eqn:Ei.
      * rewrite (proj1 (_normalize_app_id_cases_aux i) Ei), bind_Raise.
        split; [done|]. exists i, x. by rewrite lookup_insert_eq.
      * destruct (proj1 (proj2 (_normalize_app_id_cases_aux i)) Ei)
          as (r & Hr & _ & _ & _ & _ & Hidem).
        rewrite Hr, bind_Ok. split; [by apply map_Forall_insert_2|].
        split; [by apply map_Forall_insert_2|]. split.
        -- intros k a Hk. destruct (decide (r = k)) as [<-|Hne].
           ++ rewrite lookup_insert_eq in Hk. injection Hk as <-.
              exists i. by rewrite lookup_insert_eq.
           ++ rewrite lookup_insert_ne in Hk by done.
              destruct (Hfrom k a Hk) as (k0 & Hk0 & Hn0). exists k0.
              split; [|done]. rewrite lookup_insert_ne; [done|]. congruence.
        -- intros k0 a Hk0. destruct (decide (i = k0)) as [<-|Hne].
           ++ exists r. split; [done|]. rewrite lookup_insert_eq. by eexists.
           ++ rewrite lookup_insert_ne in Hk0 by done.
              destruct (Hto k0 a Hk0) as (k & Hk & Hs). exists k. split; [done|].
              destruct (decide (r = k)) as [<-|Hrk].
              ** rewrite lookup_insert_eq. by eexists.
              ** by rewrite lookup_insert_ne.
    + destruct IH as (-> & k & a & Hk & Hb). split; [done|]. exists k, a.
      split; [|done]. rewrite lookup_insert_ne; [done|]. congruence.
Qed.

(** [VFXDirsConfig(apps=...)] raises exactly when an identifier of the
    argument is blank. Otherwise every stored identifier is normalized,
    every stored application is one of the argument's under the normalized
    form of its identifier, and every identifier of the argument is found
    under its normalized form. *)
Theorem VFXDirsConfig_new_cases (m : gmap string AppConfig) :
  (map_Forall (fun k _ => Str.all_space k = false) m →
   ∃ c, VFXDirsConfig_new m = Ok c
        ∧ map_Forall (fun k _ => app_id_normalized k) (apps c)
        ∧ (∀ k a, apps c !! k = Some a →
             ∃ k0, m !! k0 = Some a ∧ _normalize_app_id k0 = Ok k)
        ∧ (∀ k0 a, m !! k0 = Some a →
             ∃ a', VFXDirsConfig_app c k0 = Ok (Some a')))
  ∧ (∀ k a, m !! k = Some a → Str.all_space k = true →
       VFXDirsConfig_new m = Raise empty_app_id)
  ∧ (∀ e, VFXDirsConfig_new m = Raise e → e = empty_app_id).
Proof.
  pose proof (VFXDirsConfig_normalized_inv m) as H. unfold VFXDirsConfig_new.
  destruct (VFXDirsConfig_normalized m) as [n|e]; rewrite ?bind_Ok, ?bind_Raise.
  - destruct H as (Hnb & Hnorm & Hfrom & Hto). split; [|split].
    + intros _. eexists. split; [done|]. split; [done|]. split; [done|].
      intros k0 a Hk0. destruct (Hto k0 a Hk0) as (k & Hk & [a' Ha']).
      exists a'. unfold VFXDirsConfig_app. by rewrite Hk, bind_Ok, <- Ha'.
    + intros k a Hk Hb. specialize (Hnb k a Hk). simpl in Hnb. congruence.
    + done.
  - destruct H as (-> & k & a & Hk & Hb). split; [|split].
    + intros Hnb. specialize (Hnb k a Hk). simpl in Hnb. congruence.
    + done.
    + by intros e [= <-].
Qed.

Lemma VFXDirsConfig_new_cases_witness :
  (∃ c, VFXDirsConfig_new {[ " Maya" := example_lower_app ]} = Ok c
        ∧ ∃ a', VFXDirsConfig_app c " Maya" = Ok (Some a'))
  ∧ VFXDirsConfig_new {[ "  " := example_lower_app ]} = Raise empty_app_id.
Proof.
  split.
  - destruct (proj1 (VFXDirsConfig_new_cases {[ " Maya" := example_lower_app ]}))
      as (c & Hc & _ & _ & Hto).
    { by apply map_Forall_singleton. }
    exists c. split; [exact Hc|]. apply (Hto " Maya" example_lower_app).
    apply lookup_singleton_eq.
  - apply (proj1 (proj2 (VFXDirsConfig_new_cases {[ "  " := example_lower_app ]}))
             "  " example_lower_app); [apply lookup_singleton_eq|reflexivity].
Defined.

(** What [AppConfig.__post_init__] has stored after any number of items. *)
Lemma AppConfig_normalized_inv (m : gmap string Path) (j : string) :
  (∀ v, AppConfig_normalized m !! j = Some v →
     ∃ k, m !! k = Some v ∧ normalize_key (KeyStr k) = j)
  ∧ ((∀ k, is_Some (m !! k) → normalize_key (KeyStr k) ≠ j) →
     AppConfig_normalized m !! j = None)
  ∧ (∀ k v, m !! k = Some v → normalize_key (KeyStr k) = j →
       (∀ k', is_Some (m !! k') → normalize_key (KeyStr k') = j → k' = k) →
       AppConfig_normalized m !! j = Some v).
Proof.
  unfold AppConfig_normalized.
  apply (map_fold_weak_ind (fun (r m : gmap string Path) =>
    (∀ v, r !! j = Some v → ∃ k, m !! k = Some v ∧ normalize_key (KeyStr k) = j)
    ∧ ((∀ k, is_Some (m !! k) → normalize_key (KeyStr k) ≠ j) → r !! j = None)
    ∧ (∀ k v, m !! k = Some v → normalize_key (KeyStr k) = j →
         (∀ k', is_Some (m !! k') → normalize_key (KeyStr k') = j → k' = k) →
         r !! j = Some v))).
  - split; [|split].
    + intros v H. by rewrite lookup_empty in H.
    + done.
    + intros k v H. by rewrite lookup_empty in H.
  - intros i x m0 r Hi (IH1 & IH2 & IH3). split; [|split].
    + intros v Hv. destruct (decide (normalize_key (KeyStr i) = j)) as [Hij|Hij].
      * rewrite Hij, lookup_insert_eq in Hv. injection Hv as <-.
        exists i. by rewrite lookup_insert_eq.
      * rewrite lookup_insert_ne in Hv by done.
        destruct (IH1 v Hv) as (k & Hk & Hkj). exists k. split; [|done].
        rewrite lookup_insert_ne; [done|]. congruence.
    + intros Hnone. rewrite lookup_insert_ne.
      * apply IH2. intros k Hk. apply Hnone.
        rewrite lookup_insert_ne; [done|]. intros ->. rewrite Hi in Hk.
        by destruct Hk.
      * apply Hnone. rewrite lookup_insert_eq. by eexists.
    + intros k v Hk Hkj Huniq. destruct (decide (i = k)) as [->|Hne].
      * rewrite lookup_insert_eq in Hk. injection Hk as <-.
        by rewrite Hkj, lookup_insert_eq.
      * rewrite lookup_insert_ne in Hk by done.
        assert (normalize_key (KeyStr i) ≠ j) as Hij.
        { intros Hij. apply Hne. apply Huniq; [|done].
          rewrite lookup_insert_eq. by eexists. }
        rewrite lookup_insert_ne by done. apply (IH3 k v Hk Hkj).
        intros k' Hk' Hk'j. apply Huniq; [|done].
        rewrite lookup_insert_ne; [done|]. intros ->. rewrite Hi in Hk'.
        by destruct Hk'.
Qed.

(** [AppConfig(base, install, paths)] keeps the base and the install
    override, stores every key normalized, and stores no path that the
    argument does not hold under a key of that normal form. A key of the
    argument that no other key shares its normal form with is found by
    [path_override] under every spelling of it, and a key that the argument
    has no spelling of is not found. *)
Theorem AppConfig_new_lookup (b : option Path) (i : InstallOverride)
    (m : gmap string Path) :
  let a := AppConfig_new b i m in
  base a = b ∧ install a = i
  ∧ AppConfig_wf a
  ∧ (∀ key v, AppConfig_path_override a key = Some v →
       ∃ k, m !! k = Some v ∧ normalize_key (KeyStr k) = normalize_key key)
  ∧ (∀ k v key, m !! k = Some v →
       normalize_key key = normalize_key (KeyStr k) →
       (∀ k', is_Some (m !! k') →
              normalize_key (KeyStr k') = normalize_key (KeyStr k) → k' = k) →
       AppConfig_path_override a key = Some v)
  ∧ (∀ key, (∀ k, is_Some (m !! k) → normalize_key (KeyStr k) ≠ normalize_key key) →
       AppConfig_path_override a key = None).
Proof.
  intros a. subst a. unfold AppConfig_path_override. cbn [AppConfig_new base install paths].
  split; [done|]. split; [done|]. split; [apply AppConfig_normalized_wf|].
  split; [|split].
  - intros key v. apply (AppConfig_normalized_inv m (normalize_key key)).
  - intros k v key Hk Hkey Huniq. rewrite Hkey.
    by apply (AppConfig_normalized_inv m (normalize_key (KeyStr k))) with (k := k).
  - intros key. apply (AppConfig_normalized_inv m (normalize_key key)).
Qed.

Lemma AppConfig_new_lookup_witness :
  AppConfig_path_override
    (AppConfig_new None InstallOverride_default {[ " Cache" := Pathlib.of_str "/a" ]})
    (KeyStr "CACHE ")
  = Some (Pathlib.of_str "/a").
Proof.
  destruct (AppConfig_new_lookup None InstallOverride_default
              {[ " Cache" := Pathlib.of_str "/a" ]}) as (_ & _ & _ & _ & H & _).
  apply (H " Cache" (Pathlib.of_str "/a") (KeyStr "CACHE ")).
  - apply lookup_singleton_eq.
  - reflexivity.
  - intros k' [v Hv] _. apply lookup_singleton_Some in Hv. by destruct Hv.
Defined.

(** ** More on merging *)

Lemma or_else_None_l {A} (a : option A) : or_else None a = a.
Proof. done. Qed.

Lemma or_else_None_r {A} (a : option A) : or_else a None = a.
Proof. by destruct a. Qed.

Lemma or_else_idem {A} (a : option A) : or_else a a = a.
Proof. by destruct a. Qed.

(** [InstallOverride.merged]: the default override is neutral on both
    sides, merging an override with itself changes nothing, merging is
    associative, and a field is present in the result exactly when it is
    present on one of the two sides. *)
Theorem InstallOverride_merged_laws (a b c : InstallOverride) :
  InstallOverride_merged a InstallOverride_default = a
  ∧ InstallOverride_merged InstallOverride_default a = a
  ∧ InstallOverride_merged a a = a
  ∧ InstallOverride_merged (InstallOverride_merged a b) c
    = InstallOverride_merged a (InstallOverride_merged b c)
  ∧ (is_Some (root (InstallOverride_merged a b))
     ↔ is_Some (root a) ∨ is_Some (root b))
  ∧ (is_Some (executable (InstallOverride_merged a b))
     ↔ is_Some (executable a) ∨ is_Some (executable b)).
Proof.
  destruct a as [ra ea], b as [rb eb], c as [rc ec].
  unfold InstallOverride_merged, InstallOverride_default. simpl.
  split; [done|]. split; [by rewrite !or_else_None_r|].
  split; [by rewrite !or_else_idem|]. split; [by rewrite !or_else_assoc|].
  split.
  - destruct ra, rb; simpl; split; intros H; try done; try (by eexists);
      try (by left); try (by right); by destruct H as [[? ?]|[? ?]].
  - destruct ea, eb; simpl; split; intros H; try done; try (by eexists);
      try (by left); try (by right); by destruct H as [[? ?]|[? ?]].
Qed.

Lemma InstallOverride_merged_laws_witness :
  is_Some (root (InstallOverride_merged
                   (mkInstallOverride (Some (Pathlib.of_str "/opt/maya")) None)
                   InstallOverride_default)).
Proof.
  apply (proj1 (proj2 (proj2 (proj2 (proj2
           (InstallOverride_merged_laws
              (mkInstallOverride (Some (Pathlib.of_str "/opt/maya")) None)
              InstallOverride_default InstallOverride_default)))))).
  left. by eexists.
Defined.

Lemma AppConfig_default_eq :
  AppConfig_default = mkAppConfig None InstallOverride_default ∅.
Proof.
  unfold AppConfig_default, AppConfig_new, AppConfig_normalized.
  by rewrite map_fold_empty.
Qed.

Lemma AppConfig_default_wf : AppConfig_wf AppConfig_default.
Proof. apply AppConfig_new_wf. Qed.

Lemma AppConfig_merged_idem (a : AppConfig) :
  AppConfig_wf a → AppConfig_merged a a = a.
Proof.
  intros Ha. rewrite AppConfig_merged_eq by done.
  unfold InstallOverride_merged.
  rewrite !or_else_idem, (idemp_L (∪)). by destruct a as [? [? ?] ?].
Qed.

(** [AppConfig.merged]: the application without overrides, [AppConfig()],
    is neutral on both sides, merging an application with itself changes
    nothing, and merging is associative. *)
Theorem AppConfig_merged_laws (a b c : AppConfig) :
  AppConfig_wf a → AppConfig_wf b → AppConfig_wf c →
  AppConfig_merged a AppConfig_default = a
  ∧ AppConfig_merged AppConfig_default a = a
  ∧ AppConfig_merged a a = a
  ∧ AppConfig_merged (AppConfig_merged a b) c
    = AppConfig_merged a (AppConfig_merged b c).
Proof.
  intros Ha Hb Hc.
  split; [|split; [|split]].
  - rewrite AppConfig_merged_eq by (done || apply AppConfig_default_wf).
    rewrite AppConfig_default_eq. unfold InstallOverride_merged. simpl.
    rewrite (left_id_L ∅ (∪)). by destruct a as [? [? ?] ?].
  - rewrite AppConfig_merged_eq by (done || apply AppConfig_default_wf).
    rewrite AppConfig_default_eq. unfold InstallOverride_merged. simpl.
    rewrite (right_id_L ∅ (∪)), !or_else_None_r. by destruct a as [? [? ?] ?].
  - by apply AppConfig_merged_idem.
  - by apply AppConfig_merged_assoc.
Qed.

Lemma AppConfig_merged_laws_witness :
  AppConfig_merged example_lower_app AppConfig_default = example_lower_app
  ∧ AppConfig_merged example_lower_app example_lower_app = example_lower_app.
Proof.
  destruct (AppConfig_merged_laws example_lower_app example_lower_app
              example_lower_app (AppConfig_new_wf _ _ _) (AppConfig_new_wf _ _ _)
              (AppConfig_new_wf _ _ _)) as (H1 & _ & H3 & _).
  exact (conj H1 H3).
Defined.

(** [VFXDirsConfig.merged] of two trees: the result holds the identifiers
    of both; an application that only one tree holds is carried over as it
    is, an application that both hold is the merge of the two; the result is
    well formed; and merging a tree with itself returns the tree. *)
Theorem VFXDirsConfig_merged_apps (lower higher : VFXDirsConfig) :
  VFXDirsConfig_wf lower → VFXDirsConfig_wf higher →
  ∃ m, VFXDirsConfig_merged lower (Some higher) = Ok m
       ∧ VFXDirsConfig_wf m
       ∧ dom (apps m) = dom (apps lower) ∪ dom (apps higher)
       ∧ (∀ k, apps higher !! k = None → apps m !! k = apps lower !! k)
       ∧ (∀ k, apps lower !! k = None → apps m !! k = apps higher !! k)
       ∧ (∀ k l h, apps lower !! k = Some l → apps higher !! k = Some h →
            apps m !! k = Some (AppConfig_merged l h))
       ∧ VFXDirsConfig_merged lower (Some lower) = Ok lower.
Proof.
  intros Hl Hh. eexists. split; [by apply VFXDirsConfig_merged_eq|].
  split; [by apply merge_apps_wf|]. cbn [apps].
  split; [|split; [|split; [|split]]].
  - apply set_eq. intros k. rewrite elem_of_union, !elem_of_dom, merge_apps_lookup.
    destruct (apps lower !! k), (apps higher !! k); simpl;
      split; intros H; try done; try (by eexists); try (by left); try (by right);
      by destruct H as [[? ?]|[? ?]].
  - intros k Hk. by rewrite merge_apps_lookup, Hk.
  - intros k Hk. rewrite merge_apps_lookup, Hk. by destruct (apps higher !! k).
  - intros k l h Hkl Hkh. by rewrite merge_apps_lookup, Hkl, Hkh.
  - rewrite VFXDirsConfig_merged_eq by done. destruct lower as [m]. do 2 f_equal.
    apply map_eq. intros k. rewrite merge_apps_lookup. simpl.
    destruct (m !! k) as [a|] eqn:E; [|done]. simpl. f_equal.
    destruct (Hl k a E) as [_ Ha]. by apply AppConfig_merged_idem.
Qed.

Lemma VFXDirsConfig_merged_apps_witness :
  ∃ m, VFXDirsConfig_merged example_A (Some example_C) = Ok m
       ∧ apps m !! "maya" = Some example_lower_app
       ∧ apps m !! "nuke" = Some example_higher_app.
Proof.
  destruct (VFXDirsConfig_merged_apps example_A example_C example_A_wf example_C_wf)
    as (m & Hm & _ & _ & Hlo & Hhi & _).
  exists m. split; [exact Hm|]. split.
  - rewrite Hlo; reflexivity.
  - rewrite Hhi; reflexivity.
Defined.

(** A lookup in a merged tree: [path_override] on the merge of two trees
    answers what the higher tree answers when that is a path, and what the
    lower tree answers otherwise; a blank identifier raises in all three. *)
Theorem path_override_merged (lower higher m : VFXDirsConfig) (app_id : string)
    (key : KeyLike) :
  VFXDirsConfig_wf lower → VFXDirsConfig_wf higher →
  VFXDirsConfig_merged lower (Some higher) = Ok m →
  VFXDirsConfig_path_override m app_id key
  = match VFXDirsConfig_path_override higher app_id key with
    | Ok (Some p) => Ok (Some p)
    | Ok None => VFXDirsConfig_path_override lower app_id key
    | Raise e => Raise e
    end.
Proof.
  intros Hl Hh Hm. rewrite VFXDirsConfig_merged_eq in Hm by done.
  injection Hm as <-. unfold VFXDirsConfig_path_override, VFXDirsConfig_app.
  destruct (_normalize_app_id app_id) as [id|e]; rewrite ?bind_Ok, ?bind_Raise; [|done].
  cbn [apps]. rewrite merge_apps_lookup.
  destruct (apps higher !! id) as [h|] eqn:Eh; simpl.
  - destruct (Hh id h Eh) as [_ Hhwf].
    destruct (apps lower !! id) as [l|] eqn:El; simpl.
    + destruct (Hl id l El) as [_ Hlwf]. unfold AppConfig_path_override.
      rewrite AppConfig_merged_eq by done. simpl. rewrite lookup_union.
      destruct (paths h !! normalize_key key), (paths l !! normalize_key key); done.
    + by destruct (AppConfig_path_override h key).
  - by destruct (apps lower !! id).
Qed.

Lemma path_override_merged_witness :
  ∃ m, VFXDirsConfig_merged example_A (Some example_B) = Ok m
       ∧ VFXDirsConfig_path_override m " Maya" (KeyDir CACHE)
         = Ok (Some (Pathlib.of_str "/a")).
Proof.
  pose proof (VFXDirsConfig_merged_eq example_A example_B example_A_wf example_B_wf)
    as Hm.
  eexists. split; [exact Hm|].
  rewrite (path_override_merged example_A example_B _ " Maya" (KeyDir CACHE)
             example_A_wf example_B_wf Hm).
  vm_compute. reflexivity.
Defined.

(** The direction of a merge matters: when both trees give an application a
    base and the two bases differ, merging one way and the other way return
    different trees. *)
Theorem VFXDirsConfig_merged_not_comm (a b : VFXDirsConfig) (k : string)
    (x y : AppConfig) (p q : Path) :
  VFXDirsConfig_wf a → VFXDirsConfig_wf b →
  apps a !! k = Some x → apps b !! k = Some y →
  base x = Some p → base y = Some q → p ≠ q →
  VFXDirsConfig_merged a (Some b) ≠ VFXDirsConfig_merged b (Some a).
Proof.
  intros Ha Hb Hx Hy Hp Hq Hpq Heq.
  rewrite !VFXDirsConfig_merged_eq in Heq by done. injection Heq as Heq.
  apply (f_equal (fun m => m !! k)) in Heq. rewrite !merge_apps_lookup in Heq.
  rewrite Hx, Hy in Heq. cbn [merge_entry] in Heq.
  assert (base (AppConfig_merged x y) = base (AppConfig_merged y x)) as Hbase
    by congruence.
  unfold AppConfig_merged in Hbase. cbn [AppConfig_new base] in Hbase.
  rewrite Hp, Hq in Hbase. simpl in Hbase. congruence.
Qed.

Lemma VFXDirsConfig_merged_not_comm_witness :
  let a := mkVFXDirsConfig {[ "maya" := mkAppConfig (Some (Pathlib.of_str "/a")) InstallOverride_default ∅ ]} in
  let b := mkVFXDirsConfig {[ "maya" := mkAppConfig (Some (Pathlib.of_str "/b")) InstallOverride_default ∅ ]} in
  VFXDirsConfig_merged a (Some b) ≠ VFXDirsConfig_merged b (Some a).
Proof.
  intros a b.
  eapply (VFXDirsConfig_merged_not_comm a b "maya"
            (mkAppConfig (Some (Pathlib.of_str "/a")) InstallOverride_default ∅)
            (mkAppConfig (Some (Pathlib.of_str "/b")) InstallOverride_default ∅)
            (Pathlib.of_str "/a") (Pathlib.of_str "/b")).
  - apply map_Forall_singleton. split; [reflexivity|apply map_Forall_empty].
  - apply map_Forall_singleton. split; [reflexivity|apply map_Forall_empty].
  - apply lookup_singleton_eq.
  - apply lookup_singleton_eq.
  - reflexivity.
  - reflexivity.
  - discriminate.
Defined.

(** ** More on parsing *)

Lemma all_space_strip s : Str.all_space s = false → Str.is_empty (Str.strip s) = false.
Proof.
  intros H. destruct (Str.is_empty (Str.strip s)) eqn:E; [|done].
  apply is_empty_true, strip_empty_iff in E. congruence.
Qed.

Lemma _parse_path_cases_aux (raw : Value) (e : Env) (h base_dir : Path)
    (where_ : string) :
  (∀ s, raw = VStr s → Str.all_space s = false →
     ∃ p, _parse_path raw e h base_dir where_ = Ok p)
  ∧ (∀ s, raw = VStr s → Str.all_space s = true →
       _parse_path raw e h base_dir where_
       = Raise (VFXDirsConfigError (where_ ++ " cannot be an empty path")))
  ∧ ((∀ s, raw ≠ VStr s) →
       _parse_path raw e h base_dir where_
       = Raise (VFXDirsConfigError
                  (where_ ++ " must be a string path but got " ++ type_name_of raw)))
  ∧ (∀ err, _parse_path raw e h base_dir where_ = Raise err →
       ∃ suffix, err = VFXDirsConfigError (where_ ++ suffix)).
Proof.
  split; [|split; [|split]].
  - intros s -> Hs. unfold _parse_path. rewrite (all_space_strip s Hs).
    destruct (negb _); by eexists.
  - intros s -> Hs. apply _parse_path_blank. by apply strip_empty_iff.
  - apply _parse_path_not_str.
  - intros err. destruct raw; simpl; try (intros [= <-]; by eexists).
    destruct (Str.is_empty (Str.strip s)); [intros [= <-]; by eexists|].
    by destruct (negb _).
Qed.

(** [_parse_path] returns exactly for the strings that are not blank,
    whatever the environment, the home and the directory are; a blank
    string and a value of another type raise a [VFXDirsConfigError] whose
    message begins with the location it was given. *)
Theorem _parse_path_cases (raw : Value) (e : Env) (h base_dir : Path)
    (where_ : string) :
  (∀ s, raw = VStr s → Str.all_space s = false →
     ∃ p, _parse_path raw e h base_dir where_ = Ok p)
  ∧ (∀ s, raw = VStr s → Str.all_space s = true →
       _parse_path raw e h base_dir where_
       = Raise (VFXDirsConfigError (where_ ++ " cannot be an empty path")))
  ∧ ((∀ s, raw ≠ VStr s) →
       _parse_path raw e h base_dir where_
       = Raise (VFXDirsConfigError
                  (where_ ++ " must be a string path but got " ++ type_name_of raw)))
  ∧ (∀ err, _parse_path raw e h base_dir where_ = Raise err →
       ∃ suffix, err = VFXDirsConfigError (where_ ++ suffix)).
Proof. apply _parse_path_cases_aux. Qed.

Lemma _parse_path_cases_witness :
  (∃ p, _parse_path (VStr " cache ") ∅ example_home (Pathlib.of_str "/etc") "apps.maya.base" = Ok p)
  ∧ _parse_path (VStr "  ") ∅ example_home (Pathlib.of_str "/etc") "apps.maya.base"
    = Raise (VFXDirsConfigError "apps.maya.base cannot be an empty path").
Proof.
  destruct (_parse_path_cases (VStr " cache ") ∅ example_home (Pathlib.of_str "/etc")
              "apps.maya.base") as (H1 & _).
  destruct (_parse_path_cases (VStr "  ") ∅ example_home (Pathlib.of_str "/etc")
              "apps.maya.base") as (_ & H2 & _).
  split; [exact (H1 " cache " eq_refl eq_refl)|exact (H2 "  " eq_refl eq_refl)].
Defined.

Lemma truediv_is_absolute (b q : Path) :
  Pathlib.is_absolute (b // q) = Pathlib.is_absolute q || Pathlib.is_absolute b.
Proof.
  unfold Pathlib.truediv. destruct (Pathlib.is_absolute q) eqn:E; [by rewrite E|].
  done.
Qed.

Lemma _parse_path_is_absolute raw (e : Env) (h base_dir : Path) where_ p :
  _parse_path raw e h base_dir where_ = Ok p →
  ∃ s, raw = VStr s
       ∧ Pathlib.is_absolute p
         = Pathlib.is_absolute
             (Pathlib.of_str (_expand_env_vars (_expand_user (Str.strip s) h) e))
           || Pathlib.is_absolute base_dir.
Proof.
  destruct raw; try done. simpl.
  destruct (Str.is_empty (Str.strip s)); [done|].
  destruct (Pathlib.is_absolute _) eqn:E; simpl; intros [= <-]; exists s.
  - by rewrite E.
  - by rewrite truediv_is_absolute, E.
Qed.

Lemma parse_optional_path_absolute tbl key (e : Env) (h base_dir : Path) where_ p :
  Pathlib.is_absolute base_dir = true →
  parse_optional_path tbl key e h base_dir where_ = Ok p → absolute_if_present p.
Proof.
  intros Hb. unfold parse_optional_path.
  destruct (table_get tbl key) as [v|]; [|by intros [= <-] q].
  assert (_parse_path v e h base_dir where_ ≫= (fun p0 => Ok (Some p0)) = Ok p →
          absolute_if_present p) as Hgo.
  { destruct (_parse_path v e h base_dir where_) as [p'|] eqn:E; [|done].
    rewrite bind_Ok. intros [= <-] q [= <-].
    destruct (_parse_path_is_absolute _ _ _ _ _ _ E) as (s & _ & ->).
    rewrite Hb. apply orb_true_r. }
  destruct v; try exact Hgo. by intros [= <-] q.
Qed.

Lemma parse_paths_absolute paths_tbl (e : Env) (h base_dir : Path) app_id :
  Pathlib.is_absolute base_dir = true →
  ∀ acc m,
    map_Forall (fun _ p => Pathlib.is_absolute p = true) acc →
    parse_paths paths_tbl e h base_dir app_id acc = Ok m →
    map_Forall (fun _ p => Pathlib.is_absolute p = true) m.
Proof.
  intros Hb. induction paths_tbl as [|[rk rv] rest IH]; intros acc m Hacc; simpl.
  - by intros [= <-].
  - destruct (_parse_path rv e h base_dir _) as [p|] eqn:E; [|done].
    rewrite bind_Ok. apply IH. apply map_Forall_insert_2; [|done].
    destruct (_parse_path_is_absolute _ _ _ _ _ _ E) as (s & _ & ->).
    rewrite Hb. apply orb_true_r.
Qed.

(** What a successful [parse_app] went through. *)
Lemma parse_app_inv app_id v (e : Env) (h base_dir : Path) cfg :
  parse_app app_id v e h base_dir = Ok cfg →
  ∃ tbl install_tbl paths_tbl b r x p,
    v = VTable tbl
    ∧ parse_optional_path tbl "base" e h base_dir ("apps." ++ app_id ++ ".base") = Ok b
    ∧ get_or_empty tbl "install" = VTable install_tbl
    ∧ parse_optional_path install_tbl "root" e h base_dir
        ("apps." ++ app_id ++ ".install.root") = Ok r
    ∧ parse_optional_path install_tbl "executable" e h base_dir
        ("apps." ++ app_id ++ ".install.executable") = Ok x
    ∧ get_or_empty tbl "paths" = VTable paths_tbl
    ∧ parse_paths paths_tbl e h base_dir app_id ∅ = Ok p
    ∧ cfg = AppConfig_new b (mkInstallOverride r x) p.
Proof.
  unfold parse_app. destruct v as [| | | | |tbl|]; try done.
  destruct (parse_optional_path tbl "base" _ _ _ _) as [b|] eqn:Eb; [|done].
  rewrite bind_Ok.
  destruct (get_or_empty tbl "install") as [| | | | |install_tbl|] eqn:Ei; try done.
  destruct (parse_optional_path install_tbl "root" _ _ _ _) as [r|] eqn:Er; [|done].
  rewrite bind_Ok.
  destruct (parse_optional_path install_tbl "executable" _ _ _ _) as [x|] eqn:Ex; [|done].
  rewrite bind_Ok.
  destruct (get_or_empty tbl "paths") as [| | | | |paths_tbl|] eqn:Ep; try done.
  destruct (parse_paths paths_tbl _ _ _ _ _) as [p|] eqn:Epp; [|done].
  rewrite bind_Ok. intros [= <-].
  by exists tbl, install_tbl, paths_tbl, b, r, x, p.
Qed.

(** An invariant of the loop over the applications. *)
Lemma parse_apps_inv (Q : AppConfig → Prop) (e : Env) (h base_dir : Path) :
  (∀ app_id v cfg, parse_app app_id v e h base_dir = Ok cfg → Q cfg) →
  ∀ raw_apps acc m,
    map_Forall (fun k a => app_id_normalized k ∧ Q a) acc →
    parse_apps raw_apps e h base_dir acc = Ok m →
    map_Forall (fun k a => app_id_normalized k ∧ Q a) m.
Proof.
  intros HQ. induction raw_apps as [|[rid rtbl] rest IH]; intros acc m Hacc; simpl.
  - by intros [= <-].
  - destruct (_normalize_app_id rid) as [id|] eqn:Eid; [|done]. rewrite bind_Ok.
    destruct (parse_app id rtbl e h base_dir) as [cfg|] eqn:Ecfg; [|done].
    rewrite bind_Ok. apply IH. apply map_Forall_insert_2; [|done]. split.
    + by apply (_normalize_app_id_idem rid).
    + by apply (HQ id rtbl).
Qed.

(** What a successful [from_mapping] went through: the constructor at its
    end receives normalized identifiers and stores them as they are. *)
Lemma from_mapping_inv host data base_dir e ctx c :
  from_mapping host data base_dir e (Some ctx) = Ok c →
  ∃ tbl raw_apps,
    data = VTable tbl
    ∧ (match table_get tbl "apps" with
       | None | Some VNone => raw_apps = []
       | Some v => v = VTable raw_apps
       end)
    ∧ parse_apps raw_apps (env_of e ctx) (home ctx) base_dir ∅ = Ok (apps c).
Proof.
  unfold from_mapping. destruct data as [| | | | |tbl|]; try done.
  rewrite bind_Ok. fold (env_of e ctx).
  set (raw := default (VTable []) (table_get tbl "apps")).
  assert (∀ raw_apps, match raw with VNone => VTable [] | _ => raw end = VTable raw_apps →
          match table_get tbl "apps" with
          | None | Some VNone => raw_apps = []
          | Some v => v = VTable raw_apps
          end) as Hraw.
  { intros raw_apps. subst raw. destruct (table_get tbl "apps") as [v|]; simpl.
    - destruct v; try done. by intros [= <-].
    - by intros [= <-]. }
  destruct (match raw with VNone => VTable [] | _ => raw end)
    as [| | | | |raw_apps|] eqn:Er; try done.
  destruct (parse_apps raw_apps _ _ _ _) as [m|] eqn:Em; [|done].
  rewrite bind_Ok. intros Hnew.
  pose proof (parse_apps_inv (fun _ => True) (env_of e ctx) (home ctx) base_dir
                (fun _ _ _ _ => I) raw_apps ∅ m (map_Forall_empty _) Em) as Hids.
  unfold VFXDirsConfig_new in Hnew.
  rewrite (VFXDirsConfig_normalized_id m), bind_Ok in Hnew.
  2:{ intros k a Hk. by destruct (Hids k a Hk). }
  injection Hnew as <-. exists tbl, raw_apps. split; [done|].
  split; [by apply Hraw|done].
Qed.

Lemma AppConfig_new_absolute b i m :
  absolute_if_present b → absolute_if_present (root i) →
  absolute_if_present (executable i) →
  map_Forall (fun _ p => Pathlib.is_absolute p = true) m →
  AppConfig_absolute (AppConfig_new b i m).
Proof.
  intros Hb Hr Hx Hm. repeat split; try done.
  intros k p Hk. cbn [AppConfig_new paths] in Hk.
  destruct (proj1 (AppConfig_normalized_inv m k) p Hk) as (k0 & Hk0 & _).
  by apply (Hm k0 p).
Qed.

(** Every tree that [from_mapping] returns is well formed: its identifiers
    and the keys of its paths are normalized, so the constructor at the end
    of the parse never raises. *)
Theorem from_mapping_wf (host : Host) (data : Value) (base_dir : Path)
    (e : option Env) (ctx : Context) (c : VFXDirsConfig) :
  from_mapping host data base_dir e (Some ctx) = Ok c → VFXDirsConfig_wf c.
Proof.
  intros H. destruct (from_mapping_inv _ _ _ _ _ _ H) as (tbl & raw_apps & _ & _ & Hp).
  apply (parse_apps_inv AppConfig_wf (env_of e ctx) (home ctx) base_dir) in Hp.
  - done.
  - intros app_id v cfg Hcfg.
    destruct (parse_app_inv _ _ _ _ _ _ Hcfg) as (? & ? & ? & ? & ? & ? & ? & _ & _ & _ & _ & _ & _ & _ & ->).
    apply AppConfig_new_wf.
  - apply map_Forall_empty.
Qed.

(** When the directory of the configuration is absolute, every path of the
    tree that [from_mapping] returns is absolute: the bases, the install
    roots and executables, and the per-key paths. In general a parsed path
    is absolute exactly when its expansion is absolute or the directory
    is. *)
Theorem from_mapping_absolute (host : Host) (data : Value) (base_dir : Path)
    (e : option Env) (ctx : Context) (c : VFXDirsConfig) :
  (Pathlib.is_absolute base_dir = true →
   from_mapping host data base_dir e (Some ctx) = Ok c →
   VFXDirsConfig_absolute c)
  ∧ (∀ s env h where_ p,
       _parse_path (VStr s) env h base_dir where_ = Ok p →
       Pathlib.is_absolute p
       = Pathlib.is_absolute
           (Pathlib.of_str (_expand_env_vars (_expand_user (Str.strip s) h) env))
         || Pathlib.is_absolute base_dir).
Proof.
  split.
  - intros Hb H.
    destruct (from_mapping_inv _ _ _ _ _ _ H) as (tbl & raw_apps & _ & _ & Hp).
    apply (parse_apps_inv AppConfig_absolute (env_of e ctx) (home ctx) base_dir) in Hp.
    + intros k a Hk. by destruct (Hp k a Hk).
    + intros app_id v cfg Hcfg.
      destruct (parse_app_inv _ _ _ _ _ _ Hcfg)
        as (t & it & pt & b & r & x & p & _ & Hbase & _ & Hr & Hx & _ & Hpaths & ->).
      apply AppConfig_new_absolute.
      * by eapply parse_optional_path_absolute.
      * by eapply parse_optional_path_absolute.
      * by eapply parse_optional_path_absolute.
      * eapply parse_paths_absolute; [done| |exact Hpaths]. apply map_Forall_empty.
    + apply map_Forall_empty.
  - intros s env h where_ p Hp.
    destruct (_parse_path_is_absolute _ _ _ _ _ _ Hp) as (s' & [= <-] & Habs).
    exact Habs.
Qed.

Lemma from_mapping_wf_witness :
  ∃ c, from_mapping example_host example_data (Pathlib.of_str "/etc/vfx") None
         (Some example_ctx) = Ok c
       ∧ VFXDirsConfig_wf c.
Proof.
  destruct (from_mapping example_host example_data (Pathlib.of_str "/etc/vfx") None
              (Some example_ctx)) as [c|err] eqn:E.
  - exists c. split; [reflexivity|]. exact (from_mapping_wf _ _ _ _ _ _ E).
  - vm_compute in E. discriminate E.
Defined.

Lemma from_mapping_absolute_witness :
  ∃ c, from_mapping example_host example_data (Pathlib.of_str "/etc/vfx") None
         (Some example_ctx) = Ok c
       ∧ VFXDirsConfig_absolute c.
Proof.
  destruct (from_mapping example_host example_data (Pathlib.of_str "/etc/vfx") None
              (Some example_ctx)) as [c|err] eqn:E.
  - exists c. split; [reflexivity|].
    exact (proj1 (from_mapping_absolute example_host example_data
                    (Pathlib.of_str "/etc/vfx") None example_ctx c) eq_refl E).
  - vm_compute in E. discriminate E.
Defined.

(** The parse of the example document: the identifier and the keys are
    normalized, the tilde and the variable are expanded, and the relative
    path lies under the directory of the configuration. *)
Example from_mapping_example :
  from_mapping example_host example_data (Pathlib.of_str "/etc/vfx") None
    (Some example_ctx)
  = Ok (mkVFXDirsConfig
          {[ "maya" := mkAppConfig (Some (Pathlib.of_str "/home/u/maya"))
                         InstallOverride_default
                         {[ "cache" := Pathlib.of_str "/etc/vfx/cache";
                            "logs" := Pathlib.of_str "/opt/foo/logs" ]} ]}).
Proof. vm_compute. reflexivity. Qed.

Lemma rco_Ok {A} (a : A) : raises_config_error_only (Ok a).
Proof. by intros e. Qed.

Lemma rco_Raise {A} msg : raises_config_error_only (A := A) (Raise (VFXDirsConfigError msg)).
Proof. intros e [= <-]. by eexists. Qed.

Lemma rco_bind {A B} (r : result A) (k : A → result B) :
  raises_config_error_only r → (∀ a, raises_config_error_only (k a)) →
  raises_config_error_only (r ≫= k).
Proof.
  intros Hr Hk. destruct r as [a|e]; [by rewrite bind_Ok|].
  rewrite bind_Raise. intros e' [= <-]. by apply Hr.
Qed.

Lemma rco__parse_path raw (e : Env) (h base_dir : Path) where_ :
  raises_config_error_only (_parse_path raw e h base_dir where_).
Proof.
  intros err H.
  destruct (proj2 (proj2 (proj2 (_parse_path_cases_aux raw e h base_dir where_))) err H)
    as [suffix ->].
  by eexists.
Qed.

Lemma rco_parse_optional_path tbl key (e : Env) (h base_dir : Path) where_ :
  raises_config_error_only (parse_optional_path tbl key e h base_dir where_).
Proof.
  unfold parse_optional_path.
  destruct (table_get tbl key) as [v|]; [|apply rco_Ok].
  assert (raises_config_error_only
            (_parse_path v e h base_dir where_ ≫= (fun p => Ok (Some p)))) as Hgo.
  { apply rco_bind; [apply rco__parse_path|]. intros a. apply rco_Ok. }
  destruct v; try exact Hgo. apply rco_Ok.
Qed.

Lemma rco_parse_paths paths_tbl (e : Env) (h base_dir : Path) app_id :
  ∀ acc, raises_config_error_only (parse_paths paths_tbl e h base_dir app_id acc).
Proof.
  induction paths_tbl as [|[rk rv] rest IH]; intros acc; simpl; [apply rco_Ok|].
  apply rco_bind; [apply rco__parse_path|]. intros p. apply IH.
Qed.

Lemma rco_parse_app app_id v (e : Env) (h base_dir : Path) :
  raises_config_error_only (parse_app app_id v e h base_dir).
Proof.
  unfold parse_app. destruct v; try apply rco_Raise.
  apply rco_bind; [apply rco_parse_optional_path|]. intros b.
  destruct (get_or_empty items "install"); try apply rco_Raise.
  apply rco_bind; [apply rco_parse_optional_path|]. intros r.
  apply rco_bind; [apply rco_parse_optional_path|]. intros x.
  destruct (get_or_empty items "paths"); try apply rco_Raise.
  apply rco_bind; [apply rco_parse_paths|]. intros p. apply rco_Ok.
Qed.

Lemma rco__normalize_app_id s : raises_config_error_only (_normalize_app_id s).
Proof.
  unfold _normalize_app_id. destruct (Str.is_empty _); [apply rco_Raise|apply rco_Ok].
Qed.

Lemma rco_parse_apps raw_apps (e : Env) (h base_dir : Path) :
  ∀ acc, raises_config_error_only (parse_apps raw_apps e h base_dir acc).
Proof.
  induction raw_apps as [|[rid rtbl] rest IH]; intros acc; simpl; [apply rco_Ok|].
  apply rco_bind; [apply rco__normalize_app_id|]. intros id.
  apply rco_bind; [apply rco_parse_app|]. intros cfg. apply IH.
Qed.

Lemma rco_VFXDirsConfig_new m : raises_config_error_only (VFXDirsConfig_new m).
Proof.
  unfold VFXDirsConfig_new. pose proof (VFXDirsConfig_normalized_inv m) as H.
  destruct (VFXDirsConfig_normalized m) as [n|e]; [apply rco_Ok|].
  destruct H as [-> _]. apply rco_Raise.
Qed.

(** With a context supplied, [from_mapping] raises nothing but a
    [VFXDirsConfigError], whatever the input is. *)
Theorem from_mapping_raises_config_error_only (host : Host) (data : Value)
    (base_dir : Path) (e : option Env) (ctx : Context) :
  raises_config_error_only (from_mapping host data base_dir e (Some ctx)).
Proof.
  unfold from_mapping. destruct data; try apply rco_Raise.
  rewrite bind_Ok.
  destruct (match default (VTable []) (table_get items "apps") with
            | VNone => VTable []
            | _ => default (VTable []) (table_get items "apps")
            end); try apply rco_Raise.
  apply rco_bind; [apply rco_parse_apps|]. intros m. apply rco_VFXDirsConfig_new.
Qed.

(** Without a context, [from_mapping] builds one from the platform of the
    interpreter before it looks at [apps]: on a platform that
    [_detect_os_name] does not know, every table raises the [RuntimeError]
    of the platform, valid or not, while an input that is not a table still
    raises the error of the root; on a known platform the result is the one
    with the context that [Context.from_env] builds. *)
Theorem from_mapping_without_context (host : Host) (data : Value)
    (base_dir : Path) (e : option Env) :
  (∀ tbl err, data = VTable tbl → _detect_os_name host = Raise err →
     from_mapping host data base_dir e None = Raise err
     ∧ err = RuntimeError ("Unsupported platform: '" ++ sys_platform host ++ "'"))
  ∧ ((∀ tbl, data ≠ VTable tbl) →
       from_mapping host data base_dir e None
       = Raise (VFXDirsConfigError "Config root must be a TOML table or object"))
  ∧ (∀ o, _detect_os_name host = Ok o →
       ∃ ctx, from_env host e None None None = Ok ctx
              ∧ os ctx = o
              ∧ from_mapping host data base_dir e None
                = from_mapping host data base_dir e (Some ctx)).
Proof.
  split; [|split].
  - intros tbl err -> Herr. split.
    + unfold from_mapping, from_env. by rewrite Herr, !bind_Raise.
    + unfold _detect_os_name in Herr.
      destruct (Str.startswith "win" _); [done|].
      destruct (String.eqb _ "darwin"); [done|].
      destruct (Str.startswith "linux" _); [done|]. by injection Herr as <-.
  - intros Hd. destruct data; try done. by destruct (Hd items).
  - intros o Ho.
    assert (∃ ctx, from_env host e None None None = Ok ctx ∧ os ctx = o) as (ctx & Hctx & Hos).
    { unfold from_env. rewrite Ho, bind_Ok. destruct o; by eexists. }
    exists ctx. split; [done|]. split; [done|].
    destruct data; try done. unfold from_mapping. by rewrite Hctx.
Qed.

Lemma from_mapping_without_context_witness :
  from_mapping (mkHost "cygwin" ∅ example_home example_home "/tmp") example_data
    (Pathlib.of_str "/etc/vfx") None None
  = Raise (RuntimeError "Unsupported platform: 'cygwin'").
Proof.
  exact (proj1 (proj1 (from_mapping_without_context
                  (mkHost "cygwin" ∅ example_home example_home "/tmp") example_data
                  (Pathlib.of_str "/etc/vfx") None) _ _ eq_refl eq_refl)).
Defined.

Lemma from_mapping_raises_config_error_only_witness :
  ∃ msg, VFXDirsConfigError "`apps` must be a TOML table or object"
         = VFXDirsConfigError msg.
Proof.
  exact (from_mapping_raises_config_error_only example_host
           (VTable [("apps", VInt 1)]) (Pathlib.of_str "/etc/vfx") None example_ctx
           _ eq_refl).
Defined.

(** ** Repeated keys and the first error *)

Lemma parse_paths_app l1 l2 (e : Env) (h base_dir : Path) app_id acc :
  parse_paths (l1 ++ l2)%list e h base_dir app_id acc
  = parse_paths l1 e h base_dir app_id acc ≫= parse_paths l2 e h base_dir app_id.
Proof.
  revert acc. induction l1 as [|[rk rv] rest IH]; intros acc; simpl; [done|].
  destruct (_parse_path rv e h base_dir _); [|done]. rewrite !bind_Ok. apply IH.
Qed.

Lemma parse_paths_untouched l (e : Env) (h base_dir : Path) app_id k : ∀ acc m,
  parse_paths l e h base_dir app_id acc = Ok m →
  Forall (fun x => normalize_key (KeyStr x.1) ≠ k) l → m !! k = acc !! k.
Proof.
  induction l as [|[rk rv] rest IH]; intros acc m; simpl.
  - by intros [= <-].
  - destruct (_parse_path rv e h base_dir _) as [p|]; [|done]. rewrite bind_Ok.
    intros Hm Hall. apply Forall_cons in Hall as [Hk Hrest]. simpl in Hk.
    rewrite (IH _ _ Hm Hrest). by rewrite lookup_insert_ne.
Qed.

Lemma parse_apps_app l1 l2 (e : Env) (h base_dir : Path) acc :
  parse_apps (l1 ++ l2)%list e h base_dir acc
  = parse_apps l1 e h base_dir acc ≫= parse_apps l2 e h base_dir.
Proof.
  revert acc. induction l1 as [|[rid rtbl] rest IH]; intros acc; simpl; [done|].
  destruct (_normalize_app_id rid) as [id|]; [|done]. rewrite !bind_Ok.
  destruct (parse_app id rtbl e h base_dir); [|done]. rewrite !bind_Ok. apply IH.
Qed.

Lemma parse_apps_untouched l (e : Env) (h base_dir : Path) k : ∀ acc m,
  parse_apps l e h base_dir acc = Ok m →
  Forall (fun x => _normalize_app_id x.1 ≠ Ok k) l → m !! k = acc !! k.
Proof.
  induction l as [|[rid rtbl] rest IH]; intros acc m; simpl.
  - by intros [= <-].
  - destruct (_normalize_app_id rid) as [id|] eqn:Eid; [|done]. rewrite bind_Ok.
    destruct (parse_app id rtbl e h base_dir) as [cfg|]; [|done]. rewrite bind_Ok.
    intros Hm Hall. apply Forall_cons in Hall as [Hk Hrest]. simpl in Hk.
    rewrite (IH _ _ Hm Hrest). rewrite lookup_insert_ne; [done|]. congruence.
Qed.

(** When several raw keys of a [paths] table have the same normalized key,
    the last one in the order of the table gives the path; when several raw
    identifiers of [apps] have the same normalized identifier, the table of
    the last one is the application, and nothing of the earlier ones is
    kept. *)
Theorem parse_last_wins (e : Env) (h base_dir : Path) :
  (∀ l1 rk rv l2 app_id acc m,
     parse_paths (l1 ++ (rk, rv) :: l2)%list e h base_dir app_id acc = Ok m →
     Forall (fun x => normalize_key (KeyStr x.1) ≠ normalize_key (KeyStr rk)) l2 →
     ∃ p, _parse_path rv e h base_dir ("apps." ++ app_id ++ ".paths." ++ rk) = Ok p
          ∧ m !! normalize_key (KeyStr rk) = Some p)
  ∧ (∀ l1 rid rtbl l2 id acc m,
       parse_apps (l1 ++ (rid, rtbl) :: l2)%list e h base_dir acc = Ok m →
       _normalize_app_id rid = Ok id →
       Forall (fun x => _normalize_app_id x.1 ≠ Ok id) l2 →
       ∃ cfg, parse_app id rtbl e h base_dir = Ok cfg ∧ m !! id = Some cfg).
Proof.
  split.
  - intros l1 rk rv l2 app_id acc m Hm Hl2. rewrite parse_paths_app in Hm.
    destruct (parse_paths l1 e h base_dir app_id acc) as [m1|]; [|done].
    rewrite bind_Ok in Hm. cbn [parse_paths] in Hm.
    destruct (_parse_path rv e h base_dir _) as [p|]; [|done]. rewrite bind_Ok in Hm.
    exists p. split; [done|].
    rewrite (parse_paths_untouched _ _ _ _ _ _ _ _ Hm Hl2). apply lookup_insert_eq.
  - intros l1 rid rtbl l2 id acc m Hm Hid Hl2. rewrite parse_apps_app in Hm.
    destruct (parse_apps l1 e h base_dir acc) as [m1|]; [|done].
    rewrite bind_Ok in Hm. cbn [parse_apps] in Hm. rewrite Hid, bind_Ok in Hm.
    destruct (parse_app id rtbl e h base_dir) as [cfg|]; [|done]. rewrite bind_Ok in Hm.
    exists cfg. split; [done|].
    rewrite (parse_apps_untouched _ _ _ _ _ _ _ Hm Hl2). apply lookup_insert_eq.
Qed.

Lemma parse_last_wins_witness :
  ∃ m, parse_paths [("Cache", VStr "/a"); (" cache ", VStr "/b")] ∅ example_home
         (Pathlib.of_str "/etc") "maya" ∅ = Ok m
       ∧ m !! "cache" = Some (Pathlib.of_str "/b").
Proof.
  destruct (parse_paths [("Cache", VStr "/a"); (" cache ", VStr "/b")] ∅ example_home
              (Pathlib.of_str "/etc") "maya" ∅) as [m|err] eqn:E.
  - exists m. split; [reflexivity|].
    destruct (proj1 (parse_last_wins ∅ example_home (Pathlib.of_str "/etc"))
                [("Cache", VStr "/a")] " cache " (VStr "/b") [] "maya" ∅ m E
                (Forall_nil_2 _)) as (p & Hp & Hm).
    vm_compute in Hp. injection Hp as <-. exact Hm.
  - vm_compute in E. discriminate E.
Defined.

(** The parse stops at the first application, in the order of the table,
    whose identifier is blank or whose table is malformed: its error is the
    error of [from_mapping], whatever follows it. *)
Theorem from_mapping_first_error (host : Host) (tbl : list (string * Value))
    (base_dir : Path) (e : option Env) (ctx : Context)
    (l1 l2 : list (string * Value)) (rid : string) (rtbl : Value)
    (m1 : gmap string AppConfig) (err : exn) :
  table_get tbl "apps" = Some (VTable (l1 ++ (rid, rtbl) :: l2)%list) →
  parse_apps l1 (env_of e ctx) (home ctx) base_dir ∅ = Ok m1 →
  (_normalize_app_id rid
     ≫= fun id => parse_app id rtbl (env_of e ctx) (home ctx) base_dir) = Raise err →
  from_mapping host (VTable tbl) base_dir e (Some ctx) = Raise err.
Proof.
  intros Htbl H1 Herr. unfold from_mapping. rewrite bind_Ok, Htbl.
  cbn [default from_option id]. fold (env_of e ctx).
  rewrite parse_apps_app, H1, bind_Ok. cbn [parse_apps].
  destruct (_normalize_app_id rid) as [id|]; rewrite ?bind_Ok, ?bind_Raise in *.
  - by rewrite Herr, !bind_Raise.
  - by injection Herr as <-.
Qed.

Lemma from_mapping_first_error_witness :
  from_mapping example_host
    (VTable [("apps", VTable [("maya", VTable []); ("nuke", VInt 3);
                              ("houdini", VTable [])])])
    (Pathlib.of_str "/etc/vfx") None (Some example_ctx)
  = Raise (VFXDirsConfigError "`apps.nuke` must be a TOML table or object").
Proof.
  eapply (from_mapping_first_error example_host _ (Pathlib.of_str "/etc/vfx") None
            example_ctx [("maya", VTable [])] [("houdini", VTable [])] "nuke" (VInt 3)).
  - reflexivity.
  - vm_compute. reflexivity.
  - reflexivity.
Defined.

(** ** Keys that the parser does not know *)

Lemma table_get_other l1 k v l2 key :
  k ≠ key → table_get (l1 ++ (k, v) :: l2)%list key = table_get (l1 ++ l2)%list key.
Proof.
  intros Hk. induction l1 as [|[k1 v1] rest IH]; simpl.
  - by rewrite (proj2 (String.eqb_neq k key) Hk).
  - by rewrite IH.
Qed.

Lemma get_or_empty_other l1 k v l2 key :
  k ≠ key → get_or_empty (l1 ++ (k, v) :: l2)%list key = get_or_empty (l1 ++ l2)%list key.
Proof. intros Hk. unfold get_or_empty. by rewrite table_get_other. Qed.

Lemma parse_optional_path_other l1 k v l2 key (e : Env) (h base_dir : Path) where_ :
  k ≠ key →
  parse_optional_path (l1 ++ (k, v) :: l2)%list key e h base_dir where_
  = parse_optional_path (l1 ++ l2)%list key e h base_dir where_.
Proof. intros Hk. unfold parse_optional_path. by rewrite table_get_other. Qed.

(** A key that the parser does not read is ignored, whatever its value is:
    at the root every key but [apps], in the table of an application every
    key but [base], [install] and [paths]. No such key is an error. *)
Theorem from_mapping_ignores_unknown_keys (host : Host) (base_dir : Path)
    (e : option Env) (context : option Context) (k : string) (v : Value)
    (l1 l2 : list (string * Value)) :
  (k ≠ "apps" →
   from_mapping host (VTable (l1 ++ (k, v) :: l2)%list) base_dir e context
   = from_mapping host (VTable (l1 ++ l2)%list) base_dir e context)
  ∧ (k ≠ "base" → k ≠ "install" → k ≠ "paths" →
     ∀ app_id env h,
       parse_app app_id (VTable (l1 ++ (k, v) :: l2)%list) env h base_dir
       = parse_app app_id (VTable (l1 ++ l2)%list) env h base_dir).
Proof.
  split.
  - intros Hk. unfold from_mapping. by rewrite table_get_other.
  - intros Hb Hi Hp app_id env h. unfold parse_app.
    by rewrite parse_optional_path_other, !get_or_empty_other.
Qed.

Lemma from_mapping_ignores_unknown_keys_witness :
  from_mapping example_host
    (VTable [("version", VInt 2); ("apps", VTable [("maya", VTable [])])])
    (Pathlib.of_str "/etc/vfx") None (Some example_ctx)
  = from_mapping example_host (VTable [("apps", VTable [("maya", VTable [])])])
      (Pathlib.of_str "/etc/vfx") None (Some example_ctx).
Proof.
  apply (proj1 (from_mapping_ignores_unknown_keys example_host (Pathlib.of_str "/etc/vfx")
                  None (Some example_ctx) "version" (VInt 2) []
                  [("apps", VTable [("maya", VTable [])])])).
  discriminate.
Defined.

(** ** From the document to the lookup *)

Lemma AppConfig_normalized_singleton k p :
  AppConfig_normalized {[ normalize_key (KeyStr k) := p ]}
  = {[ normalize_key (KeyStr k) := p ]}.
Proof.
  apply AppConfig_normalized_id, map_Forall_singleton, normalize_key_idem.
Qed.

(** A path written under one key of one application is what
    [path_override] returns for every spelling of the identifier and of the
    key: the parse of that string at that location. *)
Theorem from_mapping_path_override (host : Host) (base_dir : Path)
    (e : option Env) (ctx : Context) (raw_id raw_key raw : string) :
  Str.all_space raw_id = false → Str.all_space raw = false →
  let data :=
    VTable [("apps",
             VTable [(raw_id,
                      VTable [("paths", VTable [(raw_key, VStr raw)])])])] in
  ∃ c p,
    from_mapping host data base_dir e (Some ctx) = Ok c
    ∧ _parse_path (VStr raw) (env_of e ctx) (home ctx) base_dir
        ("apps." ++ Str.lower (Str.strip raw_id) ++ ".paths." ++ raw_key) = Ok p
    ∧ ∀ id' key',
        Str.lower (Str.strip id') = Str.lower (Str.strip raw_id) →
        normalize_key key' = normalize_key (KeyStr raw_key) →
        VFXDirsConfig_path_override c id' key' = Ok (Some p).
Proof.
  intros Hid Hraw data.
  destruct (proj1 (proj2 (_normalize_app_id_cases_aux raw_id)) Hid)
    as (nid & Hnid & Hidv & Hne & _ & _ & Hidem).
  destruct (proj1 (_parse_path_cases_aux (VStr raw) (env_of e ctx) (home ctx) base_dir
                     ("apps." ++ nid ++ ".paths." ++ raw_key)) raw eq_refl Hraw)
    as (p & Hp).
  set (cfg := mkAppConfig None (mkInstallOverride None None)
                {[ normalize_key (KeyStr raw_key) := p ]}).
  assert (parse_app nid (VTable [("paths", VTable [(raw_key, VStr raw)])])
            (env_of e ctx) (home ctx) base_dir = Ok cfg) as Happ.
  { unfold parse_app. cbn [parse_optional_path table_get String.eqb Ascii.eqb
                             Bool.eqb get_or_empty default from_option id truthy].
    rewrite !bind_Ok. cbn [parse_paths]. rewrite Hp, !bind_Ok.
    unfold AppConfig_new. rewrite insert_empty, AppConfig_normalized_singleton.
    done. }
  assert (from_mapping host data base_dir e (Some ctx)
          = Ok (mkVFXDirsConfig {[ nid := cfg ]})) as Hc.
  { unfold from_mapping, data. rewrite bind_Ok.
    cbn [table_get String.eqb Ascii.eqb Bool.eqb default from_option id].
    fold (env_of e ctx). cbn [parse_apps]. rewrite Hnid, bind_Ok, Happ, bind_Ok.
    rewrite insert_empty. apply VFXDirsConfig_new_wf.
    apply map_Forall_singleton. split; [done|].
    apply map_Forall_singleton, normalize_key_idem. }
  exists (mkVFXDirsConfig {[ nid := cfg ]}), p. split; [done|].
  split; [by rewrite <- Hidv|].
  intros id' key' Hid' Hkey'.
  unfold VFXDirsConfig_path_override, VFXDirsConfig_app, _normalize_app_id.
  rewrite Hid', <- Hidv.
  destruct (Str.is_empty nid) eqn:Ee; [by apply is_empty_true in Ee|].
  rewrite !bind_Ok. cbn [apps]. rewrite lookup_singleton_eq.
  unfold AppConfig_path_override. cbn [paths cfg]. by rewrite Hkey', lookup_singleton_eq.
Qed.

Lemma from_mapping_path_override_witness :
  ∃ c, from_mapping example_host
         (VTable [("apps", VTable [(" Maya", VTable [("paths", VTable [("Cache", VStr "cache")])])])])
         (Pathlib.of_str "/etc/vfx") None (Some example_ctx) = Ok c
       ∧ VFXDirsConfig_path_override c "MAYA" (KeyDir CACHE)
         = Ok (Some (Pathlib.of_str "/etc/vfx/cache")).
Proof.
  destruct (from_mapping_path_override example_host (Pathlib.of_str "/etc/vfx") None
              example_ctx " Maya" "Cache" "cache" eq_refl eq_refl)
    as (c & p & Hc & Hp & Hlook).
  exists c. split; [exact Hc|].
  rewrite (Hlook "MAYA" (KeyDir CACHE) eq_refl eq_refl). vm_compute in Hp.
  by injection Hp as <-.
Defined.

(** ** Strings that expansion leaves alone *)

Lemma match_env_var_dollar_only s : Str.head_is (Ascii.eqb "$") s = false → match_env_var s = None.
Proof.
  destruct s as [|c r]; [done|]. simpl. intros H.
  destruct c as [[] [] [] [] [] [] [] []]; try done.
Qed.

Lemma refs_unset_no_dollar (e : Env) s : Str.all not_dollar s = true → refs_unset e s.
Proof.
  induction s as [|c r IH]; cbn [refs_unset Str.all].
  - intros _. split; [done|done].
  - intros H. apply andb_prop in H as [Hc Hr]. split; [|by apply IH].
    intros var g rest Hm. exfalso.
    assert (match_env_var (String c r) = None) as Hnone.
    { apply match_env_var_dollar_only. change (Ascii.eqb "$" c = false).
      unfold not_dollar in Hc. rewrite Ascii.eqb_sym.
      by destruct (Ascii.eqb c "$"). }
    congruence.
Qed.

Lemma refs_unset_empty s : refs_unset ∅ s.
Proof.
  induction s as [|c r IH]; simpl; (split; [intros; apply lookup_empty|done]).
Qed.

Lemma all_lstrip p s : Str.all p s = true → Str.all p (Str.lstrip s) = true.
Proof.
  induction s as [|c r IH]; simpl; [done|]. intros H.
  destruct (Str.isspace c); [|done]. apply andb_prop in H as [_ Hr]. by apply IH.
Qed.

Lemma all_rstrip p s : Str.all p s = true → Str.all p (Str.rstrip s) = true.
Proof.
  induction s as [|c r IH]; simpl; [done|]. intros H.
  apply andb_prop in H as [Hc Hr].
  destruct (Str.isspace c && Str.is_empty (Str.rstrip r)); [done|].
  simpl. by rewrite Hc, IH.
Qed.

(** Expansion of variables changes nothing in a string without a dollar
    sign, whatever the environment holds, and nothing in any string when
    the environment is empty. A raw path without a dollar sign that, once
    trimmed, does not begin with a tilde is taken as it is written. *)
Theorem _expand_env_vars_identity (s : string) (e : Env) (h base_dir : Path)
    (where_ : string) :
  (Str.all not_dollar s = true → _expand_env_vars s e = s)
  ∧ _expand_env_vars s ∅ = s
  ∧ (Str.all not_dollar s = true → Str.all_space s = false →
     Str.head_is (Ascii.eqb "~") (Str.strip s) = false →
     _parse_path (VStr s) e h base_dir where_
     = Ok (if Pathlib.is_absolute (Pathlib.of_str (Str.strip s))
           then Pathlib.of_str (Str.strip s)
           else base_dir // Pathlib.of_str (Str.strip s))).
Proof.
  split; [|split].
  - intros H. by apply _expand_env_vars_unset, refs_unset_no_dollar.
  - apply _expand_env_vars_unset, refs_unset_empty.
  - intros Hd Hs Ht. unfold _parse_path. rewrite (all_space_strip s Hs).
    assert (_expand_user (Str.strip s) h = Str.strip s) as ->.
    { destruct (Str.strip s) as [|c r] eqn:E; [done|].
      change (Ascii.eqb "~" c = false) in Ht. unfold _expand_user.
      assert (String.eqb (String c r) "~" = false) as ->.
      { apply String.eqb_neq. intros [= -> _]. by rewrite Ascii.eqb_refl in Ht. }
      cbn [Str.startswith]. by rewrite Ht. }
    rewrite (_expand_env_vars_unset e (Str.strip s)).
    + by destruct (Pathlib.is_absolute _).
    + apply refs_unset_no_dollar. unfold Str.strip. by apply all_rstrip, all_lstrip.
Qed.

Lemma _expand_env_vars_identity_witness :
  _expand_env_vars "/opt/maya/bin" example_env = "/opt/maya/bin"
  ∧ _parse_path (VStr " plugins/maya ") example_env example_home
      (Pathlib.of_str "/etc/vfx") "apps.maya.base"
    = Ok (Pathlib.of_str "/etc/vfx/plugins/maya").
Proof.
  split.
  - exact (proj1 (_expand_env_vars_identity "/opt/maya/bin" example_env example_home
                    example_home "") eq_refl).
  - exact (proj2 (proj2 (_expand_env_vars_identity " plugins/maya " example_env
                           example_home (Pathlib.of_str "/etc/vfx") "apps.maya.base"))
             eq_refl eq_refl eq_refl).
Defined.

(** ** More on the context *)

Lemma from_env_Some host e o h c :
  ∃ ctx, from_env host e (Some o) h c = Ok ctx
         ∧ os ctx = o
         ∧ env ctx = env_map_of host e
         ∧ home ctx = default (_home_from_env host o (env_map_of host e)) h
         ∧ cwd ctx = default (path_cwd host) c
         ∧ temp_dir ctx = Pathlib.of_str (gettempdir host).
Proof. unfold from_env. rewrite bind_Ok. destruct o; by eexists. Qed.

(** [Context.from_env] with an operating system given returns for every
    environment and keeps the tag, the environment, the given or current
    working directory and the temporary directory; [sys.platform] is then
    not consulted. Without one it returns exactly when [sys.platform]
    begins with [win], is [darwin] or begins with [linux], and raises a
    [RuntimeError] that quotes the platform otherwise. *)
Theorem from_env_platform (host : Host) (e : option Env) (h c : option Path) :
  (∀ o, ∃ ctx, from_env host e (Some o) h c = Ok ctx
               ∧ os ctx = o
               ∧ env ctx = env_map_of host e
               ∧ cwd ctx = default (path_cwd host) c
               ∧ temp_dir ctx = Pathlib.of_str (gettempdir host))
  ∧ (∀ o p, from_env (mkHost p (os_environ host) (path_home host) (path_cwd host)
                             (gettempdir host)) e (Some o) h c
            = from_env host e (Some o) h c)
  ∧ is_ok (from_env host e None h c) = known_platform (sys_platform host)
  ∧ (known_platform (sys_platform host) = false →
     from_env host e None h c
     = Raise (RuntimeError ("Unsupported platform: '" ++ sys_platform host ++ "'")))
  ∧ (Str.startswith "win" (sys_platform host) = true →
     from_env host e None h c = from_env host e (Some windows) h c).
Proof.
  split; [|split; [|split; [|split]]].
  - intros o. destruct (from_env_Some host e o h c) as (ctx & H & ? & ? & ? & ? & ?).
    by exists ctx.
  - intros o p. unfold from_env. rewrite !bind_Ok. by destruct o.
  - unfold from_env, _detect_os_name, known_platform.
    destruct (Str.startswith "win" _); [done|].
    destruct (String.eqb _ "darwin"); [done|].
    by destruct (Str.startswith "linux" _).
  - unfold from_env, _detect_os_name, known_platform.
    destruct (Str.startswith "win" _); [done|].
    destruct (String.eqb _ "darwin"); [done|].
    by destruct (Str.startswith "linux" _).
  - intros Hw. unfold from_env, _detect_os_name. by rewrite Hw.
Qed.

Lemma from_env_platform_witness :
  from_env (mkHost "cygwin" ∅ example_home example_home "/tmp") None None None None
  = Raise (RuntimeError "Unsupported platform: 'cygwin'")
  ∧ from_env (mkHost "win32" ∅ example_home example_home "/tmp") None None None None
    = from_env (mkHost "win32" ∅ example_home example_home "/tmp") None (Some windows)
        None None.
Proof.
  split.
  - exact (proj1 (proj2 (proj2 (proj2
             (from_env_platform (mkHost "cygwin" ∅ example_home example_home "/tmp")
                None None None)))) eq_refl).
  - exact (proj2 (proj2 (proj2 (proj2
             (from_env_platform (mkHost "win32" ∅ example_home example_home "/tmp")
                None None None)))) eq_refl).
Defined.

Lemma get_truthy_insert_ne (e : Env) k v key :
  k ≠ key → get_truthy (<[k := v]> e) key = get_truthy e key.
Proof. intros H. unfold get_truthy. by rewrite lookup_insert_ne. Qed.

(** The home directory of a context: a home that the caller gives is taken
    as it is; otherwise the value of [USERPROFILE] with the windows tag and
    of [HOME] with the others, when it is set and not empty, and
    [Path.home()] when it is unset or empty. [HOME] plays no part with the
    windows tag and [USERPROFILE] none with the others. *)
Theorem from_env_home (host : Host) (e : Env) (o : OSName) (c : option Path) :
  (∀ p, ∃ ctx, from_env host (Some e) (Some o) (Some p) c = Ok ctx ∧ home ctx = p)
  ∧ (∃ ctx, from_env host (Some e) (Some o) None c = Ok ctx
            ∧ home ctx
              = match e !! (match o with windows => "USERPROFILE" | _ => "HOME" end) with
                | Some v => if Str.is_empty v then path_home host else Pathlib.of_str v
                | None => path_home host
                end)
  ∧ (∀ v, _home_from_env host o
            (<[match o with windows => "HOME" | _ => "USERPROFILE" end := v]> e)
          = _home_from_env host o e).
Proof.
  split; [|split].
  - intros p. destruct (from_env_Some host (Some e) o (Some p) c)
      as (ctx & H & _ & _ & Hh & _). by exists ctx.
  - destruct (from_env_Some host (Some e) o None c) as (ctx & H & _ & _ & Hh & _).
    exists ctx. split; [done|]. rewrite Hh. simpl. unfold _home_from_env, get_truthy.
    destruct o; simpl; destruct (e !! _) as [v|]; try done; by destruct (Str.is_empty v).
  - intros v. unfold _home_from_env.
    destruct o; by rewrite get_truthy_insert_ne.
Qed.

Lemma from_env_home_witness :
  ∃ ctx, from_env example_host (Some {[ "HOME" := "" ]}) (Some linux) None None = Ok ctx
         ∧ home ctx = Pathlib.of_str "/home/u".
Proof.
  destruct (proj1 (proj2 (from_env_home example_host {[ "HOME" := "" ]} linux None)))
    as (ctx & Hctx & Hh).
  exists ctx. split; [exact Hctx|]. rewrite Hh. reflexivity.
Defined.

Lemma program_files_roots_elem (e : Env) p :
  p ∈ program_files_roots e
  ↔ ∃ key v, key ∈ program_files_keys ∧ e !! key = Some v ∧ v ≠ ""
             ∧ p = Pathlib.of_str v.
Proof.
  unfold program_files_roots. fold program_files_keys.
  rewrite list_elem_of_In, in_flat_map. split.
  - intros (key & Hkey & Hp). exists key. unfold get_truthy in Hp.
    destruct (e !! key) as [v|] eqn:E; [|by destruct Hp].
    destruct (Str.is_empty v) eqn:Ev; [by destruct Hp|].
    exists v. split; [by apply list_elem_of_In|]. split; [done|]. split.
    + intros ->. done.
    + destruct Hp as [<-|[]]. done.
  - intros (key & v & Hkey & He & Hv & ->). exists key.
    split; [by apply list_elem_of_In|]. unfold get_truthy. rewrite He.
    destruct v; [done|]. by left.
Qed.

(** The install roots of a context are never empty. With the linux and the
    macos tag they are fixed lists that no variable changes. With the
    windows tag they are the paths of the Program-Files variables that are
    set and not empty, and [C:/Program Files] alone when there is none. *)
Theorem from_env_install_roots (host : Host) (e : Env) (o : OSName)
    (h c : option Path) :
  ∃ ctx, from_env host (Some e) (Some o) h c = Ok ctx
         ∧ install_roots ctx ≠ []
         ∧ (o = linux →
            install_roots ctx
            = [Pathlib.of_str "/opt"; Pathlib.of_str "/usr/local"; Pathlib.of_str "/usr"])
         ∧ (o = macos →
            install_roots ctx
            = [Pathlib.of_str "/Applications"; Pathlib.of_str "/Applications/Utilities"])
         ∧ (o = windows →
            (program_files_roots e = [] →
             install_roots ctx = [Pathlib.of_str "C:/Program Files"])
            ∧ (program_files_roots e ≠ [] →
               ∀ p, p ∈ install_roots ctx
                    ↔ ∃ key v, key ∈ program_files_keys ∧ e !! key = Some v
                               ∧ v ≠ "" ∧ p = Pathlib.of_str v)
            ∧ (length (install_roots ctx) ≤ 3)%nat).
Proof.
  destruct (from_env_Some host (Some e) o h c) as (ctx & H & _).
  exists ctx. split; [done|]. unfold from_env in H. rewrite bind_Ok in H.
  destruct o; injection H as <-; cbn [install_roots].
  - destruct (program_files_roots e) as [|r rs] eqn:E.
    + split; [done|]. split; [done|]. split; [done|]. intros _.
      split; [done|]. split; [done|]. simpl. lia.
    + split; [done|]. split; [done|]. split; [done|]. intros _.
      split; [done|]. split.
      * intros _ p. rewrite <- E. apply program_files_roots_elem.
      * rewrite <- E. unfold program_files_roots. simpl.
        destruct (get_truthy e "ProgramFiles"), (get_truthy e "ProgramW6432"),
          (get_truthy e "ProgramFiles(x86)"); simpl; lia.
  - split; [done|]. split; [done|]. split; [done|]. done.
  - split; [done|]. split; [done|]. split; [done|]. done.
Qed.

Lemma from_env_install_roots_witness :
  ∃ ctx, from_env example_host (Some {[ "ProgramFiles" := "" ]}) (Some windows)
           None None = Ok ctx
         ∧ install_roots ctx = [Pathlib.of_str "C:/Program Files"].
Proof.
  destruct (from_env_install_roots example_host {[ "ProgramFiles" := "" ]} windows
              None None) as (ctx & Hctx & _ & _ & _ & Hw).
  exists ctx. split; [exact Hctx|].
  destruct (Hw eq_refl) as (Hnone & _). apply Hnone. vm_compute. reflexivity.
Defined.

(** The data and cache homes of a context. With the windows tag the data
    home is the configuration home, and the cache home is [LOCALAPPDATA]
    when it is set and not empty, else [AppData/Local] under the home. With
    the linux tag [XDG_DATA_HOME] and [XDG_CACHE_HOME] are used when they
    are set, else [.local/share] and [.cache] under the home. With the
    macos tag the three homes lie under [Library] of the home and no
    variable changes them. *)
Theorem from_env_data_cache_home (host : Host) (e : Env) (p : Path)
    (c : option Path) :
  (∃ ctx, from_env host (Some e) (Some windows) (Some p) c = Ok ctx
          ∧ data_home ctx = config_home ctx
          ∧ cache_home ctx
            = match e !! "LOCALAPPDATA" with
              | Some v => if Str.is_empty v then p /: "AppData" /: "Local"
                          else Pathlib.of_str v
              | None => p /: "AppData" /: "Local"
              end)
  ∧ (∃ ctx, from_env host (Some e) (Some linux) (Some p) c = Ok ctx
            ∧ data_home ctx
              = match e !! "XDG_DATA_HOME" with
                | Some v => Pathlib.of_str v
                | None => p /: ".local" /: "share"
                end
            ∧ cache_home ctx
              = match e !! "XDG_CACHE_HOME" with
                | Some v => Pathlib.of_str v
                | None => p /: ".cache"
                end)
  ∧ (∀ e', ∃ ctx ctx',
       from_env host (Some e) (Some macos) (Some p) c = Ok ctx
       ∧ from_env host (Some e') (Some macos) (Some p) c = Ok ctx'
       ∧ cache_home ctx = p /: "Library" /: "Caches"
       ∧ config_home ctx = config_home ctx'
       ∧ data_home ctx = data_home ctx'
       ∧ cache_home ctx = cache_home ctx').
Proof.
  split; [|split].
  - eexists. split; [reflexivity|]. split; [reflexivity|].
    cbn [cache_home]. unfold get_truthy.
    destruct (e !! "LOCALAPPDATA") as [v|]; [|done]. by destruct (Str.is_empty v).
  - eexists. split; [reflexivity|]. by split.
  - intros e'. eexists. eexists. split; [reflexivity|]. split; [reflexivity|].
    by repeat split.
Qed.

(** ** The default configuration file *)

Lemma parent_child (p : Path) (name : string) :
  path_parts (Pathlib.of_str name) = [name] →
  Pathlib.is_absolute (Pathlib.of_str name) = false →
  Pathlib.parent (p /: name) = p.
Proof.
  intros Hparts Habs. unfold Pathlib.truediv. rewrite Habs, Hparts.
  unfold Pathlib.parent. cbn [path_parts path_root].
  destruct (path_parts p ++ [name])%list eqn:E.
  - by apply app_nil in E as [_ ?].
  - rewrite <- E, removelast_last. by destruct p.
Qed.

(** The default configuration file is [vfxdirs/config.toml] under the
    configuration home of the context. [load_default] loads it with that
    context, so that nothing is read when the file does not exist, and a
    relative path of the file is resolved under [vfxdirs] of the
    configuration home. *)
Theorem load_default_location (tomllib_loads : string → result Value)
    (fs : FileSystem) (host : Host) (ctx : Context) (e : option Env) :
  Pathlib.parent (default_config_path ctx) = config_home ctx /: "vfxdirs"
  ∧ Pathlib.parent (Pathlib.parent (default_config_path ctx)) = config_home ctx
  ∧ (fs (default_config_path ctx) = None →
     load_default tomllib_loads fs host ctx e = Ok None)
  ∧ (∀ text data, fs (default_config_path ctx) = Some (Ok text) →
       tomllib_loads text = Ok data →
       load_default tomllib_loads fs host ctx e
       = (cfg ← from_mapping host data (config_home ctx /: "vfxdirs") e (Some ctx);
          Ok (Some cfg))).
Proof.
  assert (Pathlib.parent (default_config_path ctx) = config_home ctx /: "vfxdirs")
    as Hparent by (by apply parent_child).
  split; [done|]. split; [rewrite Hparent; by apply parent_child|]. split.
  - intros H. unfold load_default, load, path_exists. by rewrite H.
  - intros text data Hfs Hloads.
    unfold load_default, load, from_file, path_exists, read_text.
    rewrite Hfs. cbn [negb]. rewrite bind_Ok, Hloads, bind_Ok, Hparent.
    by destruct (from_mapping _ _ _ _ _).
Qed.

Lemma load_default_location_witness :
  load_default example_loads example_fs example_host example_ctx None = Ok None.
Proof.
  exact (proj1 (proj2 (proj2 (load_default_location example_loads example_fs
                                 example_host example_ctx None))) eq_refl).
Defined.

(** ** The vocabulary of keys *)

(** The nine members of [DirKey] have nine different values, and each value
    is already trimmed and in lower case, so that it is a key and an
    identifier in normal form. *)
Theorem DirKey_values (k1 k2 : DirKey) :
  (DirKey_value k1 = DirKey_value k2 → k1 = k2)
  ∧ Str.lower (Str.strip (DirKey_value k1)) = DirKey_value k1
  ∧ _normalize_app_id (DirKey_value k1) = Ok (DirKey_value k1).
Proof.
  split; [|split].
  - destruct k1, k2; simpl; intros H; try done; discriminate H.
  - by destruct k1.
  - by destruct k1.
Qed.

Lemma DirKey_values_witness : _normalize_app_id (DirKey_value CACHE) = Ok "cache".
Proof. exact (proj2 (proj2 (DirKey_values CACHE LOGS))). Defined.

(** ** The constructor copies its argument *)

Section StoreCopy.
Import Store.


End StoreCopy.

